(** * BEM++ operator algebra and grid functions: a shallow embedding

    The development follows the places of the repository that carry the
    logic:

    - [GridFn]: [lib/assembly/grid_function.cpp], the C++ class
      [GridFunction] with its two lazily cached vectors, its constructors,
      the projection of a function and the arithmetic operators;
    - [BoundaryOp]: [python/bempp/assembly/boundary_operator.mako.pyx],
      the symbolic tree of boundary operators;
    - [Interpolated]: [interpolated_function.cpp], functions given by their
      values at the vertices of a grid;
    - [PyFunctor]: the SWIG wrapper of a Python callable as a functor;
    - [Blocked]: the blocked operator assembly exercised by
      [tests/unit/assembly/test_blocked_boundary_operator.cpp]. *)

From Stdlib Require Import ZArith Floats.
From stdpp Require Import base option list gmap strings.

Set Warnings "-register-all".

Local Open Scope nat_scope.

(** ** Scalars

    The C++ templates are instantiated at [float], [double] and their complex
    counterparts.  Only the operations are fixed here, no algebraic law: IEEE
    arithmetic satisfies few of them.  [s_eqb] is C++ [operator==]. *)

Class Scalar (T : Type) := {
  s_zero : T;
  s_one : T;
  s_add : T -> T -> T;
  s_opp : T -> T;
  s_mul : T -> T -> T;
  s_div : T -> T -> T;
  s_eqb : T -> T -> bool
}.

(** [double]: binary64 with the IEEE comparison (so [-0.0 == 0.0]). *)
#[export] Instance double_Scalar : Scalar float := {|
  s_zero := 0%float;
  s_one := 1%float;
  s_add := PrimFloat.add;
  s_opp := PrimFloat.opp;
  s_mul := PrimFloat.mul;
  s_div := PrimFloat.div;
  s_eqb := PrimFloat.eqb
|}.

(** Exact integers, used where a statement needs exact arithmetic. *)
#[export] Instance Z_Scalar : Scalar Z := {|
  s_zero := 0%Z;
  s_one := 1%Z;
  s_add := Z.add;
  s_opp := Z.opp;
  s_mul := Z.mul;
  s_div := Z.div;
  s_eqb := Z.eqb
|}.

(** ** Dense arrays

    What [asMatrix()] / [materialize()] returns: the rows of the array. *)

Abbreviation Matrix T := (list (list T)) (only parsing).

Section Matrix.

Context {T : Type} `{Scalar T}.

Definition n_rows (m : Matrix T) : nat := length m.
Definition n_cols (m : Matrix T) : nat := length (default [] (head m)).

(** [hasShape r c m]: [m] has [r] rows of [c] entries each. *)
Definition hasShape (r c : nat) (m : Matrix T) : Prop :=
  length m = r /\ Forall (fun row => length row = c) m.

Definition zeros (r c : nat) : Matrix T := replicate r (replicate c s_zero).

(** Elementwise sum of two arrays of one shape. *)
Definition madd (a b : Matrix T) : Matrix T := zip_with (zip_with s_add) a b.

(** Every entry multiplied by [alpha]. *)
Definition mscale (alpha : T) (a : Matrix T) : Matrix T := map (map (s_mul alpha)) a.

Definition entry (m : Matrix T) (r c : nat) : option T := m !! r ≫= (.!! c).

Lemma hasShape_zeros r c : hasShape r c (zeros r c).
Proof.
  split; [apply length_replicate|].
  apply Forall_replicate, length_replicate.
Qed.

Lemma entry_zeros r c i j : i < r -> j < c -> entry (zeros r c) i j = Some s_zero.
Proof.
  intros Hi Hj. unfold entry, zeros.
  rewrite lookup_replicate_2 by done. simpl. by rewrite lookup_replicate_2.
Qed.

Lemma entry_is_Some r c m i j : hasShape r c m -> i < r -> j < c -> is_Some (entry m i j).
Proof.
  intros [Hlen Hall] Hi Hj. unfold entry.
  destruct (lookup_lt_is_Some_2 m i) as [row Hrow]; [lia|].
  rewrite Hrow. simpl. apply lookup_lt_is_Some_2.
  eapply Forall_lookup_1 in Hall; [|done]. simpl in Hall. lia.
Qed.

Lemma entry_None_row r c m i j : hasShape r c m -> r <= i -> entry m i j = None.
Proof.
  intros [Hlen _] Hi. unfold entry. rewrite lookup_ge_None_2; [done|lia].
Qed.

Lemma entry_None_column r c m i j : hasShape r c m -> c <= j -> entry m i j = None.
Proof.
  intros [_ Hall] Hj. unfold entry. destruct (m !! i) as [row|] eqn:Hrow; [|done].
  simpl. apply lookup_ge_None_2.
  eapply Forall_lookup_1 in Hall; [|done]. simpl in Hall. lia.
Qed.

(** Two arrays of one shape with the same entries are equal. *)
Lemma matrix_ext r c (m1 m2 : Matrix T) :
  hasShape r c m1 -> hasShape r c m2 ->
  (forall i j, i < r -> j < c -> entry m1 i j = entry m2 i j) ->
  m1 = m2.
Proof.
  intros [Hl1 Ha1] [Hl2 Ha2] Hent. apply list_eq_same_length with r; [done..|].
  intros i row1 row2 Hi H1 H2.
  pose proof (Forall_lookup_1 _ _ _ _ Ha1 H1) as Hr1.
  pose proof (Forall_lookup_1 _ _ _ _ Ha2 H2) as Hr2. simpl in *.
  apply list_eq_same_length with c; [done..|].
  intros j x y Hj Hx Hy.
  specialize (Hent i j Hi Hj). unfold entry in Hent.
  rewrite H1, H2 in Hent. simpl in Hent. congruence.
Qed.

Lemma hasShape_app r1 r2 c (a b : Matrix T) :
  hasShape r1 c a -> hasShape r2 c b -> hasShape (r1 + r2) c (a ++ b).
Proof.
  intros [Hla Ha] [Hlb Hb]. split; [rewrite length_app; lia|].
  by apply Forall_app.
Qed.

Lemma entry_app_l (a b : Matrix T) i j : i < length a -> entry (a ++ b) i j = entry a i j.
Proof. intros Hi. unfold entry. by rewrite lookup_app_l. Qed.

Lemma entry_app_r (a b : Matrix T) i j : entry (a ++ b) (length a + i) j = entry b i j.
Proof.
  unfold entry. rewrite lookup_app_r by lia.
  by replace (length a + i - length a) with i by lia.
Qed.

(** Every entry is the zero of the scalar type. *)
Definition allZero (m : Matrix T) : Prop := Forall (Forall (fun x => x = s_zero)) m.

#[export] Instance allZero_dec `{EqDecision T} (m : Matrix T) : Decision (allZero m).
Proof. unfold allZero. apply _. Defined.

Lemma allZero_entry m i j x : allZero m -> entry m i j = Some x -> x = s_zero.
Proof.
  unfold entry. intros Hz Hx. destruct (m !! i) as [row|] eqn:Hrow; [|done].
  simpl in Hx. eapply Forall_lookup_1 in Hz; [|done].
  by eapply Forall_lookup_1 in Hz.
Qed.

Lemma allZero_zeros r c : allZero (zeros r c).
Proof. apply Forall_replicate, Forall_replicate. done. Qed.

End Matrix.


(** ** Spaces

    A space is an external collaborator.  What the code below reads from it:
    the grid it lives on ([&space->grid()], an address), whether its degrees
    of freedom are assigned, and how many global DOFs it has. *)

Record Space := {
  grid : nat;
  basisTag : nat;
  dofsAssigned : bool;
  globalDofCount : nat
}.

#[export] Instance Space_eq_dec : EqDecision Space.
Proof. solve_decision. Defined.

(** C++ exceptions (and a failed [BOOST_ASSERT_MSG]) with their messages. *)
Inductive Exception :=
| invalid_argument (what : string)
| runtime_error (what : string)
| assertion_failed (what : string).

(** A method on a mutable object: it returns a value or throws, and in both
    cases leaves the object in some state. *)
Definition Method (S A : Type) : Type := S -> (Exception + A) * S.

Definition ret {S A} (a : A) : Method S A := fun s => (inr a, s).
Definition throw {S A} (e : Exception) : Method S A := fun s => (inl e, s).
Definition bind {S A B} (m : Method S A) (k : A -> Method S B) : Method S B :=
  fun s => match m s with
           | (inr a, s') => k a s'
           | (inl e, s') => (inl e, s')
           end.
Definition get {S} : Method S S := fun s => (inr s, s).

Notation "'let*' x := m 'in' k" := (bind m (fun x => k))
  (at level 10, x name, m at level 100, k at level 200).

(** * grid_function.cpp *)

Module GridFn.

Section GridFunction.

Context {ResultType : Type} `{Scalar ResultType}.

(** [option ContextObj] stands for [shared_ptr<const Context<...>>]; the
    pointee is never inspected by the methods below. *)
Definition ContextObj : Type := nat.

(** The identity operator's weak form (mass matrix) and that of its
    pseudoinverse are assembled elsewhere and are taken to assemble without
    throwing; these give entry [i] of their product with a vector.  [apply]
    writes into a vector that the caller has allocated with
    [new arma::Col<ResultType>(n)], so the caller fixes the length of the
    result: see [applyInto]. *)
Variable idWeakFormEntry :
  option ContextObj -> Space -> option Space -> list ResultType -> nat -> ResultType.
Variable pinvIdWeakFormEntry :
  option ContextObj -> Space -> option Space -> list ResultType -> nat -> ResultType.

(** [op.weakForm()->apply(NO_TRANSPOSE, x, y, 1, 0)] on a fresh [y] of [n] rows. *)
Definition applyInto (entry : nat -> ResultType) (n : nat) : list ResultType :=
  map entry (seq 0 n).

Record GridFunction := {
  m_context : option ContextObj;
  m_space : option Space;
  m_dualSpace : option Space;
  m_coefficients : option (list ResultType);   (* mutable *)
  m_projections : option (list ResultType)     (* mutable *)
}.

Definition set_m_coefficients (c : option (list ResultType)) (g : GridFunction) :=
  {| m_context := m_context g; m_space := m_space g; m_dualSpace := m_dualSpace g;
     m_coefficients := c; m_projections := m_projections g |}.

Definition set_m_projections (p : option (list ResultType)) (g : GridFunction) :=
  {| m_context := m_context g; m_space := m_space g; m_dualSpace := m_dualSpace g;
     m_coefficients := m_coefficients g; m_projections := p |}.

(** [GridFunction::GridFunction()] *)
Definition GridFunction_default : GridFunction :=
  {| m_context := None; m_space := None; m_dualSpace := None;
     m_coefficients := None; m_projections := None |}.

(** The checks shared by the constructors, in the order of the source. *)
Definition checkConstructorArguments
    (context : option ContextObj) (space dualSpace : option Space)
    : Exception + (Space * Space) :=
  match context with
  | None => inl (invalid_argument "GridFunction::GridFunction(): context must not be null")
  | Some _ =>
    match space with
    | None => inl (invalid_argument "GridFunction::GridFunction(): space must not be null")
    | Some sp =>
      match dualSpace with
      | None => inl (invalid_argument "GridFunction::GridFunction(): dualSpace must not be null")
      | Some dsp =>
        if negb (grid sp =? grid dsp) then
          inl (invalid_argument
            "GridFunction::GridFunction(): space and dualSpace must be defined on the same grid")
        else if negb (dofsAssigned sp) || negb (dofsAssigned dsp) then
          inl (runtime_error
            "GridFunction::GridFunction(): degrees of freedom of the provided spaces must be assigned beforehand")
        else inr (sp, dsp)
      end
    end
  end.

(** [GridFunction(context, space, dualSpace, coefficients, projections)] *)
Definition GridFunction_coefficients_projections
    (context : option ContextObj) (space dualSpace : option Space)
    (coefficients projections : list ResultType) : Exception + GridFunction :=
  match checkConstructorArguments context space dualSpace with
  | inl e => inl e
  | inr (sp, dsp) =>
    if negb (length coefficients =? globalDofCount sp) then
      inl (invalid_argument
        "GridFunction::GridFunction(): the coefficients vector has incorrect length")
    else if negb (length projections =? globalDofCount dsp) then
      inl (invalid_argument
        "GridFunction::GridFunction(): the projections vector has incorrect length")
    else inr {| m_context := context; m_space := space; m_dualSpace := dualSpace;
                m_coefficients := Some coefficients;
                m_projections := Some projections |}
  end.

Inductive DataType := COEFFICIENTS | PROJECTIONS.

(** [GridFunction(context, space, dualSpace, data, dataType)] *)
Definition GridFunction_data
    (context : option ContextObj) (space dualSpace : option Space)
    (data : list ResultType) (dataType : DataType) : Exception + GridFunction :=
  match checkConstructorArguments context space dualSpace with
  | inl e => inl e
  | inr (sp, dsp) =>
    match dataType with
    | COEFFICIENTS =>
      if negb (length data =? globalDofCount sp) then
        inl (invalid_argument
          "GridFunction::GridFunction(): the coefficients vector has incorrect length")
      else inr {| m_context := context; m_space := space; m_dualSpace := dualSpace;
                  m_coefficients := Some data; m_projections := None |}
    | PROJECTIONS =>
      if negb (length data =? globalDofCount dsp) then
        inl (invalid_argument
          "GridFunction::GridFunction(): the projections vector has incorrect length")
      else inr {| m_context := context; m_space := space; m_dualSpace := dualSpace;
                  m_coefficients := None; m_projections := Some data |}
    end
  end.

Definition isInitialized (g : GridFunction) : bool := bool_decide (is_Some (m_space g)).

(** [GridFunction::coefficients() const]: computed from the projections on
    first use and stored in the mutable member. *)
Definition coefficients : Method GridFunction (list ResultType) := fun g =>
  match m_space g with
  | None => (inl (assertion_failed
      "GridFunction::coefficients() must not be called on an uninitialised GridFunction object"), g)
  | Some sp =>
    match m_coefficients g with
    | Some c => (inr c, g)
    | None =>
      match m_projections g with
      | None => (inl (assertion_failed "m_projections"), g)
      | Some p =>
        let newCoefficients :=
          applyInto (pinvIdWeakFormEntry (m_context g) sp (m_dualSpace g) p)
                    (globalDofCount sp) in
        (inr newCoefficients, set_m_coefficients (Some newCoefficients) g)
      end
    end
  end.

(** [GridFunction::setCoefficients] *)
Definition setCoefficients (coeffs : list ResultType) : Method GridFunction unit := fun g =>
  match m_space g with
  | None => (inl (assertion_failed
      "GridFunction::setCoefficients() must not be called on an uninitialised GridFunction object"), g)
  | Some sp =>
    if negb (length coeffs =? globalDofCount sp) then
      (inl (invalid_argument
        "GridFunction::setCoefficients(): dimension of the provided vector does not match the number of global DOFs in the primal space"), g)
    else
      (inr tt, set_m_projections None (set_m_coefficients (Some coeffs) g))
  end.

(** [GridFunction::projections() const].  The source dereferences
    [m_coefficients] without a check when the projections are absent; a null
    dereference is recorded as a failed assertion. *)
Definition projections : Method GridFunction (list ResultType) := fun g =>
  match m_space g with
  | None => (inl (assertion_failed
      "GridFunction::projections() must not be called on an uninitialised GridFunction object"), g)
  | Some sp =>
    match m_projections g with
    | Some p => (inr p, g)
    | None =>
      match m_coefficients g, m_dualSpace g with
      | Some c, Some dsp =>
        let newProjections :=
          applyInto (idWeakFormEntry (m_context g) sp (m_dualSpace g) c)
                    (globalDofCount dsp) in
        (inr newProjections, set_m_projections (Some newProjections) g)
      | _, _ => (inl (assertion_failed "null pointer dereferenced"), g)
      end
    end
  end.

(** [GridFunction::setProjections] *)
Definition setProjections (projects : list ResultType) : Method GridFunction unit := fun g =>
  match m_dualSpace g with
  | None => (inl (assertion_failed
      "GridFunction::setProjections() must not be called on an uninitialised GridFunction object"), g)
  | Some dsp =>
    if negb (length projects =? globalDofCount dsp) then
      (inl (invalid_argument
        "GridFunction::setProjections(): dimension of the provided vector does not match the number of global DOFs in the dual space"), g)
    else
      (inr tt, set_m_coefficients None (set_m_projections (Some projects) g))
  end.

(** *** Free operators with a scalar *)

Context {ScalarType : Type} `{Scalar ScalarType}.
Variable static_cast : ScalarType -> ResultType.

Definition scaleVector (a : ResultType) (v : list ResultType) : list ResultType :=
  map (s_mul a) v.

(** [operator*(g1, scalar)].  The first argument is a const reference, its
    caches may be filled by the two accessor calls.  C++ leaves the order of
    the two calls open; [operator_mul_order] shows it does not matter. *)
Definition operator_mul (scalar : ScalarType) : Method GridFunction GridFunction :=
  let* c := coefficients in
  let* p := projections in
  let* g1 := get in
  match GridFunction_coefficients_projections
          (m_context g1) (m_space g1) (m_dualSpace g1)
          (scaleVector (static_cast scalar) c)
          (scaleVector (static_cast scalar) p) with
  | inl e => throw e
  | inr g => ret g
  end.

Definition operator_mul_projections_first (scalar : ScalarType)
    : Method GridFunction GridFunction :=
  let* p := projections in
  let* c := coefficients in
  let* g1 := get in
  match GridFunction_coefficients_projections
          (m_context g1) (m_space g1) (m_dualSpace g1)
          (scaleVector (static_cast scalar) c)
          (scaleVector (static_cast scalar) p) with
  | inl e => throw e
  | inr g => ret g
  end.

(** [operator*(scalar, g2)] returns [g2 * scalar]. *)
Definition operator_mul_left (scalar : ScalarType) : Method GridFunction GridFunction :=
  operator_mul scalar.

Definition divideByZero : Exception :=
  runtime_error "GridFunction::operator/(): Divide by zero".

(** [operator/(g1, scalar)] *)
Definition operator_div (scalar : ScalarType) : Method GridFunction GridFunction :=
  if s_eqb scalar s_zero then throw divideByZero
  else operator_mul_left (s_div s_one scalar).

(** The invariant the constructors from vectors and the setters establish:
    all three pointers set, one grid, DOFs assigned, and every cached vector
    of the length of its space, at least one of them present. *)
Definition wellFormed (g : GridFunction) : Prop :=
  is_Some (m_context g) /\
  exists sp dsp,
    m_space g = Some sp /\ m_dualSpace g = Some dsp /\
    grid sp = grid dsp /\ dofsAssigned sp = true /\ dofsAssigned dsp = true /\
    (forall c, m_coefficients g = Some c -> length c = globalDofCount sp) /\
    (forall p, m_projections g = Some p -> length p = globalDofCount dsp) /\
    (is_Some (m_coefficients g) \/ is_Some (m_projections g)).

(** *** Properties of the setters *)

Lemma length_applyInto entry n : length (applyInto entry n) = n.
Proof. unfold applyInto. by rewrite length_map, length_seq. Qed.

Lemma setCoefficients_succeeds_iff g coeffs :
  (exists g', setCoefficients coeffs g = (inr tt, g')) <->
  (exists sp, m_space g = Some sp /\ length coeffs = globalDofCount sp).
Proof.
  unfold setCoefficients. split.
  - intros [g' Hg']. destruct (m_space g) as [sp|]; [|congruence].
    exists sp. split; [done|].
    destruct (length coeffs =? globalDofCount sp) eqn:E; simpl in Hg'; [|congruence].
    by apply Nat.eqb_eq.
  - intros (sp & -> & Hlen). apply Nat.eqb_eq in Hlen. rewrite Hlen. simpl. eauto.
Qed.

(** C7.  With a vector of the right length, [setCoefficients] stores it as
    the coefficients and resets the projections; [setProjections] stores it as
    the projections and resets the coefficients.  The resulting object is given
    in full: context, space and dual space are those of the object before.
    Whatever the outcome, neither setter changes these three. *)
Theorem setters_replace_and_invalidate (g : GridFunction) (v : list ResultType) :
  (forall sp, m_space g = Some sp -> length v = globalDofCount sp ->
     setCoefficients v g =
       (inr tt, {| m_context := m_context g; m_space := m_space g;
                   m_dualSpace := m_dualSpace g;
                   m_coefficients := Some v; m_projections := None |})) /\
  (forall dsp, m_dualSpace g = Some dsp -> length v = globalDofCount dsp ->
     setProjections v g =
       (inr tt, {| m_context := m_context g; m_space := m_space g;
                   m_dualSpace := m_dualSpace g;
                   m_coefficients := None; m_projections := Some v |})) /\
  (forall r g', setCoefficients v g = (r, g') \/ setProjections v g = (r, g') ->
     m_context g' = m_context g /\ m_space g' = m_space g /\
     m_dualSpace g' = m_dualSpace g).
Proof.
  split_and!.
  - intros sp Hsp Hlen. apply Nat.eqb_eq in Hlen.
    unfold setCoefficients, set_m_projections, set_m_coefficients. simpl.
    rewrite Hsp, Hlen. reflexivity.
  - intros dsp Hdsp Hlen. apply Nat.eqb_eq in Hlen.
    unfold setProjections, set_m_projections, set_m_coefficients. simpl.
    rewrite Hdsp, Hlen. reflexivity.
  - unfold setCoefficients, setProjections. intros r g' [Hs|Hs];
      repeat case_match; by simplify_eq.
Qed.

(** C10.  With a vector of the wrong length, each setter throws
    [std::invalid_argument] and the object it leaves behind is the object it
    was called on, cached coefficients and projections included. *)
Theorem setters_atomic_on_length_error (g : GridFunction) (v : list ResultType) :
  (forall sp, m_space g = Some sp -> length v <> globalDofCount sp ->
     exists what, setCoefficients v g = (inl (invalid_argument what), g)) /\
  (forall dsp, m_dualSpace g = Some dsp -> length v <> globalDofCount dsp ->
     exists what, setProjections v g = (inl (invalid_argument what), g)).
Proof.
  split.
  - intros sp Hsp Hlen. unfold setCoefficients. rewrite Hsp.
    apply Nat.eqb_neq in Hlen. rewrite Hlen. simpl. eauto.
  - intros dsp Hdsp Hlen. unfold setProjections. rewrite Hdsp.
    apply Nat.eqb_neq in Hlen. rewrite Hlen. simpl. eauto.
Qed.

(** *** The invariant is the one of the public interface *)

Lemma checkConstructorArguments_inr context space dualSpace sp dsp :
  checkConstructorArguments context space dualSpace = inr (sp, dsp) ->
  is_Some context /\ space = Some sp /\ dualSpace = Some dsp /\
  grid sp = grid dsp /\ dofsAssigned sp = true /\ dofsAssigned dsp = true.
Proof.
  unfold checkConstructorArguments. intros Hc.
  destruct context; [|done]. destruct space as [sp'|]; [|done].
  destruct dualSpace as [dsp'|]; [|done].
  destruct (grid sp' =? grid dsp') eqn:Hg; [|done]. simpl in Hc.
  destruct (dofsAssigned sp') eqn:Ha, (dofsAssigned dsp') eqn:Hda; simpl in Hc; try done.
  simplify_eq. apply Nat.eqb_eq in Hg. split_and!; done.
Qed.

Lemma GridFunction_data_wellFormed context space dualSpace data dataType g :
  GridFunction_data context space dualSpace data dataType = inr g -> wellFormed g.
Proof.
  unfold GridFunction_data. intros Hg.
  destruct (checkConstructorArguments _ _ _) as [e|[sp dsp]] eqn:Hc; [done|].
  apply checkConstructorArguments_inr in Hc as (Hctx & -> & -> & Hgrid & Ha & Hda).
  destruct dataType.
  - destruct (length data =? globalDofCount sp) eqn:Hlen; [|done].
    simpl in Hg. simplify_eq. apply Nat.eqb_eq in Hlen.
    split; [done|]. exists sp, dsp. simpl. split_and!; try done.
    + by intros ? [= <-].
    + left. by eexists.
  - destruct (length data =? globalDofCount dsp) eqn:Hlen; [|done].
    simpl in Hg. simplify_eq. apply Nat.eqb_eq in Hlen.
    split; [done|]. exists sp, dsp. simpl. split_and!; try done.
    + by intros ? [= <-].
    + right. by eexists.
Qed.

Lemma GridFunction_coefficients_projections_wellFormed
    context space dualSpace coefficients projections g :
  GridFunction_coefficients_projections context space dualSpace
    coefficients projections = inr g ->
  wellFormed g.
Proof.
  unfold GridFunction_coefficients_projections. intros Hg.
  destruct (checkConstructorArguments _ _ _) as [e|[sp dsp]] eqn:Hc; [done|].
  apply checkConstructorArguments_inr in Hc as (Hctx & -> & -> & Hgrid & Ha & Hda).
  destruct (length coefficients =? globalDofCount sp) eqn:Hlc; [|done].
  destruct (length projections =? globalDofCount dsp) eqn:Hlp; [|done].
  simpl in Hg. simplify_eq. apply Nat.eqb_eq in Hlc, Hlp.
  split; [done|]. exists sp, dsp. simpl. split_and!; try done.
  - by intros ? [= <-].
  - by intros ? [= <-].
  - left. by eexists.
Qed.

Lemma setCoefficients_wellFormed coeffs g g' :
  wellFormed g -> setCoefficients coeffs g = (inr tt, g') -> wellFormed g'.
Proof.
  intros (Hctx & sp & dsp & Hsp & Hdsp & Hgrid & Ha & Hda & _) Hset.
  unfold setCoefficients in Hset. rewrite Hsp in Hset.
  destruct (length coeffs =? globalDofCount sp) eqn:Hlen; [|done].
  simpl in Hset. simplify_eq. apply Nat.eqb_eq in Hlen.
  split; [done|]. exists sp, dsp. simpl. split_and!; try done.
  - by intros ? [= <-].
  - left. by eexists.
Qed.

Lemma setProjections_wellFormed projects g g' :
  wellFormed g -> setProjections projects g = (inr tt, g') -> wellFormed g'.
Proof.
  intros (Hctx & sp & dsp & Hsp & Hdsp & Hgrid & Ha & Hda & _) Hset.
  unfold setProjections in Hset. rewrite Hdsp in Hset.
  destruct (length projects =? globalDofCount dsp) eqn:Hlen; [|done].
  simpl in Hset. simplify_eq. apply Nat.eqb_eq in Hlen.
  split; [done|]. exists sp, dsp. simpl. split_and!; try done.
  - by intros ? [= <-].
  - right. by eexists.
Qed.

(** *** Properties of the scalar operators *)

Lemma scaleVector_length a v : length (scaleVector a v) = length v.
Proof. apply length_map. Qed.

(** The accessors never change the three pointers. *)
Lemma coefficients_frame g r g' :
  coefficients g = (r, g') ->
  m_context g' = m_context g /\ m_space g' = m_space g /\ m_dualSpace g' = m_dualSpace g.
Proof.
  unfold coefficients. intros Hc.
  repeat case_match; by simplify_eq.
Qed.

Lemma projections_frame g r g' :
  projections g = (r, g') ->
  m_context g' = m_context g /\ m_space g' = m_space g /\ m_dualSpace g' = m_dualSpace g.
Proof.
  unfold projections. intros Hp.
  repeat case_match; by simplify_eq.
Qed.

(** On a well-formed object both accessors return vectors of the length of
    their space and leave a well-formed object. *)
Lemma coefficients_wellFormed g :
  wellFormed g ->
  exists c g' sp, coefficients g = (inr c, g') /\ wellFormed g' /\
    m_space g = Some sp /\ length c = globalDofCount sp /\
    m_projections g' = m_projections g.
Proof.
  intros (Hctx & sp & dsp & Hsp & Hdsp & Hgrid & Ha & Hda & Hc & Hp & Hsome).
  unfold coefficients. rewrite Hsp.
  destruct (m_coefficients g) as [c|] eqn:Ec.
  - exists c, g, sp. repeat split; auto.
    exists sp, dsp. rewrite Ec. repeat split; auto.
  - destruct Hsome as [[? ?]|[p Ep]]; [congruence|]. rewrite Ep.
    eexists _, _, sp. repeat split; simpl; auto using length_applyInto.
    exists sp, dsp. simpl. repeat split; auto.
    intros c [= <-]. apply length_applyInto.
Qed.

Lemma projections_wellFormed g :
  wellFormed g ->
  exists p g' dsp, projections g = (inr p, g') /\ wellFormed g' /\
    m_dualSpace g = Some dsp /\ length p = globalDofCount dsp /\
    m_coefficients g' = m_coefficients g.
Proof.
  intros (Hctx & sp & dsp & Hsp & Hdsp & Hgrid & Ha & Hda & Hc & Hp & Hsome).
  unfold projections. rewrite Hsp.
  destruct (m_projections g) as [p|] eqn:Ep.
  - exists p, g, dsp. repeat split; auto.
    exists sp, dsp. rewrite Ep. repeat split; auto.
  - destruct Hsome as [[c Ec]|[? ?]]; [|congruence]. rewrite Ec, Hdsp.
    eexists _, _, dsp. repeat split; simpl; auto using length_applyInto.
    exists sp, dsp. simpl. repeat split; auto.
    intros p [= <-]. apply length_applyInto.
Qed.

(** The constructor accepts what a well-formed object provides. *)
Lemma GridFunction_coefficients_projections_ok ctx sp dsp c p :
  is_Some ctx -> grid sp = grid dsp ->
  dofsAssigned sp = true -> dofsAssigned dsp = true ->
  length c = globalDofCount sp -> length p = globalDofCount dsp ->
  GridFunction_coefficients_projections ctx (Some sp) (Some dsp) c p =
    inr {| m_context := ctx; m_space := Some sp; m_dualSpace := Some dsp;
           m_coefficients := Some c; m_projections := Some p |}.
Proof.
  intros [x ->] Hg Ha Hda Hc Hp.
  unfold GridFunction_coefficients_projections, checkConstructorArguments.
  apply Nat.eqb_eq in Hg, Hc, Hp.
  rewrite Hg, Ha, Hda. simpl. by rewrite Hc, Hp.
Qed.

(** Scaling a well-formed grid function returns a well-formed one. *)
Lemma operator_mul_wellFormed scalar g :
  wellFormed g -> exists r g', operator_mul scalar g = (inr r, g') /\ wellFormed r.
Proof.
  intros Hwf.
  destruct (coefficients_wellFormed g Hwf)
    as (c & g1 & sp & Hc & Hwf1 & Hsp & Hlc & _).
  destruct (projections_wellFormed g1 Hwf1)
    as (p & g2 & dsp & Hp & Hwf2 & Hdsp & Hlp & _).
  destruct (coefficients_frame _ _ _ Hc) as (Hx1 & Hs1 & Hd1).
  destruct (projections_frame _ _ _ Hp) as (Hx2 & Hs2 & Hd2).
  destruct Hwf as (Hctx & sp' & dsp' & Hsp' & Hdsp' & Hgrid & Ha & Hda & _).
  assert (sp' = sp) as -> by congruence.
  assert (dsp' = dsp) as -> by congruence.
  unfold operator_mul, bind, get. rewrite Hc, Hp.
  rewrite Hx2, Hx1, Hs2, Hs1, Hd2, Hd1, Hsp, Hdsp'.
  rewrite GridFunction_coefficients_projections_ok;
    rewrite ?scaleVector_length; auto.
  eexists _, _. split; [reflexivity|].
  split; [done|]. exists sp, dsp. simpl.
  repeat split; auto; intros ? [= <-]; by rewrite scaleVector_length.
Qed.

(** X8.  The order in which C++ evaluates the two accessor calls that are
    arguments of the constructor is immaterial on a well-formed object. *)
Lemma operator_mul_order scalar g :
  wellFormed g -> operator_mul_projections_first scalar g = operator_mul scalar g.
Proof.
  intros (Hctx & sp & dsp & Hsp & Hdsp & _ & _ & _ & _ & _ & Hsome).
  destruct g as [ctx osp odsp oc op]. simpl in *. subst osp odsp.
  unfold operator_mul_projections_first, operator_mul, bind, get,
    coefficients, projections, set_m_coefficients, set_m_projections.
  destruct oc as [c|], op as [p|]; simpl; try reflexivity.
  destruct Hsome as [[? ?]|[? ?]]; congruence.
Qed.

Lemma operator_mul_not_divideByZero scalar g :
  (operator_mul scalar g).1 <> inl divideByZero.
Proof.
  unfold operator_mul, bind, get, throw, ret.
  destruct (coefficients g) as [[e|c] g1] eqn:Hc.
  - simpl. unfold coefficients in Hc.
    repeat case_match; simplify_eq; discriminate.
  - destruct (projections g1) as [[e|p] g2] eqn:Hp.
    + simpl. unfold projections in Hp.
      repeat case_match; simplify_eq; discriminate.
    + unfold GridFunction_coefficients_projections, checkConstructorArguments.
      repeat case_match; simplify_eq; simpl; discriminate.
Qed.

(** C8.  [operator/] throws the divide-by-zero error exactly when the
    scalar compares equal to zero, at once and without touching its argument.
    For any other scalar it is [operator*] with [1 / scalar], and on a
    well-formed grid function [g] it returns: the quotient has the context,
    space and dual space of [g], its coefficients are the coefficients of [g]
    and its projections the projections of [g] (as the accessors of [g]
    return them), every entry multiplied by [1 / scalar] cast to
    [ResultType]; the quotient is well-formed. *)
Theorem operator_div_divide_by_zero (g : GridFunction) (scalar : ScalarType) :
  ((operator_div scalar g).1 = inl divideByZero <-> s_eqb scalar s_zero = true) /\
  (s_eqb scalar s_zero = true -> operator_div scalar g = (inl divideByZero, g)) /\
  (s_eqb scalar s_zero = false ->
     operator_div scalar g = operator_mul_left (s_div s_one scalar) g) /\
  (s_eqb scalar s_zero = false -> wellFormed g ->
     exists c p g1 g2,
       coefficients g = (inr c, g1) /\ projections g1 = (inr p, g2) /\
       let quotient :=
         {| m_context := m_context g; m_space := m_space g;
            m_dualSpace := m_dualSpace g;
            m_coefficients :=
              Some (map (s_mul (static_cast (s_div s_one scalar))) c);
            m_projections :=
              Some (map (s_mul (static_cast (s_div s_one scalar))) p) |} in
       operator_div scalar g = (inr quotient, g2) /\ wellFormed quotient).
Proof.
  unfold operator_div, operator_mul_left.
  destruct (s_eqb scalar s_zero) eqn:E.
  - repeat split; try done.
  - split_and!; try done.
    + split; [|done]. intros Hd. by apply operator_mul_not_divideByZero in Hd.
    + intros _ Hwf.
      destruct (coefficients_wellFormed g Hwf)
        as (c & g1 & sp & Hc & Hwf1 & Hsp & Hlc & _).
      destruct (projections_wellFormed g1 Hwf1)
        as (p & g2 & dsp & Hp & Hwf2 & Hdsp & Hlp & _).
      destruct (coefficients_frame _ _ _ Hc) as (Hx1 & Hs1 & Hd1).
      destruct (projections_frame _ _ _ Hp) as (Hx2 & Hs2 & Hd2).
      pose proof Hwf as (Hctx & sp' & dsp' & Hsp' & Hdsp' & Hgrid & Ha & Hda & _).
      assert (sp' = sp) as -> by congruence.
      assert (dsp' = dsp) as -> by congruence.
      exists c, p, g1, g2. split; [done|]. split; [done|].
      assert (operator_mul (s_div s_one scalar) g =
        (inr {| m_context := m_context g; m_space := m_space g;
                m_dualSpace := m_dualSpace g;
                m_coefficients :=
                  Some (map (s_mul (static_cast (s_div s_one scalar))) c);
                m_projections :=
                  Some (map (s_mul (static_cast (s_div s_one scalar))) p) |}, g2))
        as Hmul.
      { unfold operator_mul, bind, get. rewrite Hc, Hp.
        rewrite Hx2, Hx1, Hs2, Hs1, Hd2, Hd1, Hsp, Hdsp'.
        rewrite GridFunction_coefficients_projections_ok;
          rewrite ?scaleVector_length; auto. }
      split; [exact Hmul|].
      destruct (operator_mul_wellFormed (s_div s_one scalar) g Hwf)
        as (r & g' & Hmul' & Hr).
      rewrite Hmul in Hmul'. by simplify_eq.
Qed.

(** *** Construction from one vector *)

(** X1.  The constructor from one vector succeeds exactly on three non-null
    pointers to spaces of one grid with assigned DOFs and a vector of the
    length of the space that [dataType] selects; the object then holds the
    vector in that slot and nothing in the other. *)
Theorem GridFunction_data_succeeds_iff context space dualSpace data dataType g :
  GridFunction_data context space dualSpace data dataType = inr g <->
  is_Some context /\
  exists sp dsp, space = Some sp /\ dualSpace = Some dsp /\
    grid sp = grid dsp /\ dofsAssigned sp = true /\ dofsAssigned dsp = true /\
    match dataType with
    | COEFFICIENTS =>
      length data = globalDofCount sp /\
      g = {| m_context := context; m_space := space; m_dualSpace := dualSpace;
             m_coefficients := Some data; m_projections := None |}
    | PROJECTIONS =>
      length data = globalDofCount dsp /\
      g = {| m_context := context; m_space := space; m_dualSpace := dualSpace;
             m_coefficients := None; m_projections := Some data |}
    end.
Proof.
  split.
  - intros Hg. unfold GridFunction_data in Hg.
    destruct (checkConstructorArguments _ _ _) as [e|[sp dsp]] eqn:Hc; [done|].
    apply checkConstructorArguments_inr in Hc as (Hctx & -> & -> & Hgrid & Ha & Hda).
    split; [done|]. exists sp, dsp. split_and!; try done.
    destruct dataType.
    + destruct (length data =? globalDofCount sp) eqn:Hlen; [|done].
      simpl in Hg. apply Nat.eqb_eq in Hlen. by simplify_eq.
    + destruct (length data =? globalDofCount dsp) eqn:Hlen; [|done].
      simpl in Hg. apply Nat.eqb_eq in Hlen. by simplify_eq.
  - intros ([x ->] & sp & dsp & -> & -> & Hgrid & Ha & Hda & Hd).
    unfold GridFunction_data, checkConstructorArguments.
    apply Nat.eqb_eq in Hgrid. rewrite Hgrid, Ha, Hda. simpl.
    destruct dataType; destruct Hd as [Hlen ->]; apply Nat.eqb_eq in Hlen;
      by rewrite Hlen.
Qed.

(** X2.  Both constructors from vectors throw [std::runtime_error] exactly when
    all three pointers are set, the two spaces share their grid and one of
    them has no DOFs assigned; every other failure is an
    [std::invalid_argument]. *)
Theorem constructors_runtime_error_iff context space dualSpace :
  let unassigned := exists sp dsp,
    is_Some context /\ space = Some sp /\ dualSpace = Some dsp /\
    grid sp = grid dsp /\ (dofsAssigned sp = false \/ dofsAssigned dsp = false) in
  (forall data dataType,
     match GridFunction_data context space dualSpace data dataType with
     | inl (runtime_error _) => unassigned
     | inl (invalid_argument _) => ~ unassigned
     | inl (assertion_failed _) => False
     | inr _ => ~ unassigned
     end) /\
  (forall coeffs projs,
     match GridFunction_coefficients_projections context space dualSpace coeffs projs with
     | inl (runtime_error _) => unassigned
     | inl (invalid_argument _) => ~ unassigned
     | inl (assertion_failed _) => False
     | inr _ => ~ unassigned
     end).
Proof.
  intros unassigned.
  assert (match checkConstructorArguments context space dualSpace with
          | inl (runtime_error _) => unassigned
          | inl (invalid_argument _) => ~ unassigned
          | inl (assertion_failed _) => False
          | inr _ => ~ unassigned
          end) as Hcheck.
  { unfold checkConstructorArguments, unassigned.
    destruct context as [ctx|]; [|by intros (? & ? & [? ?] & _)].
    destruct space as [sp|]; [|by intros (? & ? & _ & ? & _)].
    destruct dualSpace as [dsp|]; [|by intros (? & ? & _ & _ & ? & _)].
    destruct (grid sp =? grid dsp) eqn:Hg; simpl.
    - apply Nat.eqb_eq in Hg.
      destruct (dofsAssigned sp) eqn:Ha, (dofsAssigned dsp) eqn:Hda; simpl.
      + intros (? & ? & _ & ? & ? & _ & [?|?]); simplify_eq; congruence.
      + exists sp, dsp. split_and!; eauto.
      + exists sp, dsp. split_and!; eauto.
      + exists sp, dsp. split_and!; eauto.
    - apply Nat.eqb_neq in Hg. intros (? & ? & _ & ? & ? & ? & _). by simplify_eq. }
  split.
  - intros data dataType. unfold GridFunction_data.
    destruct (checkConstructorArguments _ _ _) as [e|[sp dsp]]; [done|].
    destruct dataType; destruct (negb _); done.
  - intros coeffs projs. unfold GridFunction_coefficients_projections.
    destruct (checkConstructorArguments _ _ _) as [e|[sp dsp]]; [done|].
    do 2 (destruct (negb _); [done|]). done.
Qed.

(** *** The caches *)

Lemma coefficients_cached g c g' :
  coefficients g = (inr c, g') -> m_coefficients g' = Some c.
Proof.
  unfold coefficients. destruct g as [ctx [sp|] odsp [c'|] [p|]]; simpl; intros; by simplify_eq.
Qed.

Lemma projections_cached g p g' :
  projections g = (inr p, g') -> m_projections g' = Some p.
Proof.
  unfold projections.
  destruct g as [ctx [sp|] [dsp|] [c|] [p'|]]; simpl; intros; by simplify_eq.
Qed.

(** X3.  Each accessor memoises: once it has returned a vector, the vector is
    stored in the object, a further call returns the same vector and changes
    nothing, and the call has not touched the other cached vector. *)
Theorem accessors_memoize g v g' :
  (coefficients g = (inr v, g') ->
     m_coefficients g' = Some v /\ coefficients g' = (inr v, g') /\
     m_projections g' = m_projections g) /\
  (projections g = (inr v, g') ->
     m_projections g' = Some v /\ projections g' = (inr v, g') /\
     m_coefficients g' = m_coefficients g).
Proof.
  split; intros Hacc.
  - unfold coefficients in *.
    destruct g as [ctx [sp|] odsp [c|] [p|]]; simpl in *; by simplify_eq.
  - unfold projections in *.
    destruct g as [ctx [sp|] [dsp|] [c|] [p|]]; simpl in *; by simplify_eq.
Qed.

(** X4.  What a setter has stored is what the accessor of the same name returns,
    without changing the object again. *)
Theorem set_then_get g v g' :
  (setCoefficients v g = (inr tt, g') -> coefficients g' = (inr v, g')) /\
  (setProjections v g = (inr tt, g') -> is_Some (m_space g) ->
     projections g' = (inr v, g')).
Proof.
  split.
  - unfold setCoefficients, coefficients. intros Hset.
    destruct g as [ctx [sp|] odsp oc op]; simpl in *; [|done].
    destruct (length v =? globalDofCount sp); simpl in *; by simplify_eq.
  - unfold setProjections, projections. intros Hset [sp Hsp].
    destruct g as [ctx osp [dsp|] oc op]; simpl in *; [|done]. subst osp.
    destruct (length v =? globalDofCount dsp); simpl in *; by simplify_eq.
Qed.

(** X5.  After a setter, the accessor of the other vector does not return what
    was cached before: it returns the image of the new vector under the mass
    matrix (for the projections) or its pseudoinverse (for the coefficients),
    of the length of its own space, and stores it. *)
Theorem set_then_get_other g v g' sp dsp :
  m_space g = Some sp -> m_dualSpace g = Some dsp ->
  (setCoefficients v g = (inr tt, g') ->
     let p := applyInto (idWeakFormEntry (m_context g) sp (Some dsp) v)
                        (globalDofCount dsp) in
     projections g' = (inr p, set_m_projections (Some p) g') /\
     length p = globalDofCount dsp) /\
  (setProjections v g = (inr tt, g') ->
     let c := applyInto (pinvIdWeakFormEntry (m_context g) sp (Some dsp) v)
                        (globalDofCount sp) in
     coefficients g' = (inr c, set_m_coefficients (Some c) g') /\
     length c = globalDofCount sp).
Proof.
  intros Hsp Hdsp. destruct g as [ctx osp odsp oc op]. simpl in *. subst osp odsp.
  split; intros Hset; (split; [|apply length_applyInto]).
  - unfold setCoefficients in Hset. simpl in Hset.
    destruct (length v =? globalDofCount sp); simpl in *; by simplify_eq.
  - unfold setProjections in Hset. simpl in Hset.
    destruct (length v =? globalDofCount dsp); simpl in *; by simplify_eq.
Qed.

(** *** Uninitialised objects *)

(** X6.  On an object without a space (a default-constructed one) the accessors,
    [setCoefficients] and the scalar operators stop at the assertion and leave
    the object as it was; [setProjections] tests the dual space instead. *)
Theorem uninitialised_object_fails_assertion g :
  isInitialized g = false ->
  (exists w, coefficients g = (inl (assertion_failed w), g)) /\
  (exists w, projections g = (inl (assertion_failed w), g)) /\
  (forall v, exists w, setCoefficients v g = (inl (assertion_failed w), g)) /\
  (forall v, m_dualSpace g = None ->
     exists w, setProjections v g = (inl (assertion_failed w), g)) /\
  (forall scalar, exists w, operator_mul scalar g = (inl (assertion_failed w), g)) /\
  (forall scalar, s_eqb scalar s_zero = false ->
     exists w, operator_div scalar g = (inl (assertion_failed w), g)).
Proof.
  intros Hinit.
  assert (m_space g = None) as Hsp.
  { unfold isInitialized in Hinit. apply bool_decide_eq_false in Hinit.
    destruct (m_space g); [|done]. destruct Hinit. by eexists. }
  assert (forall scalar, exists w, operator_mul scalar g = (inl (assertion_failed w), g))
    as Hmul.
  { intros scalar. unfold operator_mul, bind, coefficients. rewrite Hsp. eauto. }
  split_and!.
  - unfold coefficients. rewrite Hsp. eauto.
  - unfold projections. rewrite Hsp. eauto.
  - intros v. unfold setCoefficients. rewrite Hsp. eauto.
  - intros v Hdsp. unfold setProjections. rewrite Hdsp. eauto.
  - done.
  - intros scalar Hnz. unfold operator_div, operator_mul_left. rewrite Hnz. apply Hmul.
Qed.

(** *** Scaling *)

(** X7.  [g * scalar] on a well-formed [g]: context, space and dual space are
    those of [g], and each vector is the one the accessor of [g] returns with
    every entry multiplied from the left by the scalar cast to [ResultType].
    The argument is left with both of its vectors cached. *)
Theorem operator_mul_scales_both_vectors g scalar c p g1 g2 :
  wellFormed g ->
  coefficients g = (inr c, g1) -> projections g1 = (inr p, g2) ->
  operator_mul scalar g =
    (inr {| m_context := m_context g; m_space := m_space g;
            m_dualSpace := m_dualSpace g;
            m_coefficients := Some (map (s_mul (static_cast scalar)) c);
            m_projections := Some (map (s_mul (static_cast scalar)) p) |}, g2) /\
  m_coefficients g2 = Some c /\ m_projections g2 = Some p.
Proof.
  intros Hwf Hc Hp.
  destruct (coefficients_wellFormed g Hwf)
    as (c' & g1' & sp & Hc' & Hwf1 & Hsp & Hlc & Hpp).
  rewrite Hc in Hc'. simplify_eq.
  destruct (projections_wellFormed g1' Hwf1)
    as (p' & g2' & dsp & Hp' & Hwf2 & Hdsp & Hlp & Hcc).
  rewrite Hp in Hp'. simplify_eq.
  destruct (coefficients_frame _ _ _ Hc) as (Hx1 & Hs1 & Hd1).
  destruct (projections_frame _ _ _ Hp) as (Hx2 & Hs2 & Hd2).
  destruct Hwf as (Hctx & sp' & dsp' & Hsp' & Hdsp' & Hgrid & Ha & Hda & _).
  assert (sp' = sp) as -> by congruence.
  assert (dsp' = dsp) as -> by congruence.
  split_and!.
  - unfold operator_mul, bind, get. rewrite Hc, Hp.
    rewrite Hx2, Hx1, Hs2, Hs1, Hd2, Hd1, Hsp, Hdsp'.
    rewrite GridFunction_coefficients_projections_ok;
      rewrite ?scaleVector_length; auto.
  - rewrite Hcc. by eapply coefficients_cached.
  - by eapply projections_cached.
Qed.

(** *** The invariant *)

(** X9.  What the constructors from vectors return is well-formed, and on a
    well-formed object every member keeps it so: both accessors succeed,
    the setters (whether they succeed or throw) and the accessors leave a
    well-formed object, and a scalar multiple is well-formed. *)
Theorem wellFormed_is_invariant :
  (forall context space dualSpace data dataType g,
     GridFunction_data context space dualSpace data dataType = inr g -> wellFormed g) /\
  (forall context space dualSpace coeffs projs g,
     GridFunction_coefficients_projections context space dualSpace coeffs projs = inr g ->
     wellFormed g) /\
  (forall g, wellFormed g ->
     (exists c g', coefficients g = (inr c, g') /\ wellFormed g') /\
     (exists p g', projections g = (inr p, g') /\ wellFormed g') /\
     (forall v r g', setCoefficients v g = (r, g') -> wellFormed g') /\
     (forall v r g', setProjections v g = (r, g') -> wellFormed g') /\
     (forall scalar, exists r g',
        operator_mul scalar g = (inr r, g') /\ wellFormed r /\ wellFormed g')).
Proof.
  split_and!.
  - intros *. apply GridFunction_data_wellFormed.
  - intros *. apply GridFunction_coefficients_projections_wellFormed.
  - intros g Hwf. split_and!.
    + destruct (coefficients_wellFormed g Hwf) as (c & g' & ? & ? & ? & _). eauto.
    + destruct (projections_wellFormed g Hwf) as (p & g' & ? & ? & ? & _). eauto.
    + intros v [e|[]] g' Hset.
      * unfold setCoefficients in Hset. repeat case_match; by simplify_eq.
      * by eapply setCoefficients_wellFormed.
    + intros v [e|[]] g' Hset.
      * unfold setProjections in Hset. repeat case_match; by simplify_eq.
      * by eapply setProjections_wellFormed.
    + intros scalar.
      destruct (coefficients_wellFormed g Hwf) as (c & g1 & ? & Hc & Hwf1 & _).
      destruct (projections_wellFormed g1 Hwf1) as (p & g2 & ? & Hp & Hwf2 & _).
      destruct (operator_mul_wellFormed scalar g Hwf) as (r & g' & Hmul & Hr).
      exists r, g'. split_and!; try done.
      unfold operator_mul, bind, get, throw, ret in Hmul. rewrite Hc, Hp in Hmul.
      case_match; by simplify_eq.
Qed.

(** *** Projections of a function: [calculateProjections]

    The grid view, the element mapper and the local assembler are external.
    Elements are named by their index in the element mapper of the leaf view;
    [elementCount sp] is [view->entityCount(0)] on the grid of [sp],
    [globalDofs sp e] is what [sp.globalDofs(element, dofs)] stores for
    element [e] ([GlobalDofIndex] is [int]), and an assembler is its
    [evaluateLocalWeakForms], from the element indices to one column per
    element. *)
Variable elementCount : Space -> nat.
Variable globalDofs : Space -> nat -> list Z.

Definition LocalAssembler : Type := list nat -> list (list ResultType).

(** Armadillo's bounds and size checks (active unless [ARMA_NO_DEBUG]) and an
    out-of-range [std::vector] access are recorded as failed assertions. *)
Definition outOfBounds : Exception := assertion_failed "index out of bounds".

(** [result(index) += x] on the vector [result] points to. *)
Definition addAt (index : Z) (x : ResultType) (result : list ResultType)
    : Exception + list ResultType :=
  if decide (0 <= index < Z.of_nat (length result))%Z
  then inr (alter (fun y => s_add y x) (Z.to_nat index) result)
  else inl outOfBounds.

(** The inner loop over [testDof], from [testDof] on; [dofs] are the entries
    of [testGlobalDofs[testIndex]] still to visit and [local] is
    [localResult[testIndex]], if there is one. *)
Fixpoint scatterDofs (local : option (list ResultType)) (testDof : nat) (dofs : list Z)
    (result : list ResultType) : Exception + list ResultType :=
  match dofs with
  | [] => inr result
  | index :: dofs' =>
    match local ≫= (.!! testDof) with
    | None => inl outOfBounds
    | Some x =>
      match addAt index x result with
      | inl e => inl e
      | inr result' => scatterDofs local (S testDof) dofs' result'
      end
    end
  end.

(** The outer loop over [testIndex], from [testIndex] on. *)
Fixpoint scatterElements (localResult : list (list ResultType)) (testIndex : nat)
    (testGlobalDofs : list (list Z)) (result : list ResultType)
    : Exception + list ResultType :=
  match testGlobalDofs with
  | [] => inr result
  | dofs :: rest =>
    match scatterDofs (localResult !! testIndex) 0 dofs result with
    | inl e => inl e
    | inr result' => scatterElements localResult (S testIndex) rest result'
    end
  end.

(** [reallyCalculateProjections(dualSpace, assembler, options)] *)
Definition reallyCalculateProjections (dualSpace : Space) (assembler : LocalAssembler)
    : Exception + list ResultType :=
  let testGlobalDofs := map (globalDofs dualSpace) (seq 0 (elementCount dualSpace)) in
  let testIndices := seq 0 (elementCount dualSpace) in
  let result := replicate (globalDofCount dualSpace) s_zero in
  let localResult := assembler testIndices in
  scatterElements localResult 0 testGlobalDofs result.

(** [context.quadStrategy().makeAssemblerForGridFunctions(...)] on the data
    collected from the dual space; taken not to throw. *)
Context {FunctionObj : Type}.
Variable makeAssemblerForGridFunctions :
  ContextObj -> FunctionObj -> Space -> LocalAssembler.

(** [calculateProjections(context, globalFunction, dualSpace)] *)
Definition calculateProjections (context : ContextObj) (globalFunction : FunctionObj)
    (dualSpace : Space) : Exception + list ResultType :=
  if negb (dofsAssigned dualSpace) then
    inl (runtime_error
      "GridFunction::calculateProjections(): degrees of freedom of the provided dual space must be assigned before calling calculateProjections()")
  else
    reallyCalculateProjections dualSpace
      (makeAssemblerForGridFunctions context globalFunction dualSpace).

(** [boost::shared_ptr::operator*] on a null pointer. *)
Definition nullDereference : Exception := assertion_failed "px != 0".

(** [GridFunction(context, space, dualSpace, function)].  The member
    initialiser of [m_projections] calls [calculateProjections] on the
    dereferenced [context] and [dualSpace]; it runs before the body with its
    checks. *)
Definition GridFunction_function
    (context : option ContextObj) (space dualSpace : option Space)
    (function : FunctionObj) : Exception + GridFunction :=
  match context, dualSpace with
  | Some ctx, Some dsp =>
    match calculateProjections ctx function dsp with
    | inl e => inl e
    | inr projs =>
      match checkConstructorArguments context space dualSpace with
      | inl e => inl e
      | inr _ => inr {| m_context := context; m_space := space; m_dualSpace := dualSpace;
                        m_coefficients := None; m_projections := Some projs |}
      end
    end
  | _, _ => inl nullDereference
  end.

(** [for (i < gdofCount) coeffs[i] = globalCoefficients(gdofIndices[i])] *)
Fixpoint gather (gdofIndices : list Z) (globalCoefficients : list ResultType)
    : Exception + list ResultType :=
  match gdofIndices with
  | [] => inr []
  | index :: rest =>
    if decide (0 <= index < Z.of_nat (length globalCoefficients))%Z then
      match globalCoefficients !! Z.to_nat index with
      | Some x =>
        match gather rest globalCoefficients with
        | inl e => inl e
        | inr coeffs => inr (x :: coeffs)
        end
      | None => inl outOfBounds
      end
    else inl outOfBounds
  end.

(** [GridFunction::getLocalCoefficients(element, coeffs)]; the value is the
    content of [coeffs] on return. *)
Definition getLocalCoefficients (element : nat) : Method GridFunction (list ResultType) :=
  fun g =>
  match m_space g with
  | None => (inl (assertion_failed
      "GridFunction::getLocalCoefficients() must not be called on an uninitialised GridFunction object"), g)
  | Some sp =>
    let gdofIndices := globalDofs sp element in
    (let* globalCoefficients := coefficients in
     match gather gdofIndices globalCoefficients with
     | inl e => throw e
     | inr coeffs => ret coeffs
     end) g
  end.

(** *** What [reallyCalculateProjections] computes *)

(** The local integrals that the loops add to entry [d], in the order of the
    loops: those of the pairs (element, local DOF) whose global DOF is [d].
    Counting starts at [first]. *)
Definition dofContributions (local : option (list ResultType)) (first : nat)
    (dofs : list Z) (d : nat) : list ResultType :=
  mjoin (imap (fun testDof index =>
                 if decide (index = Z.of_nat d)
                 then option_list (local ≫= (.!! (first + testDof)))
                 else []) dofs).

Definition contributions (localResult : list (list ResultType)) (first : nat)
    (testGlobalDofs : list (list Z)) (d : nat) : list ResultType :=
  mjoin (imap (fun testIndex dofs =>
                 dofContributions (localResult !! (first + testIndex)) 0 dofs d)
              testGlobalDofs).

(** Every global DOF index lies in [0, n) and every local integral read exists. *)
Definition dofsInBounds (local : option (list ResultType)) (first : nat)
    (dofs : list Z) (n : nat) : Prop :=
  forall testDof index, dofs !! testDof = Some index ->
    (0 <= index < Z.of_nat n)%Z /\ is_Some (local ≫= (.!! (first + testDof))).

Definition accessesInBounds (localResult : list (list ResultType)) (first : nat)
    (testGlobalDofs : list (list Z)) (n : nat) : Prop :=
  forall testIndex dofs, testGlobalDofs !! testIndex = Some dofs ->
    dofsInBounds (localResult !! (first + testIndex)) 0 dofs n.

Lemma dofContributions_cons local first index dofs d :
  dofContributions local first (index :: dofs) d =
    (if decide (index = Z.of_nat d) then option_list (local ≫= (.!! first)) else [])
    ++ dofContributions local (S first) dofs d.
Proof.
  unfold dofContributions. rewrite imap_cons. simpl. rewrite Nat.add_0_r.
  f_equal. f_equal. apply imap_ext. intros j i _. simpl. by rewrite Nat.add_succ_r.
Qed.

Lemma contributions_cons localResult first dofs rest d :
  contributions localResult first (dofs :: rest) d =
    dofContributions (localResult !! first) 0 dofs d
    ++ contributions localResult (S first) rest d.
Proof.
  unfold contributions. rewrite imap_cons. simpl. rewrite Nat.add_0_r.
  f_equal. f_equal. apply imap_ext. intros j i _. simpl. by rewrite Nat.add_succ_r.
Qed.

Lemma scatterDofs_spec local first dofs result :
  match scatterDofs local first dofs result with
  | inr result' =>
    dofsInBounds local first dofs (length result) /\
    length result' = length result /\
    forall d, result' !! d =
      (fun y => fold_left s_add (dofContributions local first dofs d) y) <$> result !! d
  | inl e => e = outOfBounds /\ ~ dofsInBounds local first dofs (length result)
  end.
Proof.
  induction dofs as [|index dofs IH] in first, result |- *; simpl.
  - split_and!; [by intros ? ? ?|done|]. intros d. by destruct (result !! d).
  - destruct (local ≫= (.!! first)) as [x|] eqn:Hx.
    + unfold addAt. destruct (decide _) as [Hin|Hout].
      * specialize (IH (S first) (alter (fun y => s_add y x) (Z.to_nat index) result)).
        rewrite length_alter in IH.
        destruct (scatterDofs _ _ _ _) as [e|result'].
        -- destruct IH as [-> Hnot]. split; [done|]. intros Hb. apply Hnot.
           intros j i Hj. specialize (Hb (S j) i Hj). by rewrite Nat.add_succ_r in Hb.
        -- destruct IH as (Hb & Hlen & Hval). split_and!; [|done|].
           ++ intros [|j] i Hj; simpl in Hj.
              ** simplify_eq. rewrite Nat.add_0_r, Hx. split; [lia|by eexists].
              ** rewrite Nat.add_succ_r. by apply Hb.
           ++ intros d. rewrite Hval, dofContributions_cons, Hx. simpl.
              destruct (decide (index = Z.of_nat d)) as [->|Hne].
              ** rewrite Nat2Z.id, list_lookup_alter_eq.
                 destruct (result !! d); simpl; done.
              ** rewrite list_lookup_alter_ne by lia. done.
      * split; [done|]. intros Hb. destruct (Hb 0 index eq_refl). lia.
    + split; [done|]. intros Hb. destruct (Hb 0 index eq_refl) as [_ [? Hs]].
      rewrite Nat.add_0_r in Hs. congruence.
Qed.

Lemma scatterElements_spec localResult first testGlobalDofs result :
  match scatterElements localResult first testGlobalDofs result with
  | inr result' =>
    accessesInBounds localResult first testGlobalDofs (length result) /\
    length result' = length result /\
    forall d, result' !! d =
      (fun y => fold_left s_add (contributions localResult first testGlobalDofs d) y)
        <$> result !! d
  | inl e => e = outOfBounds /\
             ~ accessesInBounds localResult first testGlobalDofs (length result)
  end.
Proof.
  induction testGlobalDofs as [|dofs rest IH] in first, result |- *; simpl.
  - split_and!; [by intros ? ? ?|done|]. intros d. by destruct (result !! d).
  - pose proof (scatterDofs_spec (localResult !! first) 0 dofs result) as Hd.
    destruct (scatterDofs _ _ _ _) as [e|result1].
    + destruct Hd as [-> Hnot]. split; [done|]. intros Hb. apply Hnot.
      specialize (Hb 0 dofs eq_refl). by rewrite Nat.add_0_r in Hb.
    + destruct Hd as (Hb1 & Hlen1 & Hval1).
      specialize (IH (S first) result1). rewrite Hlen1 in IH.
      destruct (scatterElements _ _ _ _) as [e|result'].
      * destruct IH as [-> Hnot]. split; [done|]. intros Hb. apply Hnot.
        intros j i Hj. specialize (Hb (S j) i Hj). by rewrite Nat.add_succ_r in Hb.
      * destruct IH as (Hb & Hlen & Hval). split_and!; [|done|].
        -- intros [|j] i Hj; simpl in Hj.
           ++ simplify_eq. by rewrite Nat.add_0_r.
           ++ rewrite Nat.add_succ_r. by apply Hb.
        -- intros d. rewrite Hval, Hval1, contributions_cons.
           destruct (result !! d); simpl; [|done]. by rewrite fold_left_app.
Qed.

Lemma dofContributions_not_elem_of local first dofs d :
  Z.of_nat d ∉ dofs -> dofContributions local first dofs d = [].
Proof.
  induction dofs as [|index dofs IH] in first |- *; [done|].
  intros Hd. apply not_elem_of_cons in Hd as [Hne Hd].
  rewrite dofContributions_cons, IH by done.
  destruct (decide _) as [->|_]; done.
Qed.

Lemma contributions_not_elem_of localResult first testGlobalDofs d :
  Forall (fun dofs => Z.of_nat d ∉ dofs) testGlobalDofs ->
  contributions localResult first testGlobalDofs d = [].
Proof.
  induction 1 as [|dofs rest Hd _ IH] in first |- *; [done|].
  by rewrite contributions_cons, IH, dofContributions_not_elem_of.
Qed.

(** X10.  [reallyCalculateProjections] returns a vector exactly when every global
    DOF index of every element lies in [0, globalDofCount) and the assembler
    has returned a local integral for every local DOF.  The vector has
    [globalDofCount] entries, and entry [d] is the sum, taken from zero on in
    the order of the loops, of the local integrals of the pairs (element,
    local DOF) that the dual space maps to [d]. *)
Theorem reallyCalculateProjections_sums_contributions dualSpace assembler :
  let testGlobalDofs := map (globalDofs dualSpace) (seq 0 (elementCount dualSpace)) in
  let localResult := assembler (seq 0 (elementCount dualSpace)) in
  let n := globalDofCount dualSpace in
  match reallyCalculateProjections dualSpace assembler with
  | inr result =>
    accessesInBounds localResult 0 testGlobalDofs n /\
    length result = n /\
    forall d, d < n ->
      result !! d =
        Some (fold_left s_add (contributions localResult 0 testGlobalDofs d) s_zero)
  | inl _ => ~ accessesInBounds localResult 0 testGlobalDofs n
  end.
Proof.
  intros testGlobalDofs localResult n. unfold reallyCalculateProjections.
  fold testGlobalDofs localResult n.
  pose proof (scatterElements_spec localResult 0 testGlobalDofs (replicate n s_zero)) as Hs.
  rewrite length_replicate in Hs.
  destruct (scatterElements _ _ _ _) as [e|result]; [by destruct Hs|].
  destruct Hs as (Hb & Hlen & Hval). split_and!; try done.
  intros d Hd. by rewrite Hval, lookup_replicate_2.
Qed.

(** X11.  A global DOF that belongs to no element has projection exactly zero. *)
Theorem reallyCalculateProjections_untouched_dof_is_zero dualSpace assembler result d :
  reallyCalculateProjections dualSpace assembler = inr result ->
  d < globalDofCount dualSpace ->
  (forall element, element < elementCount dualSpace ->
     Z.of_nat d ∉ globalDofs dualSpace element) ->
  result !! d = Some s_zero.
Proof.
  intros Hr Hd Hno. unfold reallyCalculateProjections in Hr.
  pose proof (scatterElements_spec (assembler (seq 0 (elementCount dualSpace))) 0
    (map (globalDofs dualSpace) (seq 0 (elementCount dualSpace)))
    (replicate (globalDofCount dualSpace) s_zero)) as Hs.
  rewrite Hr in Hs. destruct Hs as (_ & _ & Hval).
  rewrite Hval, lookup_replicate_2 by done. simpl.
  rewrite contributions_not_elem_of; [done|].
  apply Forall_forall. intros dofs Hin.
  apply list_elem_of_fmap in Hin as (e & -> & He). apply Hno.
  apply elem_of_seq in He. lia.
Qed.

(** *** Construction from a function *)

Lemma calculateProjections_inl context function dualSpace e :
  calculateProjections context function dualSpace = inl e ->
  e = outOfBounds \/ exists what, e = runtime_error what.
Proof.
  unfold calculateProjections. destruct (negb _); [intros [= <-]; eauto|].
  intros He. left.
  pose proof (scatterElements_spec
    (makeAssemblerForGridFunctions context function dualSpace
       (seq 0 (elementCount dualSpace))) 0
    (map (globalDofs dualSpace) (seq 0 (elementCount dualSpace)))
    (replicate (globalDofCount dualSpace) s_zero)) as Hs.
  unfold reallyCalculateProjections in He. rewrite He in Hs. by destruct Hs.
Qed.

Lemma calculateProjections_length context function dualSpace projs :
  calculateProjections context function dualSpace = inr projs ->
  dofsAssigned dualSpace = true /\ length projs = globalDofCount dualSpace.
Proof.
  unfold calculateProjections. destruct (dofsAssigned dualSpace); [|done]. simpl.
  intros Hp. split; [done|]. unfold reallyCalculateProjections in Hp.
  pose proof (scatterElements_spec
    (makeAssemblerForGridFunctions context function dualSpace
       (seq 0 (elementCount dualSpace))) 0
    (map (globalDofs dualSpace) (seq 0 (elementCount dualSpace)))
    (replicate (globalDofCount dualSpace) s_zero)) as Hs.
  rewrite Hp in Hs. destruct Hs as (_ & Hlen & _). by rewrite length_replicate in Hlen.
Qed.

(** X12.  In the constructor from a function the projections are computed before
    the body checks anything.  A null context or dual space is dereferenced,
    so the two messages for them are never thrown; a dual space without DOFs
    is reported by [calculateProjections], whatever the other arguments are;
    and what the constructor returns is well-formed, with the computed
    projections and no coefficients. *)
Theorem GridFunction_function_computes_before_checking context space dualSpace function :
  (context = None \/ dualSpace = None ->
     GridFunction_function context space dualSpace function = inl nullDereference) /\
  (forall ctx dsp, context = Some ctx -> dualSpace = Some dsp ->
     dofsAssigned dsp = false ->
     exists what,
       GridFunction_function context space dualSpace function = inl (runtime_error what) /\
       calculateProjections ctx function dsp = inl (runtime_error what)) /\
  (forall e, GridFunction_function context space dualSpace function = inl e ->
     e <> invalid_argument "GridFunction::GridFunction(): context must not be null" /\
     e <> invalid_argument "GridFunction::GridFunction(): dualSpace must not be null") /\
  (forall g, GridFunction_function context space dualSpace function = inr g ->
     wellFormed g /\ m_coefficients g = None /\
     exists ctx dsp projs, context = Some ctx /\ dualSpace = Some dsp /\
       m_projections g = Some projs /\
       calculateProjections ctx function dsp = inr projs).
Proof.
  unfold GridFunction_function. split_and!.
  - intros [-> | ->]; [done|]. by destruct context.
  - intros ctx dsp -> -> Hda. unfold calculateProjections. rewrite Hda. simpl. eauto.
  - intros e He. destruct context as [ctx|]; [|by simplify_eq].
    destruct dualSpace as [dsp|]; [|by simplify_eq].
    destruct (calculateProjections ctx function dsp) as [e'|projs] eqn:Hp.
    + simplify_eq. apply calculateProjections_inl in Hp as [->|[what ->]]; done.
    + unfold checkConstructorArguments in He.
      repeat case_match; simplify_eq; split; discriminate.
  - intros g Hg. destruct context as [ctx|]; [|done].
    destruct dualSpace as [dsp|]; [|done].
    destruct (calculateProjections ctx function dsp) as [e'|projs] eqn:Hp; [done|].
    destruct (checkConstructorArguments _ _ _) as [e|[sp dsp']] eqn:Hc; [done|].
    apply checkConstructorArguments_inr in Hc as (Hctx & -> & Hdsp & Hgrid & Ha & Hda).
    simplify_eq. apply calculateProjections_length in Hp as Hlen. destruct Hlen as [_ Hlen].
    split_and!; [|done|].
    + split; [done|]. exists sp, dsp'. simpl. split_and!; try done.
      * by intros ? [= <-].
      * right. by eexists.
    + by exists ctx, dsp', projs.
Qed.

(** *** Local coefficients *)

Lemma gather_spec gdofIndices globalCoefficients :
  match gather gdofIndices globalCoefficients with
  | inr coeffs =>
    length coeffs = length gdofIndices /\
    forall i index, gdofIndices !! i = Some index ->
      (0 <= index < Z.of_nat (length globalCoefficients))%Z /\
      coeffs !! i = globalCoefficients !! Z.to_nat index
  | inl e =>
    e = outOfBounds /\
    exists index, index ∈ gdofIndices /\
      ~ (0 <= index < Z.of_nat (length globalCoefficients))%Z
  end.
Proof.
  induction gdofIndices as [|index rest IH]; simpl.
  - split; [done|]. by intros ? ? ?.
  - destruct (decide _) as [Hin|Hout].
    + destruct (lookup_lt_is_Some_2 globalCoefficients (Z.to_nat index)) as [x Hx]; [lia|].
      rewrite Hx. destruct (gather rest globalCoefficients) as [e|coeffs].
      * destruct IH as (-> & i & Hi & Hout). split; [done|].
        exists i. split; [by apply list_elem_of_further|done].
      * destruct IH as [Hlen Hval]. split; [simpl; by rewrite Hlen|].
        intros [|i] j Hj; simpl in Hj.
        -- by simplify_eq.
        -- by apply Hval.
    + split; [done|]. exists index. split; [apply list_elem_of_here|done].
Qed.

(** X13.  [getLocalCoefficients] on a well-formed grid function: it fills the cache
    of coefficients as [coefficients()] does; if every global DOF index of the
    element lies in [0, globalDofCount) it returns one coefficient per local
    DOF, the [i]-th being the global coefficient at the [i]-th index;
    otherwise it fails on the out-of-range access. *)
Theorem getLocalCoefficients_gathers g element sp c g' :
  wellFormed g -> m_space g = Some sp -> coefficients g = (inr c, g') ->
  let gdofIndices := globalDofs sp element in
  let inRange := Forall (fun index => (0 <= index < Z.of_nat (globalDofCount sp))%Z)
                        gdofIndices in
  (inRange ->
     exists coeffs, getLocalCoefficients element g = (inr coeffs, g') /\
       length coeffs = length gdofIndices /\
       forall i index, gdofIndices !! i = Some index ->
         coeffs !! i = c !! Z.to_nat index) /\
  (~ inRange -> getLocalCoefficients element g = (inl outOfBounds, g')).
Proof.
  intros Hwf Hsp Hc gdofIndices inRange.
  destruct (coefficients_wellFormed g Hwf) as (c' & g1 & sp' & Hc' & _ & Hsp' & Hlen & _).
  rewrite Hc in Hc'. rewrite Hsp in Hsp'. simplify_eq.
  unfold getLocalCoefficients, bind, throw, ret. rewrite Hsp, Hc.
  fold gdofIndices. pose proof (gather_spec gdofIndices c') as Hg.
  rewrite Hlen in Hg. split.
  - intros Hin. destruct (gather gdofIndices c') as [e|coeffs].
    + destruct Hg as (_ & index & Hel & Hout). destruct Hout.
      by eapply Forall_forall in Hin.
    + destruct Hg as [Hl Hval]. exists coeffs. split_and!; try done.
      intros i index Hi. by apply Hval.
  - intros Hnot. destruct (gather gdofIndices c') as [e|coeffs].
    + by destruct Hg as [-> _].
    + destruct Hnot. apply Forall_forall. intros index Hel.
      apply list_elem_of_lookup in Hel as [i Hi]. destruct Hg as [_ Hg]. by destruct (Hg i index Hi).
Qed.

(** *** Sum and difference

    [g1.space() != g2.space()] compares two [shared_ptr]s, that is two
    addresses.  [sameObject a b] tells whether two non-null pointers, to the
    spaces [a] and [b], are one pointer; one address holds one object. *)
Variable sameObject : Space -> Space -> bool.
Hypothesis sameObject_eq : forall a b, sameObject a b = true -> a = b.

Definition pointersEqual (p q : option Space) : bool :=
  match p, q with
  | None, None => true
  | Some a, Some b => sameObject a b
  | _, _ => false
  end.

(** Armadillo's elementwise [a + b] and [a - b]: the sizes must agree. *)
Definition elementwise (f : ResultType -> ResultType -> ResultType)
    (a b : list ResultType) : Exception + list ResultType :=
  if length a =? length b then inr (zip_with f a b)
  else inl (assertion_failed "incompatible matrix dimensions").

Definition s_sub (x y : ResultType) : ResultType := s_add x (s_opp y).

(** The two operands are two references; the state is the pair of the
    objects they refer to. *)
Definition onFirst {A} (m : Method GridFunction A)
    : Method (GridFunction * GridFunction) A :=
  fun s => let (r, g1) := m s.1 in (r, (g1, s.2)).

Definition onSecond {A} (m : Method GridFunction A)
    : Method (GridFunction * GridFunction) A :=
  fun s => let (r, g2) := m s.2 in (r, (s.1, g2)).

(** The body shared by [operator+] and [operator-], which differ in the
    message and in the elementwise operation.  The four accessor calls are
    taken in the order in which they are written. *)
Definition sumOrDifference (what : string)
    (f : ResultType -> ResultType -> ResultType)
    : Method (GridFunction * GridFunction) GridFunction :=
  let* s := get in
  if negb (pointersEqual (m_space s.1) (m_space s.2)) then throw (runtime_error what)
  else
    let* c1 := onFirst coefficients in
    let* c2 := onSecond coefficients in
    match elementwise f c1 c2 with
    | inl e => throw e
    | inr c =>
      let* p1 := onFirst projections in
      let* p2 := onSecond projections in
      match elementwise f p1 p2 with
      | inl e => throw e
      | inr p =>
        let* s' := get in
        match GridFunction_coefficients_projections
                (m_context s'.1) (m_space s'.1) (m_dualSpace s'.1) c p with
        | inl e => throw e
        | inr g => ret g
        end
      end
    end.

(** [operator+(g1, g2)] *)
Definition operator_add : Method (GridFunction * GridFunction) GridFunction :=
  sumOrDifference "GridFunction::operator+(): spaces don't match" s_add.

(** [operator-(g1, g2)] *)
Definition operator_sub : Method (GridFunction * GridFunction) GridFunction :=
  sumOrDifference "GridFunction::operator-(): spaces don't match" s_sub.

Lemma accessor_errors_are_assertions g e g' :
  coefficients g = (inl e, g') \/ projections g = (inl e, g') ->
  exists w, e = assertion_failed w.
Proof.
  unfold coefficients, projections. intros [Hc|Hc]; repeat case_match; simplify_eq; eauto.
Qed.

Lemma constructor_errors context space dualSpace c p e :
  GridFunction_coefficients_projections context space dualSpace c p = inl e ->
  exists w, (e = invalid_argument w \/ e = runtime_error w) /\
            String.prefix "GridFunction::GridFunction()" w = true.
Proof.
  unfold GridFunction_coefficients_projections, checkConstructorArguments.
  intros He. repeat case_match; simplify_eq; eexists; (split; [eauto|reflexivity]).
Qed.

Lemma sumOrDifference_mismatch what f g1 g2 :
  String.prefix "GridFunction::GridFunction()" what = false ->
  ((sumOrDifference what f (g1, g2)).1 = inl (runtime_error what) <->
   pointersEqual (m_space g1) (m_space g2) = false) /\
  (pointersEqual (m_space g1) (m_space g2) = false ->
   sumOrDifference what f (g1, g2) = (inl (runtime_error what), (g1, g2))).
Proof.
  intros Hwhat. unfold sumOrDifference, bind, get, throw, ret, onFirst, onSecond. simpl.
  destruct (pointersEqual _ _) eqn:Hp; simpl; [|done].
  split; [|done]. split; [|done].
  destruct (coefficients g1) as [[e|c1] g1'] eqn:Hc1; simpl.
  { destruct (accessor_errors_are_assertions g1 e g1') as [w ->]; eauto. done. }
  destruct (coefficients g2) as [[e|c2] g2'] eqn:Hc2; simpl.
  { destruct (accessor_errors_are_assertions g2 e g2') as [w ->]; eauto. done. }
  unfold elementwise. destruct (length c1 =? length c2); simpl; [|done].
  destruct (projections g1') as [[e|p1] g1''] eqn:Hp1; simpl.
  { destruct (accessor_errors_are_assertions g1' e g1'') as [w ->]; eauto. done. }
  destruct (projections g2') as [[e|p2] g2''] eqn:Hp2; simpl.
  { destruct (accessor_errors_are_assertions g2' e g2'') as [w ->]; eauto. done. }
  destruct (length p1 =? length p2); simpl; [|done].
  destruct (GridFunction_coefficients_projections _ _ _ _ _) as [e|g] eqn:Hg; simpl; [|done].
  apply constructor_errors in Hg as (w & [-> | ->] & Hw); [done|].
  intros [= ->]. congruence.
Qed.

Lemma sumOrDifference_wellFormed what f g1 g2 dsp1 dsp2 c1 c2 p1 p2 g1' g1'' g2' g2'' :
  wellFormed g1 -> wellFormed g2 ->
  pointersEqual (m_space g1) (m_space g2) = true ->
  m_dualSpace g1 = Some dsp1 -> m_dualSpace g2 = Some dsp2 ->
  coefficients g1 = (inr c1, g1') -> projections g1' = (inr p1, g1'') ->
  coefficients g2 = (inr c2, g2') -> projections g2' = (inr p2, g2'') ->
  length c1 = length c2 /\
  sumOrDifference what f (g1, g2) =
    if globalDofCount dsp1 =? globalDofCount dsp2 then
      (inr {| m_context := m_context g1; m_space := m_space g1;
              m_dualSpace := m_dualSpace g1;
              m_coefficients := Some (zip_with f c1 c2);
              m_projections := Some (zip_with f p1 p2) |}, (g1'', g2''))
    else (inl (assertion_failed "incompatible matrix dimensions"), (g1'', g2'')).
Proof.
  intros Hwf1 Hwf2 Hsame Hd1 Hd2 Hc1 Hp1 Hc2 Hp2.
  destruct (coefficients_wellFormed g1 Hwf1) as (? & ? & sp1 & Hc1' & Hwf1' & Hsp1 & Hlc1 & _).
  rewrite Hc1 in Hc1'. simplify_eq.
  destruct (coefficients_wellFormed g2 Hwf2) as (? & ? & sp2 & Hc2' & Hwf2' & Hsp2 & Hlc2 & _).
  rewrite Hc2 in Hc2'. simplify_eq.
  destruct (coefficients_frame _ _ _ Hc1) as (Hx1 & Hs1 & Hds1).
  destruct (coefficients_frame _ _ _ Hc2) as (Hx2 & Hs2 & Hds2).
  destruct (projections_frame _ _ _ Hp1) as (Hx1' & Hs1' & Hds1').
  destruct (projections_wellFormed _ Hwf1') as (? & ? & d1 & Hp1' & _ & Hdd1 & Hlp1 & _).
  rewrite Hp1 in Hp1'. simplify_eq.
  destruct (projections_wellFormed _ Hwf2') as (? & ? & d2 & Hp2' & _ & Hdd2 & Hlp2 & _).
  rewrite Hp2 in Hp2'. simplify_eq.
  assert (d1 = dsp1) as -> by congruence.
  assert (d2 = dsp2) as -> by congruence.
  rewrite Hsp1, Hsp2 in Hsame. simpl in Hsame.
  pose proof (sameObject_eq _ _ Hsame) as <-.
  split; [congruence|].
  unfold sumOrDifference, bind, get, throw, ret, onFirst, onSecond. simpl.
  rewrite Hsp1, Hsp2. simpl. rewrite Hsame. simpl. rewrite Hc1. simpl. rewrite Hc2. simpl.
  unfold elementwise. rewrite Hlc1, Hlc2, Nat.eqb_refl. simpl.
  rewrite Hp1. simpl. rewrite Hp2. simpl. rewrite Hlp1, Hlp2.
  destruct (globalDofCount dsp1 =? globalDofCount dsp2) eqn:Hdofs; [|done].
  apply Nat.eqb_eq in Hdofs. cbn [fst snd].
  rewrite Hx1', Hx1, Hs1', Hs1, Hds1', Hds1, Hsp1, Hd1.
  destruct Hwf1 as (Hctx & sp & dsp & Hsp & Hdsp & Hgrid & Ha & Hda & _).
  simplify_eq.
  rewrite GridFunction_coefficients_projections_ok; auto;
    rewrite length_zip_with; lia.
Qed.

(** X14.  [operator+] and [operator-] throw their "spaces don't match" error
    exactly when the two space pointers differ, and then before any accessor
    is called: both operands are left as they were. *)
Theorem sum_and_difference_space_mismatch g1 g2 :
  let mismatch := pointersEqual (m_space g1) (m_space g2) = false in
  let plusError := runtime_error "GridFunction::operator+(): spaces don't match" in
  let minusError := runtime_error "GridFunction::operator-(): spaces don't match" in
  ((operator_add (g1, g2)).1 = inl plusError <-> mismatch) /\
  ((operator_sub (g1, g2)).1 = inl minusError <-> mismatch) /\
  (mismatch -> operator_add (g1, g2) = (inl plusError, (g1, g2)) /\
               operator_sub (g1, g2) = (inl minusError, (g1, g2))).
Proof.
  intros mismatch plusError minusError.
  destruct (sumOrDifference_mismatch
    "GridFunction::operator+(): spaces don't match" s_add g1 g2 eq_refl) as [Hp1 Hp2].
  destruct (sumOrDifference_mismatch
    "GridFunction::operator-(): spaces don't match" s_sub g1 g2 eq_refl) as [Hm1 Hm2].
  split_and!; try done. intros Hmis. split; [by apply Hp2|by apply Hm2].
Qed.

(** X15.  On two well-formed grid functions with one space pointer and dual spaces
    of equal DOF count, [g1 + g2] and [g1 - g2] have the context, space and
    dual space of [g1]; their coefficients and their projections are the
    elementwise sums (differences) of the vectors the accessors return, and
    these have equal lengths.  Both operands end with both vectors cached. *)
Theorem sum_and_difference_are_elementwise
    g1 g2 dsp1 dsp2 c1 c2 p1 p2 g1' g1'' g2' g2'' :
  wellFormed g1 -> wellFormed g2 ->
  pointersEqual (m_space g1) (m_space g2) = true ->
  m_dualSpace g1 = Some dsp1 -> m_dualSpace g2 = Some dsp2 ->
  globalDofCount dsp1 = globalDofCount dsp2 ->
  coefficients g1 = (inr c1, g1') -> projections g1' = (inr p1, g1'') ->
  coefficients g2 = (inr c2, g2') -> projections g2' = (inr p2, g2'') ->
  length c1 = length c2 /\ length p1 = length p2 /\
  operator_add (g1, g2) =
    (inr {| m_context := m_context g1; m_space := m_space g1;
            m_dualSpace := m_dualSpace g1;
            m_coefficients := Some (zip_with s_add c1 c2);
            m_projections := Some (zip_with s_add p1 p2) |}, (g1'', g2'')) /\
  operator_sub (g1, g2) =
    (inr {| m_context := m_context g1; m_space := m_space g1;
            m_dualSpace := m_dualSpace g1;
            m_coefficients := Some (zip_with (fun x y => s_add x (s_opp y)) c1 c2);
            m_projections := Some (zip_with (fun x y => s_add x (s_opp y)) p1 p2) |},
     (g1'', g2'')).
Proof.
  intros Hwf1 Hwf2 Hsame Hd1 Hd2 Hdofs Hc1 Hp1 Hc2 Hp2.
  pose proof (fun what f => sumOrDifference_wellFormed what f
    g1 g2 dsp1 dsp2 c1 c2 p1 p2 g1' g1'' g2' g2'' Hwf1 Hwf2 Hsame Hd1 Hd2 Hc1 Hp1 Hc2 Hp2)
    as Hop.
  apply Nat.eqb_eq in Hdofs as Hb. rewrite Hb in Hop.
  destruct (coefficients_wellFormed g1 Hwf1) as (? & ? & ? & Hc & Hwf1' & _).
  rewrite Hc1 in Hc. simplify_eq.
  destruct (coefficients_wellFormed g2 Hwf2) as (? & ? & ? & Hc & Hwf2' & _).
  rewrite Hc2 in Hc. simplify_eq.
  destruct (projections_wellFormed _ Hwf1') as (? & ? & d1 & Hp & _ & Hdd1 & Hlp1 & _).
  rewrite Hp1 in Hp. simplify_eq.
  destruct (projections_wellFormed _ Hwf2') as (? & ? & d2 & Hp & _ & Hdd2 & Hlp2 & _).
  rewrite Hp2 in Hp. simplify_eq.
  destruct (coefficients_frame _ _ _ Hc1) as (_ & _ & Hds1).
  destruct (coefficients_frame _ _ _ Hc2) as (_ & _ & Hds2).
  split_and!.
  - apply (Hop "" s_add).
  - congruence.
  - apply (Hop _ s_add).
  - apply (Hop _ s_sub).
Qed.

(** X16.  Only the primal spaces are compared.  With one space pointer but dual
    spaces of different DOF counts the operators get as far as the sum of the
    projections, which Armadillo refuses: they fail, and the failure is not
    the "spaces don't match" error. *)
Theorem sum_and_difference_ignore_dual_spaces g1 g2 dsp1 dsp2 :
  wellFormed g1 -> wellFormed g2 ->
  pointersEqual (m_space g1) (m_space g2) = true ->
  m_dualSpace g1 = Some dsp1 -> m_dualSpace g2 = Some dsp2 ->
  globalDofCount dsp1 <> globalDofCount dsp2 ->
  exists what,
    (operator_add (g1, g2)).1 = inl (assertion_failed what) /\
    (operator_sub (g1, g2)).1 = inl (assertion_failed what).
Proof.
  intros Hwf1 Hwf2 Hsame Hd1 Hd2 Hdofs.
  destruct (coefficients_wellFormed g1 Hwf1) as (c1 & g1' & ? & Hc1 & Hwf1' & _).
  destruct (coefficients_wellFormed g2 Hwf2) as (c2 & g2' & ? & Hc2 & Hwf2' & _).
  destruct (projections_wellFormed g1' Hwf1') as (p1 & g1'' & ? & Hp1 & _).
  destruct (projections_wellFormed g2' Hwf2') as (p2 & g2'' & ? & Hp2 & _).
  pose proof (fun what f => sumOrDifference_wellFormed what f
    g1 g2 dsp1 dsp2 c1 c2 p1 p2 g1' g1'' g2' g2'' Hwf1 Hwf2 Hsame Hd1 Hd2 Hc1 Hp1 Hc2 Hp2)
    as Hop.
  apply Nat.eqb_neq in Hdofs. rewrite Hdofs in Hop.
  eexists. unfold operator_add, operator_sub.
  split; [rewrite (proj2 (Hop _ s_add))|rewrite (proj2 (Hop _ s_sub))]; reflexivity.
Qed.

End GridFunction.

(** *** A grid function on a three-DOF space with a two-DOF dual space *)

Definition exampleSpace : Space :=
  {| grid := 1; basisTag := 1; dofsAssigned := true; globalDofCount := 3 |}.
Definition exampleDualSpace : Space :=
  {| grid := 1; basisTag := 0; dofsAssigned := true; globalDofCount := 2 |}.

Definition exampleGridFunction : GridFunction (ResultType := float) :=
  {| m_context := Some 0; m_space := Some exampleSpace;
     m_dualSpace := Some exampleDualSpace;
     m_coefficients := Some [1; 2; 3]%float;
     m_projections := Some [4; 5]%float |}.

(** A stand-in for the mass matrix and its pseudoinverse: all entries one. *)
Definition onesEntry (_ : option ContextObj) (_ : Space) (_ : option Space)
    (x : list float) (_ : nat) : float :=
  foldr PrimFloat.add 0%float x.

Lemma exampleGridFunction_wellFormed : wellFormed exampleGridFunction.
Proof.
  split; [by eexists|]. exists exampleSpace, exampleDualSpace.
  repeat split; simpl; try (by intros ? [= <-]). left. by eexists.
Qed.

Lemma setters_replace_and_invalidate_witness :
  setCoefficients [7; 8; 9]%float exampleGridFunction =
    (inr tt, {| m_context := Some 0; m_space := Some exampleSpace;
                m_dualSpace := Some exampleDualSpace;
                m_coefficients := Some [7; 8; 9]%float; m_projections := None |}) /\
  setProjections [7; 8]%float exampleGridFunction =
    (inr tt, {| m_context := Some 0; m_space := Some exampleSpace;
                m_dualSpace := Some exampleDualSpace;
                m_coefficients := None; m_projections := Some [7; 8]%float |}).
Proof.
  split.
  - destruct (setters_replace_and_invalidate exampleGridFunction [7; 8; 9]%float)
      as (Hc & _ & _).
    apply (Hc exampleSpace); reflexivity.
  - destruct (setters_replace_and_invalidate exampleGridFunction [7; 8]%float)
      as (_ & Hp & _).
    apply (Hp exampleDualSpace); reflexivity.
Defined.

Lemma setters_atomic_on_length_error_witness :
  (exists what, setCoefficients [7; 8]%float exampleGridFunction =
     (inl (invalid_argument what), exampleGridFunction)) /\
  (exists what, setProjections [7; 8; 9]%float exampleGridFunction =
     (inl (invalid_argument what), exampleGridFunction)).
Proof.
  split.
  - apply (proj1 (setters_atomic_on_length_error exampleGridFunction [7; 8]%float)
             exampleSpace); [reflexivity | simpl; lia].
  - apply (proj2 (setters_atomic_on_length_error exampleGridFunction [7; 8; 9]%float)
             exampleDualSpace); [reflexivity | simpl; lia].
Defined.

(** Dividing by [-0.0] throws as dividing by [0.0] does; dividing by [2.0]
    halves both vectors. *)
Lemma operator_div_divide_by_zero_witness :
  operator_div onesEntry onesEntry id (-0)%float exampleGridFunction =
    (inl divideByZero, exampleGridFunction) /\
  operator_div onesEntry onesEntry id 2%float exampleGridFunction =
    operator_mul_left onesEntry onesEntry id 0.5%float exampleGridFunction /\
  operator_div onesEntry onesEntry id 2%float exampleGridFunction =
    (inr {| m_context := Some 0; m_space := Some exampleSpace;
            m_dualSpace := Some exampleDualSpace;
            m_coefficients := Some [0.5; 1; 1.5]%float;
            m_projections := Some [2; 2.5]%float |}, exampleGridFunction).
Proof.
  pose proof (operator_div_divide_by_zero onesEntry onesEntry id
                exampleGridFunction (-0)%float) as (_ & Hz & _).
  pose proof (operator_div_divide_by_zero onesEntry onesEntry id
                exampleGridFunction 2%float) as (_ & _ & Hm & Hs).
  split; [apply Hz; reflexivity|].
  split; [apply Hm; reflexivity|].
  destruct (Hs eq_refl exampleGridFunction_wellFormed)
    as (c & p & g1 & g2 & Hc & Hp & Hdiv & _).
  injection Hc as <- <-. injection Hp as <- <-. exact Hdiv.
Defined.

Example operator_div_by_two :
  (operator_div onesEntry onesEntry id 2%float exampleGridFunction).1 =
    inr {| m_context := Some 0; m_space := Some exampleSpace;
           m_dualSpace := Some exampleDualSpace;
           m_coefficients := Some [0.5; 1; 1.5]%float;
           m_projections := Some [2; 2.5]%float |}.
Proof. reflexivity. Qed.

(** *** Two triangles sharing an edge

    Element 0 has the global DOFs 0, 1, 2 and element 1 the global DOFs
    1, 3, 2; [meshDualSpace] has a fifth DOF that belongs to no element. *)

Definition exampleElementCount (_ : Space) : nat := 2.

Definition exampleGlobalDofs (_ : Space) (element : nat) : list Z :=
  match element with
  | 0 => [0; 1; 2]%Z
  | 1 => [1; 3; 2]%Z
  | _ => []
  end.

Definition exampleAssembler : LocalAssembler (ResultType := float) :=
  map (fun element => match element with
                      | 0 => [1; 2; 3]%float
                      | _ => [10; 20; 30]%float
                      end).

Definition meshSpace : Space :=
  {| grid := 1; basisTag := 1; dofsAssigned := true; globalDofCount := 4 |}.
Definition meshDualSpace : Space :=
  {| grid := 1; basisTag := 2; dofsAssigned := true; globalDofCount := 5 |}.

(** Pointers to spaces compared through the spaces they point to. *)
Definition exampleSameObject (a b : Space) : bool := bool_decide (a = b).

Lemma exampleSameObject_eq a b : exampleSameObject a b = true -> a = b.
Proof. apply bool_decide_eq_true_1. Defined.

(** A second grid function on the spaces of [exampleGridFunction], with the
    projections not yet computed, and one with a three-DOF dual space. *)
Definition exampleGridFunction2 : GridFunction (ResultType := float) :=
  {| m_context := Some 0; m_space := Some exampleSpace;
     m_dualSpace := Some exampleDualSpace;
     m_coefficients := Some [10; 20; 30]%float;
     m_projections := None |}.

Definition exampleGridFunction3 : GridFunction (ResultType := float) :=
  {| m_context := Some 0; m_space := Some exampleSpace;
     m_dualSpace := Some exampleSpace;
     m_coefficients := Some [1; 1; 1]%float;
     m_projections := Some [1; 1; 1]%float |}.

Lemma exampleGridFunction2_wellFormed : wellFormed exampleGridFunction2.
Proof.
  split; [by eexists|]. exists exampleSpace, exampleDualSpace.
  repeat split; simpl; try (by intros ? [= <-]); try done. left. by eexists.
Qed.

Lemma exampleGridFunction3_wellFormed : wellFormed exampleGridFunction3.
Proof.
  split; [by eexists|]. exists exampleSpace, exampleSpace.
  repeat split; simpl; try (by intros ? [= <-]). left. by eexists.
Qed.

Example reallyCalculateProjections_example :
  reallyCalculateProjections exampleElementCount exampleGlobalDofs
    meshDualSpace exampleAssembler = inr [1; 12; 33; 20; 0]%float.
Proof. reflexivity. Qed.

Lemma reallyCalculateProjections_untouched_dof_is_zero_witness :
  reallyCalculateProjections exampleElementCount exampleGlobalDofs
    meshDualSpace exampleAssembler = inr [1; 12; 33; 20; 0]%float /\
  [1; 12; 33; 20; 0]%float !! 4 = Some 0%float.
Proof.
  split; [reflexivity|].
  change (Some 0%float) with (Some (s_zero (T := float))).
  apply (reallyCalculateProjections_untouched_dof_is_zero
           exampleElementCount exampleGlobalDofs meshDualSpace exampleAssembler
           [1; 12; 33; 20; 0]%float 4).
  - reflexivity.
  - simpl. lia.
  - intros [|[|element]] Hlt; [| |unfold exampleElementCount in Hlt; lia];
      refine (bool_decide_unpack _ _); vm_compute; exact I.
Defined.

(** A global DOF index outside the vector: nothing is returned. *)
Example reallyCalculateProjections_out_of_range :
  reallyCalculateProjections exampleElementCount exampleGlobalDofs
    exampleDualSpace exampleAssembler = inl outOfBounds.
Proof. reflexivity. Qed.

Definition exampleMakeAssembler (_ : ContextObj) (_ : unit) (_ : Space)
    : LocalAssembler (ResultType := float) := exampleAssembler.

Example GridFunction_function_example :
  GridFunction_function exampleElementCount exampleGlobalDofs exampleMakeAssembler
    (Some 0) (Some meshSpace) (Some meshDualSpace) tt =
    inr {| m_context := Some 0; m_space := Some meshSpace;
           m_dualSpace := Some meshDualSpace;
           m_coefficients := None;
           m_projections := Some [1; 12; 33; 20; 0]%float |} /\
  GridFunction_function exampleElementCount exampleGlobalDofs exampleMakeAssembler
    None (Some meshSpace) (Some meshDualSpace) tt = inl nullDereference /\
  GridFunction_function exampleElementCount exampleGlobalDofs exampleMakeAssembler
    (Some 0) None (Some meshDualSpace) tt =
    inl (invalid_argument "GridFunction::GridFunction(): space must not be null").
Proof. repeat split. Qed.

Lemma set_then_get_other_witness :
  projections onesEntry
    {| m_context := Some 0; m_space := Some exampleSpace;
       m_dualSpace := Some exampleDualSpace;
       m_coefficients := Some [7; 8; 9]%float; m_projections := None |} =
    (inr [24; 24]%float,
     {| m_context := Some 0; m_space := Some exampleSpace;
        m_dualSpace := Some exampleDualSpace;
        m_coefficients := Some [7; 8; 9]%float;
        m_projections := Some [24; 24]%float |}).
Proof.
  destruct (set_then_get_other onesEntry onesEntry exampleGridFunction [7; 8; 9]%float
              {| m_context := Some 0; m_space := Some exampleSpace;
                 m_dualSpace := Some exampleDualSpace;
                 m_coefficients := Some [7; 8; 9]%float; m_projections := None |}
              exampleSpace exampleDualSpace eq_refl eq_refl) as [Hset _].
  apply (Hset eq_refl).
Defined.

Lemma uninitialised_object_fails_assertion_witness :
  isInitialized (GridFunction_default (ResultType := float)) = false /\
  (exists w, coefficients onesEntry GridFunction_default =
     (inl (assertion_failed w), GridFunction_default)) /\
  (exists w, operator_div onesEntry onesEntry id 2%float GridFunction_default =
     (inl (assertion_failed w), GridFunction_default)).
Proof.
  split; [reflexivity|].
  destruct (uninitialised_object_fails_assertion onesEntry onesEntry id
              GridFunction_default eq_refl) as (Hc & _ & _ & _ & _ & Hdiv).
  split; [exact Hc|]. apply Hdiv. reflexivity.
Defined.

Lemma operator_mul_scales_both_vectors_witness :
  operator_mul onesEntry onesEntry id 2%float exampleGridFunction2 =
    (inr {| m_context := Some 0; m_space := Some exampleSpace;
            m_dualSpace := Some exampleDualSpace;
            m_coefficients := Some [20; 40; 60]%float;
            m_projections := Some [120; 120]%float |},
     {| m_context := Some 0; m_space := Some exampleSpace;
        m_dualSpace := Some exampleDualSpace;
        m_coefficients := Some [10; 20; 30]%float;
        m_projections := Some [60; 60]%float |}).
Proof.
  destruct (operator_mul_scales_both_vectors onesEntry onesEntry id
              exampleGridFunction2 2%float [10; 20; 30]%float [60; 60]%float
              exampleGridFunction2
              {| m_context := Some 0; m_space := Some exampleSpace;
                 m_dualSpace := Some exampleDualSpace;
                 m_coefficients := Some [10; 20; 30]%float;
                 m_projections := Some [60; 60]%float |}
              exampleGridFunction2_wellFormed eq_refl eq_refl) as [Hmul _].
  exact Hmul.
Defined.

Lemma operator_mul_order_witness :
  operator_mul_projections_first onesEntry onesEntry id 2%float exampleGridFunction2 =
  operator_mul onesEntry onesEntry id 2%float exampleGridFunction2.
Proof.
  apply (operator_mul_order onesEntry onesEntry id 2%float exampleGridFunction2).
  apply exampleGridFunction2_wellFormed.
Defined.

Lemma getLocalCoefficients_gathers_witness :
  (exists coeffs,
     getLocalCoefficients onesEntry exampleGlobalDofs 0 exampleGridFunction =
       (inr coeffs, exampleGridFunction) /\ length coeffs = 3) /\
  getLocalCoefficients onesEntry exampleGlobalDofs 1 exampleGridFunction =
    (inl outOfBounds, exampleGridFunction).
Proof.
  split.
  - destruct (getLocalCoefficients_gathers onesEntry exampleGlobalDofs
                exampleGridFunction 0 exampleSpace [1; 2; 3]%float exampleGridFunction
                exampleGridFunction_wellFormed eq_refl eq_refl) as [Hin _].
    destruct Hin as (coeffs & Hget & Hlen & _).
    + refine (bool_decide_unpack _ _). vm_compute. exact I.
    + exists coeffs. split; [exact Hget|exact Hlen].
  - destruct (getLocalCoefficients_gathers onesEntry exampleGlobalDofs
                exampleGridFunction 1 exampleSpace [1; 2; 3]%float exampleGridFunction
                exampleGridFunction_wellFormed eq_refl eq_refl) as [_ Hout].
    apply Hout. refine (bool_decide_unpack _ _). vm_compute. exact I.
Defined.

Example getLocalCoefficients_example :
  getLocalCoefficients onesEntry exampleGlobalDofs 0 exampleGridFunction =
    (inr [1; 2; 3]%float, exampleGridFunction).
Proof. reflexivity. Qed.

Lemma sum_and_difference_are_elementwise_witness :
  let g2' := {| m_context := Some 0; m_space := Some exampleSpace;
                m_dualSpace := Some exampleDualSpace;
                m_coefficients := Some [10; 20; 30]%float;
                m_projections := Some [60; 60]%float |} in
  operator_add onesEntry onesEntry exampleSameObject
      (exampleGridFunction, exampleGridFunction2) =
    (inr {| m_context := Some 0; m_space := Some exampleSpace;
            m_dualSpace := Some exampleDualSpace;
            m_coefficients := Some [11; 22; 33]%float;
            m_projections := Some [64; 65]%float |},
     (exampleGridFunction, g2')) /\
  operator_sub onesEntry onesEntry exampleSameObject
      (exampleGridFunction, exampleGridFunction2) =
    (inr {| m_context := Some 0; m_space := Some exampleSpace;
            m_dualSpace := Some exampleDualSpace;
            m_coefficients := Some [-9; -18; -27]%float;
            m_projections := Some [-56; -55]%float |},
     (exampleGridFunction, g2')).
Proof.
  intros g2'.
  destruct (sum_and_difference_are_elementwise onesEntry onesEntry
              exampleSameObject exampleSameObject_eq
              exampleGridFunction exampleGridFunction2
              exampleDualSpace exampleDualSpace
              [1; 2; 3]%float [10; 20; 30]%float [4; 5]%float [60; 60]%float
              exampleGridFunction exampleGridFunction exampleGridFunction2 g2'
              exampleGridFunction_wellFormed exampleGridFunction2_wellFormed
              eq_refl eq_refl eq_refl eq_refl eq_refl eq_refl eq_refl eq_refl)
    as (_ & _ & Hadd & Hsub).
  split; [exact Hadd|exact Hsub].
Defined.

Lemma sum_and_difference_ignore_dual_spaces_witness :
  exists what,
    (operator_add onesEntry onesEntry exampleSameObject
       (exampleGridFunction, exampleGridFunction3)).1 = inl (assertion_failed what) /\
    (operator_sub onesEntry onesEntry exampleSameObject
       (exampleGridFunction, exampleGridFunction3)).1 = inl (assertion_failed what).
Proof.
  apply (sum_and_difference_ignore_dual_spaces onesEntry onesEntry
           exampleSameObject exampleSameObject_eq
           exampleGridFunction exampleGridFunction3
           exampleDualSpace exampleSpace
           exampleGridFunction_wellFormed exampleGridFunction3_wellFormed
           eq_refl eq_refl eq_refl).
  simpl. lia.
Defined.

(** Spaces at different addresses: the sum is refused and nothing is cached. *)
Example sum_space_mismatch_example :
  operator_add onesEntry onesEntry exampleSameObject
      (exampleGridFunction2,
       {| m_context := Some 0; m_space := Some exampleDualSpace;
          m_dualSpace := Some exampleDualSpace;
          m_coefficients := Some [1; 1]%float; m_projections := None |}) =
    (inl (runtime_error "GridFunction::operator+(): spaces don't match"),
     (exampleGridFunction2,
      {| m_context := Some 0; m_space := Some exampleDualSpace;
         m_dualSpace := Some exampleDualSpace;
         m_coefficients := Some [1; 1]%float; m_projections := None |})).
Proof. reflexivity. Qed.

(** *** The special points of [evaluateAtSpecialPoints]

    For each element type the function evaluates at the barycentre (cell
    data) or at the vertices (vertex data); it fixes their local coordinates
    in the matrix [local], one column per point.  [gridDim] and
    [activeCornerCount] are [int]s. *)

Inductive VtkDataType := CELL_DATA | VERTEX_DATA.

Definition unsupportedElementType : Exception :=
  runtime_error "GridFunction::evaluateAtVertices(): unsupported element type".

(** The columns of [local] after the [if] on [dataType]. *)
Definition localCoordinates (dataType : VtkDataType) (gridDim activeCornerCount : Z)
    : Exception + list (list float) :=
  match dataType with
  | CELL_DATA =>
    if (gridDim =? 1)%Z && (activeCornerCount =? 2)%Z then
      inr [[0.5]]%float
    else if (gridDim =? 2)%Z && (activeCornerCount =? 3)%Z then
      inr [[1 / 3; 1 / 3]]%float
    else if (gridDim =? 2)%Z && (activeCornerCount =? 4)%Z then
      inr [[0.5; 0.5]]%float
    else inl unsupportedElementType
  | VERTEX_DATA =>
    if (gridDim =? 1)%Z && (activeCornerCount =? 2)%Z then
      inr [[0]; [1]]%float
    else if (gridDim =? 2)%Z && (activeCornerCount =? 3)%Z then
      inr [[0; 0]; [1; 0]; [0; 1]]%float
    else if (gridDim =? 2)%Z && (activeCornerCount =? 4)%Z then
      inr [[0; 0]; [1; 0]; [0; 1]; [1; 1]]%float
    else inl unsupportedElementType
  end.

(** The componentwise mean of a list of points, summed from zero on. *)
Definition mean (points : list (list float)) : list float :=
  match points with
  | [] => []
  | p :: _ =>
    map (fun i => (foldl (fun acc q => acc + default 0 (q !! i)) 0 points
                   / PrimFloat.of_uint63 (Uint63.of_Z (Z.of_nat (length points))))%float)
        (seq 0 (length p))
  end.

(** X17.  Both kinds of data support the same three element types: segments,
    triangles and quadrilaterals; for every other pair of grid dimension and
    corner count both fail with the same error.  For a supported type the
    vertex data has one point per corner, each point has [gridDim]
    coordinates, and the point of the cell data is, to the last bit, the mean
    of the points of the vertex data. *)
Theorem localCoordinates_barycentre_of_vertices (gridDim activeCornerCount : Z) :
  let supported :=
    (gridDim, activeCornerCount) ∈ [(1, 2); (2, 3); (2, 4)]%Z in
  match localCoordinates CELL_DATA gridDim activeCornerCount,
        localCoordinates VERTEX_DATA gridDim activeCornerCount with
  | inr cell, inr vertices =>
    supported /\
    Z.of_nat (length vertices) = activeCornerCount /\
    Forall (fun point => Z.of_nat (length point) = gridDim) (cell ++ vertices) /\
    cell = [mean vertices]
  | inl e1, inl e2 =>
    ~ supported /\ e1 = unsupportedElementType /\ e2 = unsupportedElementType
  | _, _ => False
  end.
Proof.
  intros supported. unfold localCoordinates, supported.
  destruct (Z.eqb_spec gridDim 1), (Z.eqb_spec gridDim 2),
    (Z.eqb_spec activeCornerCount 2), (Z.eqb_spec activeCornerCount 3),
    (Z.eqb_spec activeCornerCount 4); simpl; try lia; subst;
  first
    [ split_and!;
        [apply list_elem_of_In; simpl; tauto|reflexivity|repeat constructor|reflexivity]
    | split_and!; [|reflexivity|reflexivity];
      rewrite !elem_of_cons, elem_of_nil;
      intros [?|[?|[?|[]]]]; simplify_eq; lia ].
Qed.

End GridFn.

(** * boundary_operator.mako.pyx *)

Module BoundaryOp.

(** Python exceptions raised by the module, and those of the C++ layer as
    they surface in Python. *)
Inductive PyException :=
| ValueError (msg : string)
| NotImplementedError (msg : string)
| AttributeError (name : string)
| CppException (e : Exception).

(** A Python [Space] object: a wrapper around the C++ pointer [impl_]. *)
Record PySpace := { space_impl_ : option Space }.

(** What the methods below read from the C++ object [impl_] (declared in the
    [.pxd], implemented in C++): the three validity tests, the three space
    pointers and the label. *)
Record BoundaryOpVariants := {
  valid_domain : bool;
  valid_range : bool;
  valid_dual_to_range : bool;
  impl_domain : option Space;
  impl_range : option Space;
  impl_dual_to_range : option Space;
  impl_label : string
}.

(** A [basis_type] / [result_type] attribute: [None] or the name of a dtype. *)
Definition dtype : Type := option string.

Section BoundaryOperator.

Context {T : Type} `{Scalar T}.

(** ** Discrete operators *)

(** Modelled from the spec: the discrete operator classes
    ([discrete_boundary_operator.pyx]) are not among the sources.  A discrete
    operator is a dense array or a lazy sum ("Composite-Sum") holding an
    ordered list of operands; the sparse and hierarchical variants differ from
    the dense one in representation only and are not needed below. *)
Inductive DiscreteOperator :=
| Dense (m : Matrix T)
| CompositeSum (ops : list DiscreteOperator).

(** Modelled from the spec: the sum of the operands' dense forms, taken in
    the order of the operands ([discrete_boundary_operator.pyx] is missing). *)
Definition sumMatrices (ms : list (Matrix T)) : Matrix T :=
  match ms with
  | [] => []
  | m :: ms' => foldl madd m ms'
  end.

(** Modelled from the spec: [materialize()] returns the dense array; for a
    Composite-Sum it "sums each operand's dense form". *)
Fixpoint materialize (d : DiscreteOperator) : Matrix T :=
  match d with
  | Dense m => m
  | CompositeSum ops => sumMatrices (map materialize ops)
  end.

(** Modelled from the spec: [a + b] on discrete operators returns a new
    operator representing the elementwise sum, a Composite-Sum of the two. *)
Definition discrete_add (a b : DiscreteOperator) : DiscreteOperator :=
  CompositeSum [a; b].

(** Modelled from the spec: [alpha * a] on a discrete operator "multiplies
    entries by the scalar". *)
Fixpoint discrete_scale (alpha : T) (a : DiscreteOperator) : DiscreteOperator :=
  match a with
  | Dense m => Dense (mscale alpha m)
  | CompositeSum ops => CompositeSum (map (discrete_scale alpha) ops)
  end.

(** ** The template parameters and helpers imported by the module *)

(** [dtypes] and [compatible_dtypes] of [bempp_operators] drive the mako
    loops; [combined_type] is [bempp.utils.combined_type]; [scalar_dtype] is
    [np.dtype(type(x))]; [variant_weak_form] is the C++ template function
    [_boundary_operator_variant_weak_form[basis, result]]. *)
Variable dtypes : list string.
Variable compatible_dtypes : string -> list string.
Variable combined_type : dtype -> dtype -> dtype.
Variable scalar_dtype : T -> dtype.
Variable variant_weak_form :
  string -> string -> BoundaryOpVariants -> PyException + DiscreteOperator.

(** [py_get_sparse_from_discrete_operator] followed by the constructor of
    [SparseDiscreteBoundaryOperator]. *)
Variable sparse_from_discrete_operator : DiscreteOperator -> DiscreteOperator.

(** Python grid functions ([bempp.assembly.grid_function]) are opaque here. *)
Variable GridFunctionObj : Type.

(** ** The classes

    [GeneralBoundaryOperator] and its two subclasses differ in [weak_form]
    only. *)
Inductive LeafClass := GeneralClass | SparseClass | DenseClass.

(** One constructor per class, carrying the attributes of its instances.
    [_label] of the scaled and of the sum operator is a C++ [string]
    attribute: it is the empty string until [__init__] assigns it. *)
Inductive BoundaryOperatorBase :=
| GeneralObj (cls : LeafClass) (_basis_type _result_type : dtype)
    (impl_ : BoundaryOpVariants)
| ScaledObj (_basis_type _result_type : dtype)
    (_op : BoundaryOperatorBase) (_label : string) (_alpha : T)
| SumObj (_basis_type _result_type : dtype)
    (_op1 _op2 : BoundaryOperatorBase) (_label : string).

(** [_apply_grid_function] of the three classes, which rests on the
    arithmetic of Python grid functions. *)
Variable _apply_grid_function :
  BoundaryOperatorBase -> GridFunctionObj -> PyException + GridFunctionObj.

Definition basis_type (self : BoundaryOperatorBase) : dtype :=
  match self with
  | GeneralObj _ b _ _ | ScaledObj b _ _ _ _ | SumObj b _ _ _ _ => b
  end.

Definition result_type (self : BoundaryOperatorBase) : dtype :=
  match self with
  | GeneralObj _ _ r _ | ScaledObj _ r _ _ _ | SumObj _ r _ _ _ => r
  end.

(** The [label] property of each class. *)
Definition label (self : BoundaryOperatorBase) : string :=
  match self with
  | GeneralObj _ _ _ impl_ => impl_label impl_
  | ScaledObj _ _ _ _label _ => _label
  | SumObj _ _ _ _ _label => _label
  end.

(** [GeneralBoundaryOperator.__init__]; the C++ object is filled in by the
    factory functions. *)
Definition GeneralBoundaryOperator (basis_type result_type : dtype)
    (impl_ : BoundaryOpVariants) : BoundaryOperatorBase :=
  GeneralObj GeneralClass basis_type result_type impl_.

(** [SparseBoundaryOperator.__init__] calls that of its base class. *)
Definition SparseBoundaryOperator (basis_type result_type : dtype)
    (impl_ : BoundaryOpVariants) : BoundaryOperatorBase :=
  GeneralObj SparseClass basis_type result_type impl_.

(** [DenseBoundaryOperator.__init__] takes types and C++ object from a
    [GeneralBoundaryOperator]; Cython refuses any other argument. *)
Definition DenseBoundaryOperator (op : BoundaryOperatorBase) : option BoundaryOperatorBase :=
  match op with
  | GeneralObj _ basis_type result_type impl_ =>
    Some (GeneralObj DenseClass basis_type result_type impl_)
  | _ => None
  end.

(** [_ScaledBoundaryOperator.__init__]: four assignments, none to [_label]. *)
Definition _ScaledBoundaryOperator (op : BoundaryOperatorBase) (alpha : T)
    : BoundaryOperatorBase :=
  let _alpha := s_mul s_one alpha in
  ScaledObj (basis_type op)
            (combined_type (scalar_dtype _alpha) (result_type op))
            op
            ""
            _alpha.

(** [_SumBoundaryOperator.__init__] *)
Definition _SumBoundaryOperator (op1 op2 : BoundaryOperatorBase) : BoundaryOperatorBase :=
  SumObj (combined_type (basis_type op1) (basis_type op2))
         (combined_type (result_type op1) (result_type op2))
         op1 op2
         ("(" +:+ label op1 +:+ "+" +:+ label op2 +:+ ")").

(** [BoundaryOperatorBase.__add__], [__neg__] and [__sub__]. *)
Definition __add__ (self other : BoundaryOperatorBase) : BoundaryOperatorBase :=
  _SumBoundaryOperator self other.

Definition __neg__ (self : BoundaryOperatorBase) : BoundaryOperatorBase :=
  _ScaledBoundaryOperator self (s_opp s_one).

Definition __sub__ (self other : BoundaryOperatorBase) : BoundaryOperatorBase :=
  __add__ self (__neg__ other).

(** What [__mul__] is handed as [x], by the tests it makes on it, and what
    it returns. *)
Inductive Multiplicand :=
| PyScalar (x : T)                       (* np.isscalar(x) *)
| PyGridFunction (g : GridFunctionObj)   (* isinstance(x, GridFunction) *)
| PyObject (type_name : string).

Inductive Product :=
| ProductOperator (op : BoundaryOperatorBase)
| ProductGridFunction (g : GridFunctionObj).

(** [BoundaryOperatorBase.__mul__] with an operator as [self]. *)
Definition __mul__ (self : BoundaryOperatorBase) (x : Multiplicand)
    : PyException + Product :=
  match x with
  | PyScalar a => inr (ProductOperator (_ScaledBoundaryOperator self a))
  | PyGridFunction g =>
    match _apply_grid_function self g with
    | inl e => inl e
    | inr r => inr (ProductGridFunction r)
    end
  | PyObject type_name =>
    inl (ValueError ("Multiplication not supported for type" +:+ type_name))
  end.

(** The pairs the mako loops enumerate, in their order. *)
Definition compatible_pairs : list (string * string) :=
  pybasis ← dtypes;
  pyresult ← dtypes;
  if bool_decide (pyresult ∈ compatible_dtypes pybasis) then [(pybasis, pyresult)] else [].

(** [GeneralBoundaryOperator.weak_form], which is also that of
    [DenseBoundaryOperator] up to the class of the wrapper it returns. *)
Definition general_weak_form (bt rt : dtype) (impl_ : BoundaryOpVariants)
    : PyException + DiscreteOperator :=
  match find (fun '(pybasis, pyresult) =>
                bool_decide (bt = Some pybasis /\ rt = Some pyresult))
             compatible_pairs with
  | Some (pybasis, pyresult) => variant_weak_form pybasis pyresult impl_
  | None => inl (ValueError "Incompatible basis and result types")
  end.

(** [SparseBoundaryOperator.weak_form]: the discrete operator of the base
    class, whose dtype is [result_type], converted when that dtype is known. *)
Definition sparse_weak_form (bt rt : dtype) (impl_ : BoundaryOpVariants)
    : PyException + DiscreteOperator :=
  match general_weak_form bt rt impl_ with
  | inl e => inl e
  | inr discrete_operator =>
    if bool_decide (Exists (fun pyvalue => rt = Some pyvalue) dtypes)
    then inr (sparse_from_discrete_operator discrete_operator)
    else inl (ValueError "Unknown data type")
  end.

(** [weak_form] of each class. *)
Fixpoint weak_form (self : BoundaryOperatorBase) : PyException + DiscreteOperator :=
  match self with
  | GeneralObj SparseClass bt rt impl_ => sparse_weak_form bt rt impl_
  | GeneralObj _ bt rt impl_ => general_weak_form bt rt impl_
  | ScaledObj _ _ _op _ _alpha =>
    match weak_form _op with
    | inl e => inl e
    | inr d => inr (discrete_scale _alpha d)
    end
  | SumObj _ _ _op1 _op2 _ =>
    match weak_form _op1 with
    | inl e => inl e
    | inr d1 =>
      match weak_form _op2 with
      | inl e => inl e
      | inr d2 => inr (discrete_add d1 d2)
      end
    end
  end.

(** The [domain], [range] and [dual_to_range] properties: one mako
    template, three instances, on [GeneralBoundaryOperator] and its
    subclasses only. *)
Definition domain (self : BoundaryOperatorBase) : PyException + option PySpace :=
  match self with
  | GeneralObj _ _ _ impl_ =>
    if negb (valid_domain impl_) then inr None
    else inr (Some {| space_impl_ := impl_domain impl_ |})
  | _ => inl (AttributeError "domain")
  end.

Definition range (self : BoundaryOperatorBase) : PyException + option PySpace :=
  match self with
  | GeneralObj _ _ _ impl_ =>
    if negb (valid_range impl_) then inr None
    else inr (Some {| space_impl_ := impl_range impl_ |})
  | _ => inl (AttributeError "range")
  end.

Definition dual_to_range (self : BoundaryOperatorBase) : PyException + option PySpace :=
  match self with
  | GeneralObj _ _ _ impl_ =>
    if negb (valid_dual_to_range impl_) then inr None
    else inr (Some {| space_impl_ := impl_dual_to_range impl_ |})
  | _ => inl (AttributeError "dual_to_range")
  end.

(** ** Properties *)

Lemma madd_entry (a b : Matrix T) i j x y :
  entry a i j = Some x -> entry b i j = Some y ->
  entry (madd a b) i j = Some (s_add x y).
Proof.
  unfold entry, madd. intros Ha Hb.
  destruct (a !! i) as [ra|] eqn:Era; [|done].
  destruct (b !! i) as [rb|] eqn:Erb; [|done].
  simpl in *. rewrite lookup_zip_with, Era. simpl. rewrite Erb. simpl.
  rewrite lookup_zip_with, Ha. simpl. by rewrite Hb.
Qed.

Lemma madd_hasShape r c (a b : Matrix T) :
  hasShape r c a -> hasShape r c b -> hasShape r c (madd a b).
Proof.
  intros [Hla Ha] [Hlb Hb]. unfold madd. split.
  - rewrite length_zip_with. lia.
  - apply Forall_lookup_2. intros i row Hi.
    apply lookup_zip_with_Some in Hi as (ra & rb & -> & Hra & Hrb).
    rewrite length_zip_with.
    eapply Forall_lookup_1 in Ha, Hb; eauto. lia.
Qed.

Lemma materialize_discrete_add a b :
  materialize (discrete_add a b) = madd (materialize a) (materialize b).
Proof. reflexivity. Qed.

Lemma weak_form_sum op1 op2 d1 d2 :
  weak_form op1 = inr d1 -> weak_form op2 = inr d2 ->
  weak_form (_SumBoundaryOperator op1 op2) = inr (discrete_add d1 d2).
Proof. intros H1 H2. simpl. by rewrite H1, H2. Qed.

(** C5.  When [A] and [B] discretize to operators of one shape, [A + B]
    discretizes too, and its dense form is the elementwise sum of the dense
    forms of the two: same shape, and entry [(i, j)] is the sum of the two
    entries [(i, j)].  The equality is exact, whatever the scalar arithmetic. *)
Theorem sum_weak_form_is_elementwise_sum
    (A B : BoundaryOperatorBase) (dA dB : DiscreteOperator) (r c : nat) :
  weak_form A = inr dA -> weak_form B = inr dB ->
  hasShape r c (materialize dA) -> hasShape r c (materialize dB) ->
  exists d, weak_form (__add__ A B) = inr d /\
    materialize d = madd (materialize dA) (materialize dB) /\
    hasShape r c (materialize d) /\
    forall i j x y, entry (materialize dA) i j = Some x ->
                    entry (materialize dB) i j = Some y ->
                    entry (materialize d) i j = Some (s_add x y).
Proof.
  intros HA HB HsA HsB. exists (discrete_add dA dB).
  split; [by apply weak_form_sum|].
  rewrite materialize_discrete_add. split; [done|].
  split; [by apply madd_hasShape|].
  intros i j x y. apply madd_entry.
Qed.

Lemma sum_label op1 op2 :
  label (_SumBoundaryOperator op1 op2) = "(" +:+ label op1 +:+ "+" +:+ label op2 +:+ ")".
Proof. reflexivity. Qed.

(** C6 (the scaled operator).  The label of a scaled operator is the empty
    string whatever its operand and factor, and so the label of a difference
    [A - B] mentions [A] only. *)
Theorem scaled_label_is_empty (A B : BoundaryOperatorBase) (alpha : T) :
  label (_ScaledBoundaryOperator B alpha) = "" /\
  __mul__ B (PyScalar alpha) = inr (ProductOperator (_ScaledBoundaryOperator B alpha)) /\
  label (__neg__ B) = "" /\
  label (__sub__ A B) = "(" +:+ label A +:+ "+)".
Proof. repeat split. Qed.

(** C9.  On a [GeneralBoundaryOperator] (or an instance of one of its two
    subclasses) each of the three accessors returns [None] when the C++ object
    reports the space as not valid, and otherwise a [Space] object wrapping the
    pointer the C++ object returns; it raises in neither case. *)
Theorem space_accessors_return_None_when_invalid
    (cls : LeafClass) (bt rt : dtype) (impl_ : BoundaryOpVariants) :
  let self := GeneralObj cls bt rt impl_ in
  domain self =
    inr (if valid_domain impl_ then Some {| space_impl_ := impl_domain impl_ |} else None) /\
  range self =
    inr (if valid_range impl_ then Some {| space_impl_ := impl_range impl_ |} else None) /\
  dual_to_range self =
    inr (if valid_dual_to_range impl_
         then Some {| space_impl_ := impl_dual_to_range impl_ |} else None).
Proof.
  simpl. by destruct (valid_domain impl_), (valid_range impl_), (valid_dual_to_range impl_).
Qed.

(** *** Which pairs of types [weak_form] accepts *)

Lemma elem_of_compatible_pairs pybasis pyresult :
  (pybasis, pyresult) ∈ compatible_pairs <->
  pybasis ∈ dtypes /\ pyresult ∈ dtypes /\ pyresult ∈ compatible_dtypes pybasis.
Proof.
  unfold compatible_pairs. rewrite list_elem_of_bind. split.
  - intros (b & Hin & Hb). apply list_elem_of_bind in Hin as (r & Hin & Hr).
    case_bool_decide as Hc; [|by apply elem_of_nil in Hin].
    apply list_elem_of_singleton in Hin. by simplify_eq.
  - intros (Hb & Hr & Hc). exists pybasis. split; [|done].
    apply list_elem_of_bind. exists pyresult. split; [|done].
    rewrite bool_decide_eq_true_2 by done. apply list_elem_of_singleton. done.
Qed.

(** X18.  [GeneralBoundaryOperator.weak_form] (and that of [DenseBoundaryOperator])
    calls the C++ weak form for the operator's own pair of types when both
    are names of [dtypes] and the result type is compatible with the basis
    type; in every other case, a type left at [None] included, it raises the
    [ValueError] for incompatible types. *)
Theorem general_weak_form_needs_compatible_types bt rt impl_ :
  (forall pybasis pyresult,
     bt = Some pybasis -> rt = Some pyresult ->
     pybasis ∈ dtypes -> pyresult ∈ dtypes -> pyresult ∈ compatible_dtypes pybasis ->
     general_weak_form bt rt impl_ = variant_weak_form pybasis pyresult impl_) /\
  ((forall pybasis pyresult,
      bt = Some pybasis -> rt = Some pyresult ->
      ~ (pybasis ∈ dtypes /\ pyresult ∈ dtypes /\ pyresult ∈ compatible_dtypes pybasis)) ->
   general_weak_form bt rt impl_ =
     inl (ValueError "Incompatible basis and result types")).
Proof.
  unfold general_weak_form. split.
  - intros pybasis pyresult -> -> Hb Hr Hc.
    destruct (find _ _) as [[b r]|] eqn:Hfind.
    + apply find_some in Hfind as [_ Hp]. apply bool_decide_eq_true in Hp as [? ?].
      by simplify_eq.
    + apply find_none with (x := (pybasis, pyresult)) in Hfind.
      * apply bool_decide_eq_false in Hfind. by destruct Hfind.
      * apply list_elem_of_In, elem_of_compatible_pairs. done.
  - intros Hnone. destruct (find _ _) as [[b r]|] eqn:Hfind; [|done].
    apply find_some in Hfind as [Hin Hp]. apply bool_decide_eq_true in Hp as [-> ->].
    apply list_elem_of_In, elem_of_compatible_pairs in Hin.
    by destruct (Hnone b r eq_refl eq_refl).
Qed.

(** X19.  [SparseBoundaryOperator.weak_form] never raises its own "Unknown data
    type" error: when the weak form of the base class has returned, its dtype
    is one of [dtypes], so the conversion is always made. *)
Theorem sparse_weak_form_knows_its_data_type bt rt impl_ :
  sparse_weak_form bt rt impl_ =
    match general_weak_form bt rt impl_ with
    | inl e => inl e
    | inr discrete_operator => inr (sparse_from_discrete_operator discrete_operator)
    end.
Proof.
  unfold sparse_weak_form.
  destruct (general_weak_form bt rt impl_) as [e|d] eqn:Hg; [done|].
  rewrite bool_decide_eq_true_2; [done|].
  unfold general_weak_form in Hg.
  destruct (find _ _) as [[b r]|] eqn:Hfind; [|done].
  apply find_some in Hfind as [Hin Hp]. apply bool_decide_eq_true in Hp as [-> ->].
  apply list_elem_of_In, elem_of_compatible_pairs in Hin as (_ & Hr & _).
  apply Exists_exists. by exists r.
Qed.

(** *** Expressions

    The operators at the leaves of an expression built with [+], [-] and
    scalar factors, from left to right. *)
Fixpoint leaves (self : BoundaryOperatorBase) : list BoundaryOperatorBase :=
  match self with
  | GeneralObj _ _ _ _ => [self]
  | ScaledObj _ _ _op _ _ => leaves _op
  | SumObj _ _ _op1 _op2 _ => leaves _op1 ++ leaves _op2
  end.

(** X20.  [weak_form] of an expression skips no operand: if it returns, the weak
    form of every leaf has been taken and has returned; and the leftmost leaf
    comes first, so that an error it raises is the error of the expression. *)
Theorem weak_form_discretizes_every_leaf (self : BoundaryOperatorBase) :
  (forall d, weak_form self = inr d ->
     Forall (fun leaf => exists d', weak_form leaf = inr d') (leaves self)) /\
  (forall leaf rest e, leaves self = leaf :: rest ->
     weak_form leaf = inl e -> weak_form self = inl e).
Proof.
  induction self as [cls bt rt impl_|bt rt op IH lbl alpha|bt rt op1 IH1 op2 IH2 lbl].
  - split.
    + intros d Hd. apply Forall_singleton. eauto.
    + intros leaf rest e [= <- <-]. done.
  - destruct IH as [IHok IHerr]. split.
    + intros d Hd. simpl in *. destruct (weak_form op) as [e|d'] eqn:Hop; [done|].
      by eapply IHok.
    + intros leaf rest e Hl He. simpl in *. by rewrite (IHerr leaf rest e).
  - destruct IH1 as [IH1ok IH1err], IH2 as [IH2ok IH2err]. split.
    + intros d Hd. simpl in *.
      destruct (weak_form op1) as [e|d1] eqn:Hop1; [done|].
      destruct (weak_form op2) as [e|d2] eqn:Hop2; [done|].
      apply Forall_app. split; [by eapply IH1ok|by eapply IH2ok].
    + intros leaf rest e Hl He. simpl in Hl.
      destruct (leaves op1) as [|leaf1 rest1] eqn:Hl1.
      * clear -Hl1. exfalso. induction op1; simpl in *; try done.
        by apply app_eq_nil in Hl1 as [? ?]; auto.
      * simpl in Hl. simplify_eq. simpl. by rewrite (IH1err leaf rest1 e).
Qed.

(** *** Applying an expression to a grid function

    What the three [_apply_grid_function] methods do with the Python grid
    function they are given rests on [bempp.assembly.grid_function] and on the
    discrete operators: [is_compatible d g] is [d.is_compatible(g.space)],
    [g_coefficients] is [g.coefficients], [discrete_apply] is [op_w * coeffs],
    [make_grid_function] is the constructor call of the last line, and
    [g_scale], [g_add] are [alpha * g] and [g1 + g2] on grid functions. *)
Variable Vector : Type.
Variable is_compatible : PySpace -> GridFunctionObj -> bool.
Variable g_coefficients : GridFunctionObj -> PyException + Vector.
Variable discrete_apply : DiscreteOperator -> Vector -> PyException + Vector.
Variable make_grid_function :
  option PySpace -> option PySpace -> Vector -> GridFunctionObj ->
  PyException + GridFunctionObj.
Variable g_scale : T -> GridFunctionObj -> PyException + GridFunctionObj.
Variable g_add : GridFunctionObj -> GridFunctionObj -> PyException + GridFunctionObj.

(** [_apply_grid_function] of each class.  In the scaled and the sum
    operator, [self._op * g] is [__mul__] with a grid function, that is
    [_apply_grid_function] of the operand.  [self.domain] of a general
    operator may be [None], which has no attribute [is_compatible]. *)
Fixpoint apply_grid_function (self : BoundaryOperatorBase) (g : GridFunctionObj)
    : PyException + GridFunctionObj :=
  match self with
  | GeneralObj _ _ _ impl_ =>
    match domain self with
    | inl e => inl e
    | inr None => inl (AttributeError "is_compatible")
    | inr (Some self_domain) =>
      if negb (is_compatible self_domain g) then inl (ValueError "Spaces do not match")
      else
        match weak_form self with
        | inl e => inl e
        | inr op_w =>
          match g_coefficients g with
          | inl e => inl e
          | inr coeffs =>
            match discrete_apply op_w coeffs with
            | inl e => inl e
            | inr result_projections =>
              match range self with
              | inl e => inl e
              | inr self_range =>
                match dual_to_range self with
                | inl e => inl e
                | inr self_dual_to_range =>
                  make_grid_function self_range self_dual_to_range
                                     result_projections g
                end
              end
            end
          end
        end
    end
  | ScaledObj _ _ _op _ _alpha =>
    match apply_grid_function _op g with
    | inl e => inl e
    | inr r => g_scale _alpha r
    end
  | SumObj _ _ _op1 _op2 _ =>
    match apply_grid_function _op1 g with
    | inl e => inl e
    | inr r1 =>
      match apply_grid_function _op2 g with
      | inl e => inl e
      | inr r2 => g_add r1 r2
      end
    end
  end.

(** X21.  The order of the checks when a general operator is applied to a grid
    function: an operator without a valid domain fails on the attribute
    lookup; with a domain that is not compatible with the space of the grid
    function the [ValueError] is raised, whatever the types of the operator
    are; only then is the weak form taken, and its error is passed on. *)
Theorem apply_grid_function_checks_domain_first cls bt rt impl_ g :
  let self := GeneralObj cls bt rt impl_ in
  let self_domain := {| space_impl_ := impl_domain impl_ |} in
  (valid_domain impl_ = false ->
     apply_grid_function self g = inl (AttributeError "is_compatible")) /\
  (valid_domain impl_ = true -> is_compatible self_domain g = false ->
     apply_grid_function self g = inl (ValueError "Spaces do not match")) /\
  (valid_domain impl_ = true -> is_compatible self_domain g = true ->
     forall e, weak_form self = inl e -> apply_grid_function self g = inl e).
Proof.
  simpl. split_and!.
  - intros ->. done.
  - intros -> Hc. simpl. by rewrite Hc.
  - intros -> Hc e He. simpl. rewrite Hc. simpl. destruct cls; by rewrite He.
Qed.

(** X22.  Applying an expression applies every leaf: if the result is a grid
    function, each leaf operator has a valid domain compatible with the space
    of the argument and has been discretized. *)
Theorem apply_grid_function_applies_every_leaf self g r :
  apply_grid_function self g = inr r ->
  Forall (fun leaf =>
            exists self_domain d,
              domain leaf = inr (Some self_domain) /\
              is_compatible self_domain g = true /\
              weak_form leaf = inr d)
         (leaves self).
Proof.
  induction self as [cls bt rt impl_|bt rt op IH lbl alpha|bt rt op1 IH1 op2 IH2 lbl]
    in r |- *.
  - intros Happ. apply Forall_singleton. simpl in Happ.
    destruct (valid_domain impl_) eqn:Hv; simpl in Happ; [|done].
    exists {| space_impl_ := impl_domain impl_ |}.
    destruct (is_compatible _ g) eqn:Hc; simpl in Happ; [|done].
    destruct (weak_form (GeneralObj cls bt rt impl_)) as [e|d] eqn:Hw.
    { simpl in Hw. by rewrite Hw in Happ. }
    exists d. simpl. by rewrite Hv.
  - intros Happ. simpl in *.
    destruct (apply_grid_function op g) as [e|r'] eqn:Hop; [done|]. by eapply IH.
  - intros Happ. simpl in *.
    destruct (apply_grid_function op1 g) as [e|r1] eqn:Hop1; [done|].
    destruct (apply_grid_function op2 g) as [e|r2] eqn:Hop2; [done|].
    apply Forall_app. split; [by eapply IH1|by eapply IH2].
Qed.

End BoundaryOperator.

(** ** Two double-precision operators "A" and "B" *)

Definition example_dtypes : list string := ["float64"; "complex128"].

Definition example_compatible_dtypes (pybasis : string) : list string :=
  if decide (pybasis = "float64") then ["float64"; "complex128"]
  else if decide (pybasis = "complex128") then ["complex128"]
  else [].

Definition example_combined_type (a b : dtype) : dtype :=
  if decide (a = Some "complex128") then a else b.

Definition example_scalar_dtype (_ : float) : dtype := Some "float64".

Definition example_impl (name : string) : BoundaryOpVariants :=
  {| valid_domain := true; valid_range := true; valid_dual_to_range := false;
     impl_domain := Some GridFn.exampleSpace; impl_range := Some GridFn.exampleSpace;
     impl_dual_to_range := None; impl_label := name |}.

Definition example_variant_weak_form (_ _ : string) (impl_ : BoundaryOpVariants)
    : PyException + DiscreteOperator (T := float) :=
  inr (Dense (if decide (impl_label impl_ = "A")
              then [[1; 2]; [3; 4]]%float
              else [[10; 20]; [30; 40]]%float)).

Definition example_A : BoundaryOperatorBase (T := float) :=
  GeneralBoundaryOperator (Some "float64") (Some "float64") (example_impl "A").
Definition example_B : BoundaryOperatorBase (T := float) :=
  GeneralBoundaryOperator (Some "float64") (Some "float64") (example_impl "B").

Abbreviation example_weak_form :=
  (weak_form example_dtypes example_compatible_dtypes example_variant_weak_form id).

Lemma sum_weak_form_is_elementwise_sum_witness :
  exists d,
    example_weak_form (__add__ example_combined_type example_A example_B) = inr d /\
    materialize d = madd [[1; 2]; [3; 4]]%float [[10; 20]; [30; 40]]%float /\
    hasShape 2 2 (materialize d) /\
    forall i j x y,
      entry [[1; 2]; [3; 4]]%float i j = Some x ->
      entry [[10; 20]; [30; 40]]%float i j = Some y ->
      entry (materialize d) i j = Some (s_add x y).
Proof.
  apply (sum_weak_form_is_elementwise_sum
           example_dtypes example_compatible_dtypes example_combined_type
           example_variant_weak_form id example_A example_B
           (Dense [[1; 2]; [3; 4]]%float) (Dense [[10; 20]; [30; 40]]%float) 2 2).
  - reflexivity.
  - reflexivity.
  - split; [reflexivity | repeat constructor].
  - split; [reflexivity | repeat constructor].
Defined.

Example sum_weak_form_example :
  exists d,
    example_weak_form (__add__ example_combined_type example_A example_B) = inr d /\
    materialize d = [[11; 22]; [33; 44]]%float.
Proof. eexists. split; reflexivity. Qed.

Example difference_label_example :
  label (__sub__ example_combined_type example_scalar_dtype example_A example_B) = "(A+)".
Proof. reflexivity. Qed.

Example accessors_example :
  domain example_A = inr (Some {| space_impl_ := Some GridFn.exampleSpace |}) /\
  dual_to_range example_A = inr None.
Proof. split; reflexivity. Qed.

(** Grid functions stood for by their coefficient vectors, and the dense
    form of a discrete operator applied as a matrix. *)
Definition example_discrete_apply (d : DiscreteOperator (T := float)) (v : list float)
    : PyException + list float :=
  inr (map (fun row => foldl PrimFloat.add 0%float (zip_with PrimFloat.mul row v))
           (materialize d)).

Abbreviation example_apply_grid_function :=
  (apply_grid_function example_dtypes example_compatible_dtypes
     example_variant_weak_form id (list float) (list float)
     (fun _ _ => true) inr example_discrete_apply (fun _ _ v _ => inr v)
     (fun alpha g => inr (map (PrimFloat.mul alpha) g))
     (fun g1 g2 => inr (zip_with PrimFloat.add g1 g2))).

Example apply_grid_function_example :
  example_apply_grid_function (__add__ example_combined_type example_A example_B)
    [1; 1]%float = inr [33; 77]%float.
Proof. reflexivity. Qed.

Lemma apply_grid_function_applies_every_leaf_witness :
  Forall (fun leaf =>
            exists self_domain d,
              domain leaf = inr (Some self_domain) /\
              true = true /\ example_weak_form leaf = inr d)
         [example_A; example_B].
Proof.
  apply (apply_grid_function_applies_every_leaf
           example_dtypes example_compatible_dtypes example_variant_weak_form id
           (list float) (list float)
           (fun _ _ => true) inr example_discrete_apply (fun _ _ v _ => inr v)
           (fun alpha g => inr (map (PrimFloat.mul alpha) g))
           (fun g1 g2 => inr (zip_with PrimFloat.add g1 g2))
           (__add__ example_combined_type example_A example_B)
           [1; 1]%float [33; 77]%float).
  reflexivity.
Defined.

(** An operator constructed without types, and one with a complex basis and
    a real result: no weak form.  An operator without a valid domain cannot be
    applied. *)
Example weak_form_incompatible_types_example :
  example_weak_form (GeneralBoundaryOperator None None (example_impl "A")) =
    inl (ValueError "Incompatible basis and result types") /\
  example_weak_form
    (SparseBoundaryOperator (Some "complex128") (Some "float64") (example_impl "A")) =
    inl (ValueError "Incompatible basis and result types") /\
  example_weak_form
    (__add__ example_combined_type
       (GeneralBoundaryOperator None None (example_impl "A")) example_B) =
    inl (ValueError "Incompatible basis and result types").
Proof. repeat split. Qed.

Example apply_grid_function_invalid_domain_example :
  example_apply_grid_function
    (GeneralBoundaryOperator (Some "float64") (Some "float64")
       {| valid_domain := false; valid_range := true; valid_dual_to_range := true;
          impl_domain := None; impl_range := Some GridFn.exampleSpace;
          impl_dual_to_range := Some GridFn.exampleSpace; impl_label := "A" |})
    [1; 1]%float = inl (AttributeError "is_compatible").
Proof. reflexivity. Qed.

End BoundaryOp.

(** * interpolated_function.cpp *)

Module Interpolated.

(** A grid is an external collaborator.  What the class reads from it: its
    address (the member is a reference), [dimWorld()], and the number of
    vertices of its leaf view, [leafView()->entityCount(dim())]. *)
Record Grid := {
  gridAddress : nat;
  dimWorld : nat;
  vertexCount : nat
}.

Section InterpolatedFunction.

Context {ValueType : Type} `{Scalar ValueType}.

(** The enumeration [InterpolationMethod] is declared in the header; the
    source names one member. *)
Context {InterpolationMethod : Type} `{EqDecision InterpolationMethod}.
Variable LINEAR : InterpolationMethod.

(** [arma::Mat<ValueType>]: the two dimensions and the entries, column by
    column. *)
Record Mat := {
  n_rows : nat;
  n_cols : nat;
  mem : list ValueType
}.

(** Armadillo's in-place [a += b] and [a -= b]: the sizes must agree (the
    check is active unless [ARMA_NO_DEBUG]; its failure is recorded as a
    failed assertion). *)
Definition inplaceElementwise (f : ValueType -> ValueType -> ValueType) (a b : Mat)
    : Exception + Mat :=
  if (n_rows a =? n_rows b) && (n_cols a =? n_cols b)
  then inr {| n_rows := n_rows a; n_cols := n_cols a;
              mem := zip_with f (mem a) (mem b) |}
  else inl (assertion_failed "incompatible matrix dimensions").

(** Armadillo's in-place [a *= val]. *)
Definition inplaceScale (a : Mat) (val : ValueType) : Mat :=
  {| n_rows := n_rows a; n_cols := n_cols a;
     mem := map (fun x => s_mul x val) (mem a) |}.

Record InterpolatedFunction := {
  m_grid : Grid;                      (* const Grid& *)
  m_vertexValues : Mat;
  m_method : InterpolationMethod
}.

Definition set_m_vertexValues (v : Mat) (self : InterpolatedFunction) :=
  {| m_grid := m_grid self; m_vertexValues := v; m_method := m_method self |}.

(** [InterpolatedFunction(grid, vertexValues, method)] *)
Definition InterpolatedFunction_new (grid : Grid) (vertexValues : Mat)
    (method : InterpolationMethod) : Exception + InterpolatedFunction :=
  if negb (vertexCount grid =? n_cols vertexValues) then
    inl (invalid_argument
      "VolumeGridFunction::VolumeGridFunction(): dimension of expansionCoefficients does not match the number of grid vertices")
  else if negb (bool_decide (method = LINEAR)) then
    inl (invalid_argument "VolumeGridFunction::VolumeGridFunction(): invalid interpolation method")
  else inr {| m_grid := grid; m_vertexValues := vertexValues; m_method := method |}.

Definition worldDimension (self : InterpolatedFunction) : nat := dimWorld (m_grid self).

Definition codomainDimension (self : InterpolatedFunction) : nat :=
  n_rows (m_vertexValues self).

Definition incompatibleOperands : Exception :=
  runtime_error "InterpolatedFunction::checkCompatibility(): incompatible operands".

(** [checkCompatibility(other)] *)
Definition checkCompatibility (self other : InterpolatedFunction) : Exception + unit :=
  if negb (gridAddress (m_grid self) =? gridAddress (m_grid other))
     || negb (n_rows (m_vertexValues self) =? n_rows (m_vertexValues other))
     || negb (n_cols (m_vertexValues self) =? n_cols (m_vertexValues other))
     || negb (bool_decide (m_method self = m_method other))
  then inl incompatibleOperands
  else inr tt.

(** [operator+=] and [operator-=]: the check, then the in-place operation. *)
Definition compoundAssign (f : ValueType -> ValueType -> ValueType)
    (rhs : InterpolatedFunction) : Method InterpolatedFunction unit := fun self =>
  match checkCompatibility self rhs with
  | inl e => (inl e, self)
  | inr _ =>
    match inplaceElementwise f (m_vertexValues self) (m_vertexValues rhs) with
    | inl e => (inl e, self)
    | inr v => (inr tt, set_m_vertexValues v self)
    end
  end.

Definition operator_add_assign := compoundAssign s_add.
Definition operator_sub_assign := compoundAssign GridFn.s_sub.

(** [operator*=(rhs)] and [operator/=(rhs)], the latter multiplying by
    [1. / rhs]. *)
Definition operator_mul_assign (rhs : ValueType) : Method InterpolatedFunction unit :=
  fun self => (inr tt, set_m_vertexValues (inplaceScale (m_vertexValues self) rhs) self).

Definition operator_div_assign (rhs : ValueType) : Method InterpolatedFunction unit :=
  fun self =>
    (inr tt, set_m_vertexValues
               (inplaceScale (m_vertexValues self) (s_div s_one rhs)) self).

(** The binary operators work on a copy of [*this], which they return. *)
Definition onCopy (m : Method InterpolatedFunction unit) (self : InterpolatedFunction)
    : Exception + InterpolatedFunction :=
  match m self with
  | (inl e, _) => inl e
  | (inr _, copy) => inr copy
  end.

Definition operator_add (self other : InterpolatedFunction) :=
  onCopy (operator_add_assign other) self.
Definition operator_sub (self other : InterpolatedFunction) :=
  onCopy (operator_sub_assign other) self.
Definition operator_mul (self : InterpolatedFunction) (other : ValueType) :=
  onCopy (operator_mul_assign other) self.
Definition operator_div (self : InterpolatedFunction) (other : ValueType) :=
  onCopy (operator_div_assign other) self.

(** [operator*(lhs, rhs)] with the scalar on the left. *)
Definition operator_mul_left (lhs : ValueType) (rhs : InterpolatedFunction) :=
  onCopy (operator_mul_assign lhs) rhs.

(** What the constructor establishes: one column of values per grid vertex,
    linear interpolation, and a matrix holding as many entries as its
    dimensions say. *)
Definition wellFormed (self : InterpolatedFunction) : Prop :=
  n_cols (m_vertexValues self) = vertexCount (m_grid self) /\
  m_method self = LINEAR /\
  length (mem (m_vertexValues self)) =
    n_rows (m_vertexValues self) * n_cols (m_vertexValues self).

Definition compatible (self other : InterpolatedFunction) : Prop :=
  checkCompatibility self other = inr tt.

Lemma compatible_iff self other :
  compatible self other <->
  gridAddress (m_grid self) = gridAddress (m_grid other) /\
  n_rows (m_vertexValues self) = n_rows (m_vertexValues other) /\
  n_cols (m_vertexValues self) = n_cols (m_vertexValues other) /\
  m_method self = m_method other.
Proof.
  unfold compatible, checkCompatibility.
  destruct (gridAddress (m_grid self) =? gridAddress (m_grid other)) eqn:Hg;
  destruct (n_rows (m_vertexValues self) =? n_rows (m_vertexValues other)) eqn:Hr;
  destruct (n_cols (m_vertexValues self) =? n_cols (m_vertexValues other)) eqn:Hc;
  case_bool_decide as Hm; simpl;
  rewrite ?Nat.eqb_eq, ?Nat.eqb_neq in *; split; try done; intros (? & ? & ? & ?); done.
Qed.

Lemma not_compatible self other :
  ~ compatible self other -> checkCompatibility self other = inl incompatibleOperands.
Proof.
  unfold compatible, checkCompatibility. by destruct (_ || _).
Qed.

Lemma compoundAssign_compatible f rhs self :
  compatible self rhs ->
  compoundAssign f rhs self =
    (inr tt, {| m_grid := m_grid self;
                m_vertexValues :=
                  {| n_rows := n_rows (m_vertexValues self);
                     n_cols := n_cols (m_vertexValues self);
                     mem := zip_with f (mem (m_vertexValues self))
                                       (mem (m_vertexValues rhs)) |};
                m_method := m_method self |}).
Proof.
  intros Hc. unfold compoundAssign. rewrite Hc.
  apply compatible_iff in Hc as (_ & Hr & Hcol & _).
  unfold inplaceElementwise. apply Nat.eqb_eq in Hr, Hcol. by rewrite Hr, Hcol.
Qed.

(** X23.  The constructor accepts exactly a matrix with one column per vertex of
    the grid together with the method [LINEAR]; the number of columns is
    tested first and every failure is an [std::invalid_argument].  The object
    holds the three arguments. *)
Theorem InterpolatedFunction_new_checks grid vertexValues method :
  match InterpolatedFunction_new grid vertexValues method with
  | inr f =>
    n_cols vertexValues = vertexCount grid /\ method = LINEAR /\
    f = {| m_grid := grid; m_vertexValues := vertexValues; m_method := method |} /\
    (length (mem vertexValues) = n_rows vertexValues * n_cols vertexValues ->
     wellFormed f)
  | inl e =>
    (n_cols vertexValues <> vertexCount grid \/ method <> LINEAR) /\
    (exists what, e = invalid_argument what) /\
    (n_cols vertexValues <> vertexCount grid ->
     e = invalid_argument
       "VolumeGridFunction::VolumeGridFunction(): dimension of expansionCoefficients does not match the number of grid vertices")
  end.
Proof.
  unfold InterpolatedFunction_new.
  destruct (vertexCount grid =? n_cols vertexValues) eqn:Hn; simpl.
  - apply Nat.eqb_eq in Hn. case_bool_decide as Hm; simpl.
    + split_and!; try done; intros Hlen; by split_and!.
    + split_and!; [by right|by eexists|]. intros Hne. by destruct Hne.
  - apply Nat.eqb_neq in Hn. split_and!; [by left|by eexists|done].
Qed.

(** X24.  Compatibility of operands is an equivalence relation, and it is all
    that the sum and the difference need: [a + b] and [a - b] return a
    function exactly when [a] and [b] are compatible, and fail with the
    error of [checkCompatibility] otherwise, never on Armadillo's own size
    check.  So [a + b] is defined exactly when [b + a] is. *)
Theorem compatible_is_equivalence :
  (forall a, compatible a a) /\
  (forall a b, compatible a b -> compatible b a) /\
  (forall a b c, compatible a b -> compatible b c -> compatible a c) /\
  (forall a b,
     (compatible a b <-> exists r, operator_add a b = inr r) /\
     (compatible a b <-> exists r, operator_sub a b = inr r) /\
     (~ compatible a b ->
        operator_add a b = inl incompatibleOperands /\
        operator_sub a b = inl incompatibleOperands)).
Proof.
  split_and!.
  - intros a. by apply compatible_iff.
  - intros a b (? & ? & ? & ?)%compatible_iff. by apply compatible_iff.
  - intros a b c (? & ? & ? & ?)%compatible_iff (? & ? & ? & ?)%compatible_iff.
    apply compatible_iff. split_and!; congruence.
  - intros a b.
    assert (forall f, ~ compatible a b ->
              onCopy (compoundAssign f b) a = inl incompatibleOperands) as Hfail.
    { intros f Hn. unfold onCopy, compoundAssign. by rewrite not_compatible. }
    assert (forall f, compatible a b <-> exists r, onCopy (compoundAssign f b) a = inr r)
      as Hiff.
    { intros f. split.
      - intros Hc. unfold onCopy. rewrite compoundAssign_compatible by done. eauto.
      - intros [r Hr]. unfold compatible.
        destruct (checkCompatibility a b) as [e|[]] eqn:Hc; [|done].
        unfold onCopy, compoundAssign in Hr. by rewrite Hc in Hr. }
    split_and!; [apply Hiff|apply Hiff|].
    intros Hn. split; by apply Hfail.
Qed.

Lemma scaled_wellFormed self val :
  wellFormed self ->
  let r := set_m_vertexValues (inplaceScale (m_vertexValues self) val) self in
  wellFormed r /\ compatible r self.
Proof.
  intros (Hn & Hm & Hl). split.
  - split_and!; simpl; try done. by rewrite length_map.
  - by apply compatible_iff.
Qed.

(** X25.  On well-formed, compatible operands the sum and the difference are
    well-formed functions compatible with the operands, holding the
    elementwise sums (differences) of the vertex values; a multiple and a
    quotient by any scalar, zero included, are well-formed and compatible
    with the operand, each value being multiplied from the right by the
    scalar, or by [1 / scalar]; and the scalar may stand on either side. *)
Theorem operators_preserve_wellFormed self other alpha :
  wellFormed self -> wellFormed other -> compatible self other ->
  (exists r, operator_add self other = inr r /\ wellFormed r /\ compatible r self /\
     mem (m_vertexValues r) =
       zip_with s_add (mem (m_vertexValues self)) (mem (m_vertexValues other))) /\
  (exists r, operator_sub self other = inr r /\ wellFormed r /\ compatible r self /\
     mem (m_vertexValues r) =
       zip_with (fun x y => s_add x (s_opp y))
                (mem (m_vertexValues self)) (mem (m_vertexValues other))) /\
  (exists r, operator_mul self alpha = inr r /\ wellFormed r /\ compatible r self /\
     mem (m_vertexValues r) = map (fun x => s_mul x alpha) (mem (m_vertexValues self))) /\
  (exists r, operator_div self alpha = inr r /\ wellFormed r /\ compatible r self /\
     mem (m_vertexValues r) =
       map (fun x => s_mul x (s_div s_one alpha)) (mem (m_vertexValues self))) /\
  operator_mul_left alpha self = operator_mul self alpha.
Proof.
  intros Hwf Hwf' Hc.
  assert (forall f, exists r, onCopy (compoundAssign f other) self = inr r /\
            wellFormed r /\ compatible r self /\
            mem (m_vertexValues r) =
              zip_with f (mem (m_vertexValues self)) (mem (m_vertexValues other)))
    as Hbin.
  { intros f. unfold onCopy. rewrite compoundAssign_compatible by done.
    eexists. split; [done|]. simpl.
    destruct Hwf as (Hn & Hm & Hl), Hwf' as (Hn' & Hm' & Hl').
    apply compatible_iff in Hc as (? & Hr & Hcol & ?).
    split_and!; try done.
    - split_and!; simpl; try done. rewrite length_zip_with, Hl, Hl', Hr, Hcol. lia.
    - by apply compatible_iff. }
  split_and!.
  - apply (Hbin s_add).
  - apply (Hbin GridFn.s_sub).
  - eexists. split; [done|]. split_and!; [apply scaled_wellFormed..|]; done.
  - eexists. split; [done|]. split_and!; [apply scaled_wellFormed..|]; done.
  - done.
Qed.

End InterpolatedFunction.

(** *** Height and temperature at the two vertices of a segment *)

Definition segment : Grid := {| gridAddress := 1; dimWorld := 2; vertexCount := 2 |}.

(** The enumeration with [LINEAR] and one further member. *)
Inductive ExampleMethod := ExampleLinear | ExampleOther.

#[export] Instance ExampleMethod_eq_dec : EqDecision ExampleMethod.
Proof. solve_decision. Defined.

Definition exampleFunction (values : list float) : InterpolatedFunction (ValueType := float) :=
  {| m_grid := segment;
     m_vertexValues := {| n_rows := 2; n_cols := 2; mem := values |};
     m_method := ExampleLinear |}.

Lemma exampleFunction_wellFormed a b c d :
  wellFormed ExampleLinear (exampleFunction [a; b; c; d]).
Proof. by split_and!. Qed.

Lemma operators_preserve_wellFormed_witness :
  (exists r,
     operator_add (exampleFunction [1; 2; 3; 4]%float)
                  (exampleFunction [10; 20; 30; 40]%float) = inr r /\
     wellFormed ExampleLinear r /\
     mem (m_vertexValues r) = [11; 22; 33; 44]%float) /\
  (exists r,
     operator_div (exampleFunction [1; 2; 3; 4]%float) 0%float = inr r /\
     wellFormed ExampleLinear r /\
     mem (m_vertexValues r) = [infinity; infinity; infinity; infinity]%float).
Proof.
  assert (compatible (exampleFunction [1; 2; 3; 4]%float)
                     (exampleFunction [10; 20; 30; 40]%float)) as Hc by reflexivity.
  destruct (operators_preserve_wellFormed ExampleLinear
    (exampleFunction [1; 2; 3; 4]%float) (exampleFunction [10; 20; 30; 40]%float)
    0%float (exampleFunction_wellFormed _ _ _ _) (exampleFunction_wellFormed _ _ _ _) Hc)
    as ((r & Hadd & Hwf & _ & Hmem) & _ & _ & (r' & Hdiv & Hwf' & _ & Hmem') & _).
  split.
  - exists r. split; [exact Hadd|]. split; [exact Hwf|exact Hmem].
  - exists r'. split; [exact Hdiv|]. split; [exact Hwf'|exact Hmem'].
Defined.

(** Dividing by zero throws nothing: the values become infinite. *)
Example operator_div_by_zero_example :
  operator_div (exampleFunction [1; -2; 3; 4]%float) 0%float
    = inr (exampleFunction [infinity; neg_infinity; infinity; infinity]%float).
Proof. reflexivity. Qed.

Example InterpolatedFunction_new_example :
  InterpolatedFunction_new ExampleLinear segment
    {| n_rows := 2; n_cols := 2; mem := [1; 2; 3; 4]%float |} ExampleLinear =
    inr (exampleFunction [1; 2; 3; 4]%float) /\
  (exists what,
     InterpolatedFunction_new ExampleLinear segment
       {| n_rows := 2; n_cols := 3; mem := [1; 2; 3; 4; 5; 6]%float |} ExampleOther =
       inl (invalid_argument what) /\
     String.prefix "VolumeGridFunction::VolumeGridFunction(): dimension" what = true) /\
  operator_add (exampleFunction [1; 2; 3; 4]%float)
    {| m_grid := segment;
       m_vertexValues := {| n_rows := 1; n_cols := 2; mem := [1; 2]%float |};
       m_method := ExampleLinear |} = inl incompatibleOperands.
Proof. split_and!; [done| |done]. eexists. split; reflexivity. Qed.

End Interpolated.

(** * The Python functor of the SWIG interface

    [PythonSurfaceNormalIndependentFunctor_<NPY_NAME>] wraps a Python
    callable as a functor; [evaluate] calls it through the C API of Python and
    NumPy and owns the references it is handed until it releases them. *)

Module PyFunctor.

(** The local pointers of [evaluate] that may each hold one reference. *)
Inductive Reference := pyPoint | pyReturnVal | pyReturnValArray | pyReturnValArrayCont.

#[export] Instance Reference_eq_dec : EqDecision Reference.
Proof. solve_decision. Defined.

(** The references a call of [evaluate] holds at a moment, latest first. *)
Definition Held : Type := list Reference.

Definition acquire (r : Reference) : Method Held unit := fun held => (inr tt, r :: held).

Fixpoint release (r : Reference) (held : Held) : Held :=
  match held with
  | [] => []
  | r' :: held' => if decide (r = r') then held' else r' :: release r held'
  end.

Definition Py_XDECREF (r : Reference) : Method Held unit :=
  fun held => (inr tt, release r held).

Section PythonSurfaceNormalIndependentFunctor.

Context {ValueType CoordinateType PyObject : Type}.

(** [pdata[i] = point(i)] converts a coordinate to [TYPE]. *)
Variable fromCoordinate : CoordinateType -> ValueType.

(** A NumPy array: its dimensions and, once contiguous, its entries. *)
Record NdArray := { shape : list nat; data : list ValueType }.

(** The calls into Python and NumPy.  [PyArray_ZEROS_succeeds n] tells
    whether the array of [n] entries could be allocated; the two calls that
    may return [NULL] return an [option]; the conversion to a contiguous array
    returns the array and [is_new_object]. *)
Variable PyArray_ZEROS_succeeds : nat -> bool.
Variable PyObject_CallFunctionObjArgs : PyObject -> list ValueType -> option PyObject.
Variable PyArray_FROM_OT : PyObject -> option NdArray.
Variable obj_to_array_contiguous_allow_conversion : NdArray -> NdArray * bool.

Record Functor := {
  m_pyFunc : PyObject;
  m_argumentDimension : Z;
  m_resultDimension : Z
}.

Definition argumentDimension (self : Functor) : Z := m_argumentDimension self.
Definition resultDimension (self : Functor) : Z := m_resultDimension self.

(** The loop [for (i < m_resultDimension) result_(i) = data[i]], from [i] on
    with [count] rounds to go.  Armadillo checks the index into [result_];
    reading past the entries of the array is recorded as a failure too. *)
Fixpoint copyBack (i count : nat) (data : list ValueType) (result_ : list ValueType)
    : Exception + list ValueType :=
  match count with
  | 0 => inr result_
  | S count' =>
    match data !! i with
    | None => inl (assertion_failed "read past the array")
    | Some x =>
      if decide (i < length result_) then copyBack (S i) count' data (<[i := x]> result_)
      else inl (assertion_failed "index out of bounds")
    end
  end.

(** The four lines under "Clean up", which also precede two of the throws. *)
Definition cleanUp (is_new_object : bool) : Method Held unit :=
  let* _u := Py_XDECREF pyPoint in
  let* _u := Py_XDECREF pyReturnVal in
  let* _u := Py_XDECREF pyReturnValArray in
  if is_new_object then Py_XDECREF pyReturnValArrayCont else ret tt.

(** [evaluate(point, result_)]; the value is [result_] on return. *)
Definition evaluate (self : Functor) (point : list CoordinateType)
    (result_ : list ValueType) : Method Held (list ValueType) :=
  if negb (PyArray_ZEROS_succeeds (length point)) then
    throw (runtime_error "Point array creation failed")
  else
    let* _u := acquire pyPoint in
    let pdata := map fromCoordinate point in
    match PyObject_CallFunctionObjArgs (m_pyFunc self) pdata with
    | None =>
      let* _u := Py_XDECREF pyPoint in
      throw (runtime_error "Callable did not execute successfully")
    | Some returnVal =>
      let* _u := acquire pyReturnVal in
      match PyArray_FROM_OT returnVal with
      | None =>
        let* _u := Py_XDECREF pyPoint in
        let* _u := Py_XDECREF pyReturnVal in
        throw (runtime_error "Result from callable cannot be converted to array.")
      | Some returnValArray =>
        let* _u := acquire pyReturnValArray in
        let (returnValArrayCont, is_new_object) :=
          obj_to_array_contiguous_allow_conversion returnValArray in
        let* _u := (if is_new_object then acquire pyReturnValArrayCont else ret tt) in
        let* asize :=
          (match shape returnValArrayCont with
           | [] => ret 1%Z                                  (* PyArray_CheckScalar *)
           | [size0] => ret (Z.of_nat size0)
           | _ =>
             let* _u := cleanUp is_new_object in
             throw (runtime_error "Return array has wrong dimensions!")
           end) in
        if negb (asize =? m_resultDimension self)%Z then
          let* _u := cleanUp is_new_object in
          throw (runtime_error "Return array has wrong dimensions")
        else
          match copyBack 0 (Z.to_nat (m_resultDimension self))
                         (data returnValArrayCont) result_ with
          | inl e => throw e
          | inr result_' =>
            let* _u := cleanUp is_new_object in
            ret result_'
          end
      end
    end.

(** A contiguous array holds as many entries as its dimensions say. *)
Definition wellFormed (a : NdArray) : Prop :=
  length (data a) = foldr Nat.mul 1 (shape a).

Lemma copyBack_spec i count data result_ :
  match copyBack i count data result_ with
  | inr r =>
    length r = length result_ /\
    (count <> 0 -> i + count <= length data /\ i + count <= length result_) /\
    forall j, r !! j = if decide (i <= j < i + count) then data !! j else result_ !! j
  | inl _ => count <> 0 /\ ~ (i + count <= length data /\ i + count <= length result_)
  end.
Proof.
  induction count as [|count IH] in i, result_ |- *; simpl.
  - split_and!; [done|done|]. intros j. destruct (decide _); [lia|done].
  - destruct (data !! i) as [x|] eqn:Hx.
    + apply lookup_lt_Some in Hx as Hlt.
      destruct (decide (i < length result_)) as [Hi|Hi].
      * specialize (IH (S i) (<[i := x]> result_)). rewrite length_insert in IH.
        destruct (copyBack _ _ _ _) as [e|r].
        -- destruct IH as [Hc Hn]. split; [done|]. intros [? ?]. apply Hn. lia.
        -- destruct IH as (Hlen & Hb & Hval). split_and!; [done| |].
           ++ intros _. destruct count; [lia|]. destruct Hb; lia.
           ++ intros j. rewrite Hval.
              destruct (decide (S i <= j < S i + count)) as [Hj|Hj].
              ** rewrite decide_True by lia. done.
              ** destruct (decide (j = i)) as [->|Hne].
                 --- rewrite decide_True by lia. by rewrite list_lookup_insert_eq.
                 --- rewrite decide_False by lia. by rewrite list_lookup_insert_ne.
      * split; [done|]. lia.
    + apply lookup_ge_None in Hx. split; [done|]. lia.
Qed.

Lemma copyBack_all data result_ :
  length data <= length result_ ->
  copyBack 0 (length data) data result_ = inr (data ++ drop (length data) result_).
Proof.
  intros Hlen. pose proof (copyBack_spec 0 (length data) data result_) as Hs.
  destruct (copyBack _ _ _ _) as [e|r].
  - destruct Hs as [_ Hn]. destruct Hn. simpl. lia.
  - destruct Hs as (Hl & _ & Hval). f_equal. apply list_eq. intros j. rewrite Hval.
    destruct (decide (j < length data)) as [Hj|Hj].
    + rewrite decide_True by lia. by rewrite lookup_app_l.
    + rewrite decide_False by lia. rewrite lookup_app_r by lia.
      rewrite lookup_drop. f_equal. lia.
Qed.

Lemma cleanUp_releases is_new_object held :
  cleanUp is_new_object
    ((if is_new_object then [pyReturnValArrayCont] else [])
     ++ pyReturnValArray :: pyReturnVal :: pyPoint :: held) = (inr tt, held).
Proof. by destruct is_new_object. Qed.

(** X26.  When the three calls into Python and NumPy succeed, [evaluate] accepts
    a zero-dimensional result if [resultDimension] is 1 and a one-dimensional
    one if its length is [resultDimension], and writes the entries over the
    first rows of [result_]; an array of two or more dimensions is refused,
    whatever its size. *)
Theorem evaluate_accepts_matching_sizes
    self point result_ held returnVal returnValArray cont is_new_object :
  PyArray_ZEROS_succeeds (length point) = true ->
  PyObject_CallFunctionObjArgs (m_pyFunc self) (map fromCoordinate point)
    = Some returnVal ->
  PyArray_FROM_OT returnVal = Some returnValArray ->
  obj_to_array_contiguous_allow_conversion returnValArray = (cont, is_new_object) ->
  wellFormed cont ->
  length (data cont) <= length result_ ->
  (evaluate self point result_ held).1 =
    match shape cont with
    | [] | [_] =>
      if (Z.of_nat (length (data cont)) =? m_resultDimension self)%Z
      then inr (data cont ++ drop (length (data cont)) result_)
      else inl (runtime_error "Return array has wrong dimensions")
    | _ => inl (runtime_error "Return array has wrong dimensions!")
    end.
Proof.
  intros Hz Hcall Hconv Hcont Hwf Hlen.
  unfold evaluate. rewrite Hz. simpl. unfold bind at 1. simpl.
  rewrite Hcall. unfold bind at 1. simpl. rewrite Hconv. unfold bind at 1. simpl.
  rewrite Hcont. unfold wellFormed in Hwf.
  assert (forall asize : Z, asize = Z.of_nat (length (data cont)) ->
    ((let* asize' := ret asize in
      if negb (asize' =? m_resultDimension self)%Z
      then let* _u := cleanUp is_new_object in
           throw (runtime_error "Return array has wrong dimensions")
      else match copyBack 0 (Z.to_nat (m_resultDimension self)) (data cont) result_ with
           | inl e => throw e
           | inr result_' => let* _u := cleanUp is_new_object in ret result_'
           end)
       ((if is_new_object then [pyReturnValArrayCont] else [])
        ++ pyReturnValArray :: pyReturnVal :: pyPoint :: held)).1 =
    if (Z.of_nat (length (data cont)) =? m_resultDimension self)%Z
    then inr (data cont ++ drop (length (data cont)) result_)
    else inl (runtime_error "Return array has wrong dimensions")) as Hrest.
  { intros asize ->. unfold bind at 1, ret at 1.
    destruct (Z.of_nat (length (data cont)) =? m_resultDimension self)%Z eqn:Hm; simpl.
    - apply Z.eqb_eq in Hm. rewrite <- Hm, Nat2Z.id, copyBack_all by done.
      unfold bind. by rewrite cleanUp_releases.
    - unfold bind. by rewrite cleanUp_releases. }
  destruct (shape cont) as [|size0 [|size1 rest]] eqn:Hshape; simpl in Hwf.
  - destruct is_new_object; apply Hrest; rewrite Hwf; done.
  - destruct is_new_object; apply Hrest; rewrite Hwf; f_equal; lia.
  - destruct is_new_object; reflexivity.
Qed.

(** X27.  [evaluate] releases every reference it acquires, whether it returns
    or throws one of its five errors, provided [result_] has a row for each of
    the [resultDimension] entries to be copied and the arrays NumPy hands over
    are well-formed: the references held after the call are those held
    before it. *)
Theorem evaluate_releases_every_reference self point result_ held :
  Z.to_nat (m_resultDimension self) <= length result_ ->
  (forall returnVal returnValArray,
     PyArray_FROM_OT returnVal = Some returnValArray ->
     wellFormed (obj_to_array_contiguous_allow_conversion returnValArray).1) ->
  (evaluate self point result_ held).2 = held.
Proof.
  intros Hlen Hwf. unfold evaluate.
  destruct (PyArray_ZEROS_succeeds (length point)); simpl; [|done].
  unfold bind at 1. simpl.
  destruct (PyObject_CallFunctionObjArgs _ _) as [returnVal|]; [|done].
  unfold bind at 1. simpl.
  destruct (PyArray_FROM_OT returnVal) as [returnValArray|] eqn:Hconv; [|done].
  specialize (Hwf _ _ Hconv). unfold bind at 1. simpl.
  destruct (obj_to_array_contiguous_allow_conversion returnValArray)
    as [cont is_new_object]. simpl in Hwf. unfold wellFormed in Hwf.
  assert (forall asize : Z, asize = Z.of_nat (length (data cont)) ->
    ((let* asize' := ret asize in
      if negb (asize' =? m_resultDimension self)%Z
      then let* _u := cleanUp is_new_object in
           throw (runtime_error "Return array has wrong dimensions")
      else match copyBack 0 (Z.to_nat (m_resultDimension self)) (data cont) result_ with
           | inl e => throw e
           | inr result_' => let* _u := cleanUp is_new_object in ret result_'
           end)
       ((if is_new_object then [pyReturnValArrayCont] else [])
        ++ pyReturnValArray :: pyReturnVal :: pyPoint :: held)).2 = held) as Hrest.
  { intros asize ->. unfold bind at 1, ret at 1.
    destruct (Z.of_nat (length (data cont)) =? m_resultDimension self)%Z eqn:Hm; simpl.
    - apply Z.eqb_eq in Hm. rewrite <- Hm, Nat2Z.id in *.
      rewrite copyBack_all by done. unfold bind. by rewrite cleanUp_releases.
    - unfold bind. by rewrite cleanUp_releases. }
  destruct (shape cont) as [|size0 [|size1 rest]] eqn:Hshape; simpl in Hwf.
  - destruct is_new_object; apply Hrest; rewrite Hwf; done.
  - destruct is_new_object; apply Hrest; rewrite Hwf; f_equal; lia.
  - destruct is_new_object; reflexivity.
Qed.

End PythonSurfaceNormalIndependentFunctor.

(** *** A callable returning the first coordinate and the sum of the three *)

Inductive ExampleObject :=
| Callable
| NotCallable
| ReturnedScalar (x : float)
| ReturnedSequence (values : list float).

Definition exampleCall (f : ExampleObject) (point : list float) : option ExampleObject :=
  match f with
  | Callable =>
    Some (ReturnedSequence [default 0%float (head point);
                            foldl PrimFloat.add 0%float point])
  | _ => None
  end.

Definition exampleFromObject (o : ExampleObject) : option NdArray :=
  match o with
  | ReturnedScalar x => Some {| shape := []; data := [x] |}
  | ReturnedSequence values => Some {| shape := [length values]; data := values |}
  | _ => None
  end.

Lemma exampleFromObject_wellFormed o a : exampleFromObject o = Some a -> wellFormed a.
Proof.
  destruct o; intros [= <-]; unfold wellFormed; simpl; lia.
Defined.

Abbreviation example_evaluate :=
  (evaluate id (fun _ => true) exampleCall exampleFromObject (fun a => (a, false))).

Definition exampleFunctor (resultDimension : Z) : Functor :=
  {| m_pyFunc := Callable; m_argumentDimension := 3;
     m_resultDimension := resultDimension |}.

Lemma evaluate_accepts_matching_sizes_witness :
  (example_evaluate (exampleFunctor 2) [1; 2; 3]%float [0; 0]%float []).1
    = inr [1; 6]%float.
Proof.
  apply (evaluate_accepts_matching_sizes id (fun _ => true) exampleCall
           exampleFromObject (fun a => (a, false))
           (exampleFunctor 2) [1; 2; 3]%float [0; 0]%float []
           (ReturnedSequence [1; 6]%float)
           {| shape := [2]; data := [1; 6]%float |}
           {| shape := [2]; data := [1; 6]%float |} false).
  - reflexivity.
  - reflexivity.
  - reflexivity.
  - reflexivity.
  - reflexivity.
  - simpl. lia.
Defined.

Lemma evaluate_releases_every_reference_witness :
  (example_evaluate (exampleFunctor 2) [1; 2; 3]%float [0; 0]%float []).2 = [] /\
  (example_evaluate (exampleFunctor 1) [1; 2; 3]%float [0]%float []).2 = [].
Proof.
  split.
  - apply (evaluate_releases_every_reference id (fun _ => true) exampleCall
             exampleFromObject (fun a => (a, false))
             (exampleFunctor 2) [1; 2; 3]%float [0; 0]%float []).
    + simpl. lia.
    + intros returnVal returnValArray. apply exampleFromObject_wellFormed.
  - apply (evaluate_releases_every_reference id (fun _ => true) exampleCall
             exampleFromObject (fun a => (a, false))
             (exampleFunctor 1) [1; 2; 3]%float [0]%float []).
    + simpl. lia.
    + intros returnVal returnValArray. apply exampleFromObject_wellFormed.
Defined.

(** An object that cannot be called, a result of the wrong length, and a
    [result_] with too few rows: in the last case the failed index check is
    not followed by the clean-up, and three references stay behind. *)
Example evaluate_failures_example :
  example_evaluate {| m_pyFunc := NotCallable; m_argumentDimension := 3;
                      m_resultDimension := 2 |} [1; 2; 3]%float [0; 0]%float [] =
    (inl (runtime_error "Callable did not execute successfully"), []) /\
  example_evaluate (exampleFunctor 3) [1; 2; 3]%float [0; 0; 0]%float [] =
    (inl (runtime_error "Return array has wrong dimensions"), []) /\
  example_evaluate (exampleFunctor 2) [1; 2; 3]%float [0]%float [] =
    (inl (assertion_failed "index out of bounds"),
     [pyReturnValArray; pyReturnVal; pyPoint]).
Proof. repeat split. Qed.

End PyFunctor.

(** * Blocked operators

    [BlockedOperatorStructure] and [BlockedBoundaryOperator] are exercised by
    [tests/unit/assembly/test_blocked_boundary_operator.cpp]; their
    implementation is not among the sources, so this module is written from
    the specification. *)

Module Blocked.

(** Modelled from the spec: the error kinds of its section 7 (the classes
    that raise them are missing). *)
Inductive Error :=
| InvalidArgument
| IncompatibleKinds
| DimensionMismatch
| InconsistentSpaces
| MissingSpace
| InvalidStructure
| DivideByZero.

Section BlockedOperator.

Context {T : Type} `{Scalar T}.

(** The symbolic operators and their discretization are consumed through a
    narrow interface: the three spaces of a node (possibly unset), the
    discrete operator a node discretizes to, and the dense form of a discrete
    operator. *)
Variable Node : Type.
Variable nodeDomain nodeRange nodeDualToRange : Node -> option Space.
Variable Op : Type.
Variable discretize : Node -> Error + Op.
Variable materialize : Op -> Matrix T.

(** The contract of the leaf assembler: a node discretizes to an operator with
    one row per DOF of its dual-to-range space and one column per DOF of its
    domain space. *)
Hypothesis discretize_shape : forall node d dual dom,
  discretize node = inr d ->
  nodeDualToRange node = Some dual -> nodeDomain node = Some dom ->
  hasShape (globalDofCount dual) (globalDofCount dom) (materialize d).

(** Modelled from the spec: [BlockedOperatorStructure], "a row count R, a
    column count C, an R×C table whose entries are either empty or a node, and
    two lists of length R and C giving, for each block row, the (range,
    dual-to-range) space pair, and for each block column, the domain space".
    A row or column that was never given a space holds [None]. *)
Record BlockedOperatorStructure := {
  rowCount : nat;
  columnCount : nat;
  blocks : gmap (nat * nat) Node;
  rowSpaces : list (option (Space * Space));
  columnSpaces : list (option Space)
}.

(** Modelled from the spec: "Structure starts empty (R=C=0 ...)". *)
Definition emptyStructure : BlockedOperatorStructure :=
  {| rowCount := 0; columnCount := 0; blocks := ∅; rowSpaces := []; columnSpaces := [] |}.

(** Modelled from the spec: the other start, "pre-declared with all entries
    empty" (the structure class is missing).  The table has one row per entry
    of [rows] and one column per entry of [cols]; an entry is the space given
    for that row or column, or [None] where none is given ("no default
    given"). *)
Definition preDeclared (rows : list (option (Space * Space))) (cols : list (option Space))
    : BlockedOperatorStructure :=
  {| rowCount := length rows; columnCount := length cols; blocks := ∅;
     rowSpaces := rows; columnSpaces := cols |}.

(** Modelled from the spec: a list of declared spaces extended with
    undeclared entries up to length [n] (the structure class is missing). *)
Definition padTo {A} (n : nat) (l : list (option A)) : list (option A) :=
  l ++ replicate (n - length l) None.

(** Modelled from the spec: [setBlock]'s "inferring/validating" of one row
    or column (the structure class is missing): [x] is declared at index [i],
    or checked against what is declared there. *)
Definition declare {A} `{EqDecision A} (i : nat) (x : A) (l : list (option A))
    : Error + list (option A) :=
  let l' := padTo (S i) l in
  match l' !! i with
  | Some (Some y) => if decide (x = y) then inr l' else inl InconsistentSpaces
  | _ => inr (<[i := Some x]> l')
  end.

(** Modelled from the spec: [setBlock(i, j, node)] "registers a node at
    (i,j), inferring/validating row i's (range, dual-to-range) pair and column
    j's domain space from the node, and failing with InconsistentSpaces if a
    later call at the same row/column declares an incompatible pair/space";
    a node with an unset space is an InvalidArgument. *)
Definition setBlock (i j : nat) (node : Node) (s : BlockedOperatorStructure)
    : Error + BlockedOperatorStructure :=
  match nodeRange node, nodeDualToRange node, nodeDomain node with
  | Some rng, Some dual, Some dom =>
    match declare i (rng, dual) (rowSpaces s) with
    | inl e => inl e
    | inr rows =>
      match declare j dom (columnSpaces s) with
      | inl e => inl e
      | inr cols =>
        inr {| rowCount := rowCount s `max` S i;
               columnCount := columnCount s `max` S j;
               blocks := <[(i, j) := node]> (blocks s);
               rowSpaces := rows;
               columnSpaces := cols |}
      end
    end
  | _, _, _ => inl InvalidArgument
  end.

(** Modelled from the spec: the DOF count of every block row
    (dual-to-range space) and block column (domain space) that [weakForm]
    (missing) sums up; [MissingSpace] when one was never declared. *)
Fixpoint rowDofCounts (rows : list (option (Space * Space))) : Error + list nat :=
  match rows with
  | [] => inr []
  | None :: _ => inl MissingSpace
  | Some (_, dual) :: rest =>
    match rowDofCounts rest with
    | inl e => inl e
    | inr ns => inr (globalDofCount dual :: ns)
    end
  end.

(** Modelled from the spec: the same for the block columns, whose DOF count
    is that of the domain space ([weakForm] is missing). *)
Fixpoint columnDofCounts (cols : list (option Space)) : Error + list nat :=
  match cols with
  | [] => inr []
  | None :: _ => inl MissingSpace
  | Some dom :: rest =>
    match columnDofCounts rest with
    | inl e => inl e
    | inr ns => inr (globalDofCount dom :: ns)
    end
  end.

(** Modelled from the spec: "global row offsets as the prefix sums of each
    row's dual-to-range-space DOF count, and global column offsets as the
    prefix sums of each column's domain-space DOF count". *)
Definition offset (dofs : list nat) (i : nat) : nat := sum_list (take i dofs).

(** Modelled from the spec: the positions of the R×C table that [weakForm]
    (missing) visits, row by row. *)
Definition positions (R C : nat) : list (nat * nat) :=
  i ← seq 0 R; j ← seq 0 C; [(i, j)].

(** Modelled from the spec: step 1, "discretize every non-empty block".
    The outcome lists the dense form of each populated block with its
    position; the first failure is the failure of the whole. *)
Fixpoint discretizeBlocks (table : gmap (nat * nat) Node) (ps : list (nat * nat))
    : Error + list (nat * nat * Matrix T) :=
  match ps with
  | [] => inr []
  | p :: rest =>
    match table !! p with
    | None => discretizeBlocks table rest
    | Some node =>
      match discretize node with
      | inl e => inl e
      | inr d =>
        match discretizeBlocks table rest with
        | inl e => inl e
        | inr ds => inr ((p, materialize d) :: ds)
        end
      end
    end
  end.

(** Modelled from the spec: a block "placed at (rowOffset[i], colOffset[j])"
    by the missing [weakForm].  Entry [(r, c)] of the global array as given by
    [B] when [B] has its top left corner at [(ro, co)]; [None] outside of it. *)
Definition blockAt (ro co : nat) (B : Matrix T) (r c : nat) : option T :=
  if decide (ro <= r /\ co <= c) then entry B (r - ro) (c - co) else None.

(** Modelled from the spec: the global array [G] of the missing [weakForm]
    after block [B] has been written at [(ro, co)]. *)
Definition placeBlock (ro co : nat) (B G : Matrix T) : Matrix T :=
  imap (fun r row => imap (fun c x => default x (blockAt ro co B r c)) row) G.

(** Modelled from the spec: step 3, "entry (i,j) contributes its discretized
    block placed at (rowOffset[i], colOffset[j]); empty entries contribute
    nothing": the global array starts as zeros and every discretized block is
    written at its offsets. *)
Definition assemble (rowDofs colDofs : list nat)
    (ds : list (nat * nat * Matrix T)) : Matrix T :=
  foldl (fun G '(i, j, B) => placeBlock (offset rowDofs i) (offset colDofs j) B G)
        (zeros (sum_list rowDofs) (sum_list colDofs))
        ds.

(** Modelled from the spec: [BlockedBoundaryOperator.weakForm()] under the
    stacked layout, given by the dense form of the global operator.  An empty
    structure is an [InvalidStructure], an undeclared row or column a
    [MissingSpace]; a failed block discretization fails the whole. *)
Definition weakForm (s : BlockedOperatorStructure) : Error + Matrix T :=
  if decide (rowCount s = 0 \/ columnCount s = 0) then inl InvalidStructure
  else
    match rowDofCounts (rowSpaces s) with
    | inl e => inl e
    | inr rowDofs =>
      match columnDofCounts (columnSpaces s) with
      | inl e => inl e
      | inr colDofs =>
        match discretizeBlocks (blocks s) (positions (rowCount s) (columnCount s)) with
        | inl e => inl e
        | inr ds => inr (assemble rowDofs colDofs ds)
        end
      end
    end.

(** Modelled from the spec: the invariant of the data model of the missing
    structure class, "all non-empty entries in a given row must share that
    row's declared (range, dual-to-range) pair; all entries in a column must
    share that column's domain space": the two lists have lengths R and C, and
    every populated entry lies inside the table and has the spaces declared
    for its row and column. *)
Definition blockFits (s : BlockedOperatorStructure) (p : nat * nat) (node : Node) : Prop :=
  p.1 < rowCount s /\ p.2 < columnCount s /\
  match nodeRange node, nodeDualToRange node, nodeDomain node with
  | Some rng, Some dual, Some dom =>
    rowSpaces s !! p.1 = Some (Some (rng, dual)) /\
    columnSpaces s !! p.2 = Some (Some dom)
  | _, _, _ => False
  end.

(** Modelled from the spec: the invariant as a whole (the structure class is
    missing). *)
Definition wellFormed (s : BlockedOperatorStructure) : Prop :=
  length (rowSpaces s) = rowCount s /\
  length (columnSpaces s) = columnCount s /\
  map_Forall (blockFits s) (blocks s).

(** Modelled from the spec: the structures a caller can hold, "Structure
    starts empty (R=C=0 or pre-declared with all entries empty)", then
    [setBlock] (the structure class is missing). *)
Inductive built : BlockedOperatorStructure -> Prop :=
| built_empty : built emptyStructure
| built_preDeclared rows cols : built (preDeclared rows cols)
| built_setBlock i j node s s' :
    built s -> setBlock i j node s = inr s' -> built s'.

(** Modelled from the spec: [materialize(discretize(node))] of the missing
    assembler, when the discretization succeeds. *)
Definition denseForm (node : Node) : option (Matrix T) :=
  match discretize node with
  | inr d => Some (materialize d)
  | inl _ => None
  end.

(** Modelled from the spec: what the placements [ds] of the missing
    [weakForm] leave at [(r, c)], if any of them covers it: the value of the
    last one that does. *)
Fixpoint cover (rowDofs colDofs : list nat) (ds : list (nat * nat * Matrix T))
    (r c : nat) : option T :=
  match ds with
  | [] => None
  | (i, j, B) :: rest =>
    match cover rowDofs colDofs rest r c with
    | Some v => Some v
    | None => blockAt (offset rowDofs i) (offset colDofs j) B r c
    end
  end.

(** Modelled from the spec: a placement of the missing [weakForm] that is at
    a declared block position and has the shape of that position. *)
Definition placementFits (rowDofs colDofs : list nat) (d : nat * nat * Matrix T) : Prop :=
  exists h w, rowDofs !! d.1.1 = Some h /\ colDofs !! d.1.2 = Some w /\ hasShape h w d.2.

(** Modelled from the spec: a "zero-valued operator", a node whose
    discretization (by the missing assembler) has only zero entries. *)
Definition zeroValued (z : Node) : Prop :=
  match discretize z with
  | inr d => allZero (materialize d)
  | inl _ => False
  end.

(** Modelled from the spec: "the same structure with those blocks
    explicitly populated" (the structure class is missing): [s] with the nodes
    of [zs] set at the positions [s] leaves empty. *)
Definition fillEmpty (zs : gmap (nat * nat) Node) (s : BlockedOperatorStructure)
    : BlockedOperatorStructure :=
  {| rowCount := rowCount s; columnCount := columnCount s;
     blocks := blocks s ∪ zs;
     rowSpaces := rowSpaces s; columnSpaces := columnSpaces s |}.

#[export] Instance blockFits_dec s p node : Decision (blockFits s p node).
Proof.
  unfold blockFits.
  destruct (nodeRange node), (nodeDualToRange node), (nodeDomain node); apply _.
Defined.

#[export] Instance wellFormed_dec s : Decision (wellFormed s).
Proof. unfold wellFormed. apply _. Defined.

#[export] Instance zeroValued_dec `{EqDecision T} z : Decision (zeroValued z).
Proof. unfold zeroValued. destruct (discretize z); apply _. Defined.

(** ** Writing blocks into the global array *)

Lemma entry_placeBlock ro co B G r c :
  entry (placeBlock ro co B G) r c =
  (fun x => default x (blockAt ro co B r c)) <$> entry G r c.
Proof.
  unfold entry, placeBlock. rewrite list_lookup_imap.
  destruct (G !! r) as [row|]; [|done]. simpl. by rewrite list_lookup_imap.
Qed.

Lemma hasShape_placeBlock R C ro co B G :
  hasShape R C G -> hasShape R C (placeBlock ro co B G).
Proof.
  intros [Hlen Hall]. unfold placeBlock. split; [by rewrite length_imap|].
  apply Forall_lookup_2. intros r row Hr.
  rewrite list_lookup_imap in Hr.
  destruct (G !! r) as [row'|] eqn:Hrow; [|done]. simpl in Hr. simplify_eq.
  rewrite length_imap. by eapply Forall_lookup_1 in Hall.
Qed.

Lemma entry_foldl_placeBlock rowDofs colDofs ds G r c :
  entry (foldl (fun G '(i, j, B) =>
                  placeBlock (offset rowDofs i) (offset colDofs j) B G) G ds) r c =
  (fun x => default x (cover rowDofs colDofs ds r c)) <$> entry G r c.
Proof.
  revert G. induction ds as [|[[i j] B] ds IH]; intros G; simpl.
  - by destruct (entry G r c).
  - rewrite IH, entry_placeBlock.
    destruct (entry G r c) as [x|]; [|done]. simpl.
    by destruct (cover rowDofs colDofs ds r c).
Qed.

Lemma hasShape_foldl_placeBlock R C rowDofs colDofs ds G :
  hasShape R C G ->
  hasShape R C (foldl (fun G '(i, j, B) =>
                  placeBlock (offset rowDofs i) (offset colDofs j) B G) G ds).
Proof.
  revert G. induction ds as [|[[i j] B] ds IH]; intros G HG; simpl; [done|].
  by apply IH, hasShape_placeBlock.
Qed.

Lemma hasShape_assemble rowDofs colDofs ds :
  hasShape (sum_list rowDofs) (sum_list colDofs) (assemble rowDofs colDofs ds).
Proof. apply hasShape_foldl_placeBlock, hasShape_zeros. Qed.

(** ** Offsets *)

Lemma offset_0 dofs : offset dofs 0 = 0.
Proof. done. Qed.

Lemma offset_S dofs i n :
  dofs !! i = Some n -> offset dofs (S i) = offset dofs i + n.
Proof.
  unfold offset. intros Hi.
  rewrite (take_S_r _ _ _ Hi), sum_list_with_app. simpl. lia.
Qed.

Lemma offset_length dofs i : length dofs <= i -> offset dofs i = sum_list dofs.
Proof. unfold offset. intros Hi. by rewrite take_ge. Qed.

Lemma offset_mono dofs i k : i <= k -> offset dofs i <= offset dofs k.
Proof.
  induction 1 as [|k _ IH]; [done|].
  destruct (dofs !! k) as [n|] eqn:Hk.
  - rewrite (offset_S _ _ _ Hk). lia.
  - apply lookup_ge_None_1 in Hk.
    rewrite (offset_length dofs (S k)) by lia.
    rewrite (offset_length dofs k) in IH by lia. done.
Qed.

(** Block [i] ends where block [i + 1] begins, so blocks do not overlap. *)
Lemma offset_next dofs i k n :
  dofs !! i = Some n -> i < k -> offset dofs i + n <= offset dofs k.
Proof.
  intros Hi Hik. rewrite <- (offset_S _ _ _ Hi). by apply offset_mono.
Qed.

Lemma offset_end dofs i n :
  dofs !! i = Some n -> offset dofs i + n <= sum_list dofs.
Proof.
  intros Hi. rewrite <- (offset_S _ _ _ Hi).
  rewrite <- (offset_length dofs (length dofs)) by done.
  apply offset_mono. by apply lookup_lt_Some in Hi.
Qed.

(** Every global index lies in one block. *)
Lemma offset_decompose dofs r :
  r < sum_list dofs ->
  exists i n p, dofs !! i = Some n /\ p < n /\ r = offset dofs i + p.
Proof.
  revert r. induction dofs as [|n dofs IH]; intros r Hr; simpl in *; [lia|].
  destruct (decide (r < n)) as [Hlt|Hge].
  - exists 0, n, r. by rewrite offset_0.
  - destruct (IH (r - n)) as (i & m & p & Hi & Hp & Hrp); [lia|].
    exists (S i), m, p. split; [done|]. split; [done|].
    unfold offset in *. simpl. lia.
Qed.

(** ** The entries of the assembled array *)

Lemma blockAt_inside rowDofs colDofs i j B p q :
  blockAt (offset rowDofs i) (offset colDofs j) B
          (offset rowDofs i + p) (offset colDofs j + q) = entry B p q.
Proof.
  unfold blockAt. rewrite decide_True by lia.
  by replace (offset rowDofs i + p - offset rowDofs i) with p by lia;
     replace (offset colDofs j + q - offset colDofs j) with q by lia.
Qed.

Lemma blockAt_outside rowDofs colDofs i j h w p q i' j' h' w' B' :
  rowDofs !! i = Some h -> colDofs !! j = Some w -> p < h -> q < w ->
  rowDofs !! i' = Some h' -> colDofs !! j' = Some w' -> hasShape h' w' B' ->
  (i', j') <> (i, j) ->
  blockAt (offset rowDofs i') (offset colDofs j') B'
          (offset rowDofs i + p) (offset colDofs j + q) = None.
Proof.
  intros Hi Hj Hp Hq Hi' Hj' HB' Hne. unfold blockAt.
  case_decide as Hin; [|done]. destruct Hin as [Hr Hc].
  destruct (decide (i' = i)) as [->|Hrow].
  - assert (j' <> j) as Hcol by congruence.
    apply (entry_None_column h' w'); [done|].
    destruct (decide (j' < j)).
    + pose proof (offset_next colDofs j' j w' Hj' ltac:(done)). lia.
    + pose proof (offset_next colDofs j j' w Hj ltac:(lia)). lia.
  - apply (entry_None_row h' w'); [done|].
    destruct (decide (i' < i)).
    + pose proof (offset_next rowDofs i' i h' Hi' ltac:(done)). lia.
    + pose proof (offset_next rowDofs i i' h Hi ltac:(lia)). lia.
Qed.

Lemma cover_lookup rowDofs colDofs ds i j h w p q :
  NoDup ds.*1 -> Forall (placementFits rowDofs colDofs) ds ->
  rowDofs !! i = Some h -> colDofs !! j = Some w -> p < h -> q < w ->
  cover rowDofs colDofs ds (offset rowDofs i + p) (offset colDofs j + q) =
  (list_to_map ds : gmap (nat * nat) (Matrix T)) !! (i, j) ≫= (fun B => entry B p q).
Proof.
  intros Hnd Hfit Hi Hj Hp Hq.
  induction ds as [|[[i' j'] B'] ds IH]; simpl; [done|].
  apply NoDup_cons in Hnd as [Hfresh Hnd].
  apply Forall_cons in Hfit as [(h' & w' & Hi' & Hj' & HB') Hfit]. simpl in *.
  rewrite IH by done.
  destruct (decide ((i', j') = (i, j))) as [[= -> ->]|Hne].
  - rewrite lookup_insert_eq. simpl.
    rewrite (not_elem_of_list_to_map_1 _ _ Hfresh). simpl.
    apply blockAt_inside.
  - rewrite lookup_insert_ne by done.
    rewrite (blockAt_outside _ _ i j h w p q i' j' h' w') by done.
    by destruct (list_to_map ds !! (i, j) ≫= _).
Qed.

(** The assembled array is the block matrix: inside block position
    [(i, j)] it holds the entries of the block discretized there, and zeros
    when that position is empty. *)
Lemma assemble_entry rowDofs colDofs ds i j h w p q :
  NoDup ds.*1 -> Forall (placementFits rowDofs colDofs) ds ->
  rowDofs !! i = Some h -> colDofs !! j = Some w -> p < h -> q < w ->
  entry (assemble rowDofs colDofs ds) (offset rowDofs i + p) (offset colDofs j + q) =
  Some (default s_zero
          ((list_to_map ds : gmap (nat * nat) (Matrix T)) !! (i, j)
             ≫= (fun B => entry B p q))).
Proof.
  intros Hnd Hfit Hi Hj Hp Hq. unfold assemble.
  rewrite entry_foldl_placeBlock, entry_zeros.
  - simpl. by rewrite (cover_lookup _ _ _ i j h w).
  - pose proof (offset_end _ _ _ Hi). lia.
  - pose proof (offset_end _ _ _ Hj). lia.
Qed.

(** Two assemblies over the same offsets agree as soon as they agree block
    by block, an absent block counting as zeros. *)
Lemma assemble_ext rowDofs colDofs ds1 ds2 :
  NoDup ds1.*1 -> Forall (placementFits rowDofs colDofs) ds1 ->
  NoDup ds2.*1 -> Forall (placementFits rowDofs colDofs) ds2 ->
  (forall i j h w p q,
     rowDofs !! i = Some h -> colDofs !! j = Some w -> p < h -> q < w ->
     default s_zero ((list_to_map ds1 : gmap (nat * nat) (Matrix T)) !! (i, j)
                       ≫= (fun B => entry B p q)) =
     default s_zero ((list_to_map ds2 : gmap (nat * nat) (Matrix T)) !! (i, j)
                       ≫= (fun B => entry B p q))) ->
  assemble rowDofs colDofs ds1 = assemble rowDofs colDofs ds2.
Proof.
  intros Hnd1 Hfit1 Hnd2 Hfit2 Hblocks.
  apply (matrix_ext (sum_list rowDofs) (sum_list colDofs));
    [apply hasShape_assemble..|].
  intros r c Hr Hc.
  destruct (offset_decompose _ _ Hr) as (i & h & p & Hi & Hp & ->).
  destruct (offset_decompose _ _ Hc) as (j & w & q & Hj & Hq & ->).
  rewrite !(assemble_entry _ _ _ i j h w) by done.
  f_equal. by eapply Hblocks.
Qed.

(** ** Positions and DOF counts *)

Lemma elem_of_positions R C i j : (i, j) ∈ positions R C <-> i < R /\ j < C.
Proof.
  unfold positions. rewrite list_elem_of_bind. split.
  - intros (i' & Hin & Hi'). apply list_elem_of_bind in Hin as (j' & Hin & Hj').
    apply list_elem_of_singleton in Hin as [= -> ->].
    apply elem_of_seq in Hi', Hj'. lia.
  - intros [Hi Hj]. exists i. split; [|apply elem_of_seq; lia].
    apply list_elem_of_bind. exists j. split; [by apply list_elem_of_singleton|].
    apply elem_of_seq. lia.
Qed.

Lemma NoDup_positions R C : NoDup (positions R C).
Proof.
  unfold positions. apply NoDup_bind; [| |apply NoDup_seq].
  - intros i1 i2 [i j] _ _ H1 H2.
    apply list_elem_of_bind in H1 as (j1 & H1 & _), H2 as (j2 & H2 & _).
    apply list_elem_of_singleton in H1, H2. congruence.
  - intros i _. apply NoDup_bind; [| |apply NoDup_seq].
    + intros j1 j2 [i' j] _ _ H1 H2.
      apply list_elem_of_singleton in H1, H2. congruence.
    + intros j _. apply NoDup_singleton.
Qed.

Lemma rowDofCounts_lookup rows ns i rng dual :
  rowDofCounts rows = inr ns -> rows !! i = Some (Some (rng, dual)) ->
  ns !! i = Some (globalDofCount dual).
Proof.
  revert ns i. induction rows as [|[[rng' dual']|] rows IH]; intros ns i Hc Hi;
    simpl in *; [done| |done].
  destruct (rowDofCounts rows) as [e|ns'] eqn:Hrest; [done|]. simplify_eq.
  destruct i as [|i]; simpl in *; [by simplify_eq|]. by eapply IH.
Qed.

Lemma columnDofCounts_lookup cols ns j dom :
  columnDofCounts cols = inr ns -> cols !! j = Some (Some dom) ->
  ns !! j = Some (globalDofCount dom).
Proof.
  revert ns j. induction cols as [|[dom'|] cols IH]; intros ns j Hc Hj;
    simpl in *; [done| |done].
  destruct (columnDofCounts cols) as [e|ns'] eqn:Hrest; [done|]. simplify_eq.
  destruct j as [|j]; simpl in *; [by simplify_eq|]. by eapply IH.
Qed.

Lemma rowDofCounts_declared rows :
  Forall is_Some rows -> exists ns, rowDofCounts rows = inr ns /\ length ns = length rows.
Proof.
  induction 1 as [|[[rng dual]|] rows [? ?] _ [ns [IH Hlen]]]; simpl; [by exists []|..];
    [|done].
  rewrite IH. eexists. split; [done|]. simpl. by rewrite Hlen.
Qed.

Lemma columnDofCounts_declared cols :
  Forall is_Some cols -> exists ns, columnDofCounts cols = inr ns /\ length ns = length cols.
Proof.
  induction 1 as [|[dom|] cols [? ?] _ [ns [IH Hlen]]]; simpl; [by exists []|..];
    [|done].
  rewrite IH. eexists. split; [done|]. simpl. by rewrite Hlen.
Qed.

(** ** The discretized blocks *)

Lemma discretizeBlocks_elem table ps ds k B :
  discretizeBlocks table ps = inr ds -> (k, B) ∈ ds ->
  k ∈ ps /\ exists node, table !! k = Some node /\ denseForm node = Some B.
Proof.
  revert ds. induction ps as [|p ps IH]; intros ds Hd Hin; simpl in *.
  - simplify_eq. by apply not_elem_of_nil in Hin.
  - destruct (table !! p) as [node|] eqn:Hp.
    + destruct (discretize node) as [e|d] eqn:Hnode; [done|].
      destruct (discretizeBlocks table ps) as [e|ds'] eqn:Hrest; [done|].
      simplify_eq. apply elem_of_cons in Hin as [[= -> ->]|Hin].
      * split; [left|]. exists node. unfold denseForm. by rewrite Hnode.
      * destruct (IH _ eq_refl Hin) as [? ?]. split; [by right|done].
    + destruct (IH _ Hd Hin) as [? ?]. split; [by right|done].
Qed.

Lemma discretizeBlocks_NoDup table ps ds :
  NoDup ps -> discretizeBlocks table ps = inr ds -> NoDup ds.*1.
Proof.
  revert ds. induction ps as [|p ps IH]; intros ds Hnd Hd; simpl in *.
  - simplify_eq. constructor.
  - apply NoDup_cons in Hnd as [Hfresh Hnd].
    destruct (table !! p) as [node|] eqn:Hp; [|by apply IH].
    destruct (discretize node) as [e|d] eqn:Hnode; [done|].
    destruct (discretizeBlocks table ps) as [e|ds'] eqn:Hrest; [done|].
    simplify_eq. simpl. apply NoDup_cons. split; [|by apply IH].
    intros Hin. apply list_elem_of_fmap in Hin as ([k B] & -> & Hin).
    by apply (discretizeBlocks_elem _ _ _ _ _ Hrest) in Hin as [? _].
Qed.

Lemma discretizeBlocks_lookup table ps ds k :
  NoDup ps -> discretizeBlocks table ps = inr ds ->
  (list_to_map ds : gmap (nat * nat) (Matrix T)) !! k =
  if decide (k ∈ ps) then table !! k ≫= denseForm else None.
Proof.
  revert ds. induction ps as [|p ps IH]; intros ds Hnd Hd; simpl in Hd.
  - simplify_eq. rewrite decide_False by apply not_elem_of_nil. apply lookup_empty.
  - apply NoDup_cons in Hnd as [Hfresh Hnd].
    destruct (table !! p) as [node|] eqn:Hp.
    + destruct (discretize node) as [e|d] eqn:Hnode; [done|].
      destruct (discretizeBlocks table ps) as [e|ds'] eqn:Hrest; [done|].
      simplify_eq. simpl. destruct (decide (k = p)) as [->|Hne].
      * rewrite lookup_insert_eq, decide_True by left.
        rewrite Hp. simpl. unfold denseForm. by rewrite Hnode.
      * rewrite lookup_insert_ne by done. rewrite (IH ds') by done.
        destruct (decide (k ∈ ps)) as [Hin|Hnin].
        -- by rewrite decide_True by by right.
        -- rewrite decide_False; [done|]. by intros [?|?]%elem_of_cons.
    + rewrite (IH ds) by done. destruct (decide (k = p)) as [->|Hne].
      * rewrite decide_False by done. rewrite decide_True by left. by rewrite Hp.
      * destruct (decide (k ∈ ps)) as [Hin|Hnin].
        -- by rewrite decide_True by by right.
        -- rewrite decide_False; [done|]. by intros [?|?]%elem_of_cons.
Qed.

(** Discretization succeeds as soon as every populated block discretizes. *)
Lemma discretizeBlocks_succeeds table ps :
  (forall k node, k ∈ ps -> table !! k = Some node -> is_Some (denseForm node)) ->
  exists ds, discretizeBlocks table ps = inr ds.
Proof.
  induction ps as [|p ps IH]; intros Hok; simpl; [by eexists|].
  destruct IH as [ds Hds].
  { intros k node Hk. apply Hok. by right. }
  rewrite Hds. destruct (table !! p) as [node|] eqn:Hp; [|by eexists].
  destruct (Hok p node) as [B HB]; [by left|done|].
  unfold denseForm in HB. destruct (discretize node); [done|]. by eexists.
Qed.

(** ** The weak form of a well-formed structure *)

Lemma rowDofCounts_length rows ns : rowDofCounts rows = inr ns -> length ns = length rows.
Proof.
  revert ns. induction rows as [|[[rng dual]|] rows IH]; intros ns Hc; simpl in *;
    [by simplify_eq| |done].
  destruct (rowDofCounts rows) as [e|ns'] eqn:Hrest; [done|]. simplify_eq.
  simpl. f_equal. by apply IH.
Qed.

Lemma columnDofCounts_length cols ns :
  columnDofCounts cols = inr ns -> length ns = length cols.
Proof.
  revert ns. induction cols as [|[dom|] cols IH]; intros ns Hc; simpl in *;
    [by simplify_eq| |done].
  destruct (columnDofCounts cols) as [e|ns'] eqn:Hrest; [done|]. simplify_eq.
  simpl. f_equal. by apply IH.
Qed.

Lemma denseForm_fits s rowDofs colDofs k node B :
  wellFormed s ->
  rowDofCounts (rowSpaces s) = inr rowDofs ->
  columnDofCounts (columnSpaces s) = inr colDofs ->
  blocks s !! k = Some node -> denseForm node = Some B ->
  placementFits rowDofs colDofs (k, B).
Proof.
  intros (_ & _ & Hblocks) Hrows Hcols Hk HB.
  apply (map_Forall_lookup_1 _ _ _ _ Hblocks) in Hk as (_ & _ & Hfit).
  unfold denseForm in HB. destruct (discretize node) as [e|d] eqn:Hd; [done|].
  simplify_eq.
  destruct (nodeRange node) as [rng|], (nodeDualToRange node) as [dual|] eqn:Hdual,
    (nodeDomain node) as [dom|] eqn:Hdom; try done.
  destruct Hfit as [Hrow Hcol].
  exists (globalDofCount dual), (globalDofCount dom). simpl. split_and!.
  - by eapply rowDofCounts_lookup.
  - by eapply columnDofCounts_lookup.
  - by eapply discretize_shape.
Qed.

Lemma discretizeBlocks_fit s rowDofs colDofs ps ds :
  wellFormed s ->
  rowDofCounts (rowSpaces s) = inr rowDofs ->
  columnDofCounts (columnSpaces s) = inr colDofs ->
  discretizeBlocks (blocks s) ps = inr ds ->
  Forall (placementFits rowDofs colDofs) ds.
Proof.
  intros Hwf Hrows Hcols Hds. apply Forall_forall. intros [k B] Hin.
  destruct (discretizeBlocks_elem _ _ _ _ _ Hds Hin) as (_ & node & Hk & HB).
  by eapply denseForm_fits.
Qed.

(** What [weakForm] returns: an array with one row per row DOF and one column
    per column DOF which, inside block position [(i, j)], holds the dense form
    of the block set there, and zeros if none is set. *)
Lemma weakForm_spec s G :
  wellFormed s -> weakForm s = inr G ->
  exists rowDofs colDofs,
    rowDofCounts (rowSpaces s) = inr rowDofs /\
    columnDofCounts (columnSpaces s) = inr colDofs /\
    hasShape (sum_list rowDofs) (sum_list colDofs) G /\
    forall i j h w p q,
      rowDofs !! i = Some h -> colDofs !! j = Some w -> p < h -> q < w ->
      entry G (offset rowDofs i + p) (offset colDofs j + q) =
      Some (default s_zero
              ((blocks s !! (i, j) ≫= denseForm) ≫= (fun B => entry B p q))).
Proof.
  intros Hwf HG. unfold weakForm in HG.
  case_decide as Hempty; [done|].
  destruct (rowDofCounts (rowSpaces s)) as [e|rowDofs] eqn:Hrows; [done|].
  destruct (columnDofCounts (columnSpaces s)) as [e|colDofs] eqn:Hcols; [done|].
  destruct (discretizeBlocks (blocks s) _) as [e|ds] eqn:Hds; [done|].
  simplify_eq. exists rowDofs, colDofs. split_and!; [done..|apply hasShape_assemble|].
  intros i j h w p q Hi Hj Hp Hq.
  pose proof (discretizeBlocks_NoDup _ _ _ (NoDup_positions _ _) Hds) as Hnd.
  pose proof (discretizeBlocks_fit _ _ _ _ _ Hwf Hrows Hcols Hds) as Hfit.
  rewrite (assemble_entry _ _ _ i j h w) by done.
  rewrite (discretizeBlocks_lookup _ _ _ (i, j) (NoDup_positions _ _) Hds).
  rewrite decide_True; [done|]. apply elem_of_positions.
  destruct Hwf as (Hlr & Hlc & _).
  apply lookup_lt_Some in Hi, Hj.
  rewrite (rowDofCounts_length _ _ Hrows) in Hi.
  rewrite (columnDofCounts_length _ _ Hcols) in Hj. lia.
Qed.

(** [weakForm] fails on an empty structure, on an undeclared row or column
    and on a block that does not discretize, and on nothing else. *)
Lemma weakForm_succeeds s :
  0 < rowCount s -> 0 < columnCount s ->
  Forall is_Some (rowSpaces s) -> Forall is_Some (columnSpaces s) ->
  (forall k node, blocks s !! k = Some node -> is_Some (denseForm node)) ->
  exists G, weakForm s = inr G.
Proof.
  intros HR HC Hrows Hcols Hblocks. unfold weakForm.
  rewrite decide_False by lia.
  destruct (rowDofCounts_declared _ Hrows) as (rowDofs & -> & _).
  destruct (columnDofCounts_declared _ Hcols) as (colDofs & -> & _).
  destruct (discretizeBlocks_succeeds (blocks s) (positions (rowCount s) (columnCount s)))
    as [ds ->]; [|by eexists].
  intros k node _. apply Hblocks.
Qed.

(** A declared list of known length, read off entry by entry. *)
Lemma list_length_1 {A} (l : list A) x : length l = 1 -> l !! 0 = Some x -> l = [x].
Proof. destruct l as [|y [|? ?]]; intros; simplify_eq/=; done. Qed.

Lemma list_length_2 {A} (l : list A) x y :
  length l = 2 -> l !! 0 = Some x -> l !! 1 = Some y -> l = [x; y].
Proof. destruct l as [|? [|? [|? ?]]]; intros; simplify_eq/=; done. Qed.

(** What the invariant says about one populated block. *)
Lemma wellFormed_block s i j node :
  wellFormed s -> blocks s !! (i, j) = Some node ->
  i < rowCount s /\ j < columnCount s /\
  exists rng dual dom,
    nodeRange node = Some rng /\ nodeDualToRange node = Some dual /\
    nodeDomain node = Some dom /\
    rowSpaces s !! i = Some (Some (rng, dual)) /\
    columnSpaces s !! j = Some (Some dom).
Proof.
  intros (_ & _ & Hblocks) Hk.
  apply (map_Forall_lookup_1 _ _ _ _ Hblocks) in Hk as (Hi & Hj & Hfit). simpl in *.
  split; [done|]. split; [done|].
  destruct (nodeRange node) as [rng|], (nodeDualToRange node) as [dual|],
    (nodeDomain node) as [dom|]; try done.
  destruct Hfit. by exists rng, dual, dom.
Qed.

(** A 1×1 structure whose block at (0,0) is [node]: the weak form is the
    dense form of [node]'s own discretization, entry for entry, and has one
    row per DOF of the dual-to-range space and one column per DOF of the
    domain space. *)
Lemma weakForm_1x1 (s : BlockedOperatorStructure) (node : Node) (d : Op) :
  wellFormed s -> rowCount s = 1 -> columnCount s = 1 ->
  blocks s !! (0, 0) = Some node -> discretize node = inr d ->
  weakForm s = inr (materialize d) /\
  exists dual dom,
    nodeDualToRange node = Some dual /\ nodeDomain node = Some dom /\
    hasShape (globalDofCount dual) (globalDofCount dom) (materialize d).
Proof.
  intros Hwf HR HC Hnode Hd.
  destruct (wellFormed_block _ _ _ _ Hwf Hnode)
    as (_ & _ & rng & dual & dom & Hrng & Hdual & Hdom & Hrow & Hcol).
  pose proof (discretize_shape _ _ _ _ Hd Hdual Hdom) as Hshape.
  split; [|by exists dual, dom].
  pose proof Hwf as (Hlr & Hlc & Hblocks).
  rewrite HR in Hlr. rewrite HC in Hlc.
  pose proof (list_length_1 _ _ Hlr Hrow) as Hrows.
  pose proof (list_length_1 _ _ Hlc Hcol) as Hcols.
  destruct (weakForm_succeeds s) as [G HG]; [lia|lia|..].
  { rewrite Hrows. by repeat constructor. }
  { rewrite Hcols. by repeat constructor. }
  { intros [i j] node' Hk.
    destruct (wellFormed_block _ _ _ _ Hwf Hk) as (Hi & Hj & _).
    assert (i = 0) as -> by lia. assert (j = 0) as -> by lia.
    simplify_eq. unfold denseForm. by rewrite Hd. }
  rewrite HG. f_equal.
  destruct (weakForm_spec _ _ Hwf HG) as (rowDofs & colDofs & Hrd & Hcd & HsG & Hent).
  rewrite Hrows in Hrd. rewrite Hcols in Hcd. simpl in Hrd, Hcd. simplify_eq.
  simpl in HsG. rewrite !Nat.add_0_r in HsG.
  apply (matrix_ext _ _ _ _ HsG Hshape). intros p q Hp Hq.
  specialize (Hent 0 0 _ _ p q eq_refl eq_refl Hp Hq).
  rewrite !offset_0 in Hent. simpl in Hent. rewrite Hent, Hnode. simpl.
  unfold denseForm. rewrite Hd. simpl.
  by destruct (entry_is_Some _ _ _ p q Hshape Hp Hq) as [x ->].
Qed.

(** C2.  A 2×1 structure with [A] at (0,0) and [B] at (1,0): the weak form
    is the dense form of [A]'s discretization on top of that of [B]'s. *)
Theorem stacked_blocks_weakForm (s : BlockedOperatorStructure)
    (A B : Node) (dA dB : Op) :
  wellFormed s -> rowCount s = 2 -> columnCount s = 1 ->
  blocks s !! (0, 0) = Some A -> blocks s !! (1, 0) = Some B ->
  discretize A = inr dA -> discretize B = inr dB ->
  weakForm s = inr (materialize dA ++ materialize dB).
Proof.
  intros Hwf HR HC HA HB HdA HdB.
  destruct (wellFormed_block _ _ _ _ Hwf HA)
    as (_ & _ & rngA & dualA & domA & _ & HdualA & HdomA & Hrow0 & Hcol0).
  destruct (wellFormed_block _ _ _ _ Hwf HB)
    as (_ & _ & rngB & dualB & domB & _ & HdualB & HdomB & Hrow1 & Hcol1).
  assert (domB = domA) as -> by congruence.
  pose proof (discretize_shape _ _ _ _ HdA HdualA HdomA) as HshapeA.
  pose proof (discretize_shape _ _ _ _ HdB HdualB HdomB) as HshapeB.
  pose proof Hwf as (Hlr & Hlc & Hblocks).
  rewrite HR in Hlr. rewrite HC in Hlc.
  pose proof (list_length_2 _ _ _ Hlr Hrow0 Hrow1) as Hrows.
  pose proof (list_length_1 _ _ Hlc Hcol0) as Hcols.
  destruct (weakForm_succeeds s) as [G HG]; [lia|lia|..].
  { rewrite Hrows. by repeat constructor. }
  { rewrite Hcols. by repeat constructor. }
  { intros [i j] node' Hk.
    destruct (wellFormed_block _ _ _ _ Hwf Hk) as (Hi & Hj & _).
    assert (j = 0) as -> by lia. unfold denseForm.
    destruct i as [|[|i]]; [| |lia]; simplify_eq; by rewrite ?HdA, ?HdB. }
  rewrite HG. f_equal.
  destruct (weakForm_spec _ _ Hwf HG) as (rowDofs & colDofs & Hrd & Hcd & HsG & Hent).
  rewrite Hrows in Hrd. rewrite Hcols in Hcd. simpl in Hrd, Hcd. simplify_eq.
  simpl in HsG. rewrite !Nat.add_0_r in HsG.
  pose proof (hasShape_app _ _ _ _ _ HshapeA HshapeB) as Hshape.
  apply (matrix_ext _ _ _ _ HsG Hshape). intros p q Hp Hq.
  destruct (decide (p < globalDofCount dualA)) as [Hlt|Hge].
  - specialize (Hent 0 0 _ _ p q eq_refl eq_refl Hlt Hq).
    rewrite !offset_0 in Hent. simpl in Hent. rewrite Hent, HA. simpl.
    unfold denseForm. rewrite HdA. simpl.
    rewrite entry_app_l by (destruct HshapeA; lia).
    by destruct (entry_is_Some _ _ _ p q HshapeA Hlt Hq) as [x ->].
  - specialize (Hent 1 0 _ _ (p - globalDofCount dualA) q eq_refl eq_refl
                  ltac:(lia) Hq).
    rewrite offset_0 in Hent. unfold offset in Hent. simpl in Hent.
    replace (globalDofCount dualA + 0 + (p - globalDofCount dualA)) with p in Hent by lia.
    rewrite Hent, HB. simpl. unfold denseForm. rewrite HdB. simpl.
    replace p with (length (materialize dA) + (p - globalDofCount dualA)) at 2
      by (destruct HshapeA; lia).
    rewrite entry_app_r.
    by destruct (entry_is_Some _ _ _ (p - globalDofCount dualA) q HshapeB
                   ltac:(lia) Hq) as [x ->].
Qed.

(** ** Empty blocks *)

Lemma zeroValued_denseForm z :
  zeroValued z -> exists B, denseForm z = Some B /\ allZero B.
Proof.
  unfold zeroValued, denseForm. destruct (discretize z) as [e|d]; [done|]. eauto.
Qed.

Lemma wellFormed_fillEmpty zs s : wellFormed (fillEmpty zs s) -> wellFormed s.
Proof.
  intros (Hlr & Hlc & Hblocks). split; [done|]. split; [done|].
  intros k node Hk. apply (Hblocks k node). simpl. by apply lookup_union_Some_l.
Qed.

(** Filling empty positions with zero-valued nodes changes neither whether
    the blocks discretize nor the first failure. *)
Lemma discretizeBlocks_fillEmpty table zs ps :
  map_Forall (fun _ z => zeroValued z) zs ->
  match discretizeBlocks table ps, discretizeBlocks (table ∪ zs) ps with
  | inl e, inl e' => e = e'
  | inr _, inr _ => True
  | _, _ => False
  end.
Proof.
  intros Hzs. induction ps as [|p ps IH]; simpl; [done|].
  destruct (table !! p) as [node|] eqn:Hp.
  - rewrite (lookup_union_Some_l _ _ _ _ Hp).
    destruct (discretize node) as [e|d]; [done|].
    by destruct (discretizeBlocks table ps), (discretizeBlocks (table ∪ zs) ps).
  - rewrite (lookup_union_r _ _ _ Hp).
    destruct (zs !! p) as [z|] eqn:Hz; [|done].
    apply (map_Forall_lookup_1 _ _ _ _ Hzs) in Hz. unfold zeroValued in Hz.
    destruct (discretize z) as [e|d]; [done|].
    by destruct (discretizeBlocks table ps), (discretizeBlocks (table ∪ zs) ps).
Qed.

(** The failures of the three steps of [weakForm], each with its cause. *)
Lemma rowDofCounts_inl rows e :
  rowDofCounts rows = inl e -> e = MissingSpace /\ None ∈ rows.
Proof.
  induction rows as [|[[rng dual]|] rows IH]; simpl; [done| |].
  - destruct (rowDofCounts rows) as [e'|ns]; [|done].
    intros [= <-]. destruct (IH eq_refl) as [-> Hin].
    split; [done|by apply list_elem_of_further].
  - intros [= <-]. split; [done|apply list_elem_of_here].
Qed.

Lemma columnDofCounts_inl cols e :
  columnDofCounts cols = inl e -> e = MissingSpace /\ None ∈ cols.
Proof.
  induction cols as [|[dom|] cols IH]; simpl; [done| |].
  - destruct (columnDofCounts cols) as [e'|ns]; [|done].
    intros [= <-]. destruct (IH eq_refl) as [-> Hin].
    split; [done|by apply list_elem_of_further].
  - intros [= <-]. split; [done|apply list_elem_of_here].
Qed.

Lemma rowDofCounts_undeclared rows :
  None ∈ rows -> rowDofCounts rows = inl MissingSpace.
Proof.
  intros Hin. destruct (rowDofCounts rows) as [e|ns] eqn:Hr.
  - by apply rowDofCounts_inl in Hr as [-> _].
  - apply list_elem_of_lookup in Hin as [i Hi].
    destruct (lookup_lt_is_Some_2 ns i) as [n Hn].
    { rewrite (rowDofCounts_length _ _ Hr). by eapply lookup_lt_Some. }
    exfalso. clear Hn. revert i ns Hr Hi.
    induction rows as [|[[rng dual]|] rows IH]; intros i ns Hr Hi; simpl in *; try done.
    destruct (rowDofCounts rows) as [e'|ns'] eqn:Hr'; [done|].
    destruct i as [|i]; [done|]. simpl in Hi. by eapply IH.
Qed.

Lemma columnDofCounts_undeclared cols :
  None ∈ cols -> columnDofCounts cols = inl MissingSpace.
Proof.
  intros Hin. destruct (columnDofCounts cols) as [e|ns] eqn:Hc.
  - by apply columnDofCounts_inl in Hc as [-> _].
  - apply list_elem_of_lookup in Hin as [i Hi].
    exfalso. revert i ns Hc Hi.
    induction cols as [|[dom|] cols IH]; intros i ns Hc Hi; simpl in *; try done.
    destruct (columnDofCounts cols) as [e'|ns'] eqn:Hc'; [done|].
    destruct i as [|i]; [done|]. simpl in Hi. by eapply IH.
Qed.

Lemma discretizeBlocks_inl table ps e :
  discretizeBlocks table ps = inl e ->
  exists k node, table !! k = Some node /\ discretize node = inl e.
Proof.
  induction ps as [|k ps IH]; simpl; [done|].
  destruct (table !! k) as [node|] eqn:Hk; [|done].
  destruct (discretize node) as [e'|d] eqn:Hd.
  - intros [= <-]. by exists k, node.
  - destruct (discretizeBlocks table ps) as [e'|ds]; [|done].
    intros [= <-]. by apply IH.
Qed.


(** ** [setBlock] establishes the invariant *)

Lemma length_padTo {A} n (l : list (option A)) : length (padTo n l) = length l `max` n.
Proof. unfold padTo. rewrite length_app, length_replicate. lia. Qed.

Lemma lookup_padTo_declared {A} n (l : list (option A)) k y :
  l !! k = Some (Some y) -> padTo n l !! k = Some (Some y).
Proof. intros Hk. unfold padTo. by apply lookup_app_l_Some. Qed.

Lemma declare_spec {A} `{EqDecision A} i (x : A) l l' :
  declare i x l = inr l' ->
  length l' = length l `max` S i /\
  l' !! i = Some (Some x) /\
  forall k y, l !! k = Some (Some y) -> l' !! k = Some (Some y).
Proof.
  unfold declare. intros Hd.
  pose proof (length_padTo (S i) l) as Hlen.
  destruct (padTo (S i) l !! i) as [[y|]|] eqn:Hi.
  - case_decide as Hxy; [|done]. simplify_eq. split_and!; [done..|].
    intros k z. apply lookup_padTo_declared.
  - simplify_eq. split_and!.
    + by rewrite length_insert.
    + apply list_lookup_insert_eq. lia.
    + intros k y Hk. destruct (decide (k = i)) as [->|Hne].
      * apply (lookup_padTo_declared (S i)) in Hk. congruence.
      * rewrite list_lookup_insert_ne by done. by apply lookup_padTo_declared.
  - apply lookup_ge_None_1 in Hi. lia.
Qed.

Lemma wellFormed_emptyStructure : wellFormed emptyStructure.
Proof. split; [done|]. split; [done|]. apply map_Forall_empty. Qed.

Lemma setBlock_wellFormed i j node s s' :
  wellFormed s -> setBlock i j node s = inr s' -> wellFormed s'.
Proof.
  intros (Hlr & Hlc & Hblocks) Hset. unfold setBlock in Hset.
  destruct (nodeRange node) as [rng|] eqn:Hrng; [|done].
  destruct (nodeDualToRange node) as [dual|] eqn:Hdual; [|done].
  destruct (nodeDomain node) as [dom|] eqn:Hdom; [|done].
  destruct (declare i (rng, dual) (rowSpaces s)) as [e|rows] eqn:Hrows; [done|].
  destruct (declare j dom (columnSpaces s)) as [e|cols] eqn:Hcols; [done|].
  simplify_eq.
  apply declare_spec in Hrows as (Hlrows & Hrow & Hkeep_rows).
  apply declare_spec in Hcols as (Hlcols & Hcol & Hkeep_cols).
  split; [simpl; lia|]. split; [simpl; lia|]. simpl.
  apply map_Forall_insert_2.
  - unfold blockFits. simpl. rewrite Hrng, Hdual, Hdom. split_and!; [lia..|done|done].
  - intros [i' j'] node' Hk. apply Hblocks in Hk as (Hi' & Hj' & Hfit).
    unfold blockFits in *. simpl in *. split; [lia|]. split; [lia|].
    destruct (nodeRange node'), (nodeDualToRange node'), (nodeDomain node'); try done.
    destruct Hfit. split; auto.
Qed.

(** The structure of the first test: one [setBlock(0, 0, op00)] on a fresh
    structure gives a well-formed 1×1 structure holding [op00]. *)
Lemma setBlock_first node s :
  setBlock 0 0 node emptyStructure = inr s ->
  wellFormed s /\ rowCount s = 1 /\ columnCount s = 1 /\ blocks s !! (0, 0) = Some node.
Proof.
  intros Hset. split; [by eapply setBlock_wellFormed, Hset; apply wellFormed_emptyStructure|].
  unfold setBlock in Hset.
  destruct (nodeRange node), (nodeDualToRange node), (nodeDomain node); try done.
  simpl in Hset. simplify_eq. simpl. split_and!; [done..|]. apply lookup_insert_eq.
Qed.

Lemma wellFormed_preDeclared rows cols : wellFormed (preDeclared rows cols).
Proof. split; [done|]. split; [done|]. apply map_Forall_empty. Qed.

Lemma built_wellFormed s : built s -> wellFormed s.
Proof.
  induction 1 as [|rows cols|i j node s s' _ IH Hset];
    [apply wellFormed_emptyStructure|apply wellFormed_preDeclared|].
  by eapply setBlock_wellFormed.
Qed.


End BlockedOperator.

Arguments rowCount {Node} _.
Arguments columnCount {Node} _.
Arguments blocks {Node} _.
Arguments rowSpaces {Node} _.
Arguments columnSpaces {Node} _.
Arguments emptyStructure {Node}.
Arguments preDeclared {Node} _ _.
Arguments fillEmpty {Node} _ _.

(** Decides a decidable proposition by evaluating its decision procedure. *)
Ltac by_computation := refine (bool_decide_unpack _ _); vm_compute; exact I.

(** ** Integer-valued leaf operators *)

(** A leaf given by its three spaces and its kernel; it discretizes to the
    array of the kernel's values, one row per DOF of the dual-to-range space
    and one column per DOF of the domain space. *)
Record Leaf := {
  leafDomain : Space;
  leafRange : Space;
  leafDualToRange : Space;
  leafKernel : nat -> nat -> Z
}.

Definition tabulate (r c : nat) (f : nat -> nat -> Z) : Matrix Z :=
  map (fun i => map (f i) (seq 0 c)) (seq 0 r).

Definition leafAssemble (l : Leaf) : Error + Matrix Z :=
  inr (tabulate (globalDofCount (leafDualToRange l)) (globalDofCount (leafDomain l))
                (leafKernel l)).

Lemma hasShape_tabulate r c f : hasShape r c (tabulate r c f).
Proof.
  unfold tabulate. split; [by rewrite length_map, length_seq|].
  apply Forall_map, Forall_forall. intros i _. simpl.
  by rewrite length_map, length_seq.
Qed.

Lemma leafAssemble_shape (node : Leaf) (d : Matrix Z) (dual dom : Space) :
  leafAssemble node = inr d ->
  Some (leafDualToRange node) = Some dual -> Some (leafDomain node) = Some dom ->
  hasShape (globalDofCount dual) (globalDofCount dom) (id d).
Proof. intros [= <-] [= <-] [= <-]. apply hasShape_tabulate. Qed.

Abbreviation leafStructure :=
  (BlockedOperatorStructure Leaf).
Abbreviation leafWeakForm :=
  (weakForm (T := Z) Leaf (Matrix Z) leafAssemble id).
Abbreviation leafWellFormed :=
  (wellFormed Leaf (Some ∘ leafDomain) (Some ∘ leafRange) (Some ∘ leafDualToRange)).
Abbreviation leafSetBlock :=
  (setBlock Leaf (Some ∘ leafDomain) (Some ∘ leafRange) (Some ∘ leafDualToRange)).
Abbreviation leafBuilt :=
  (built Leaf (Some ∘ leafDomain) (Some ∘ leafRange) (Some ∘ leafDualToRange)).

Definition space (g tag n : nat) : Space :=
  {| grid := g; basisTag := tag; dofsAssigned := true; globalDofCount := n |}.

(** The scenario of the specification: domain and dual-to-range spaces with
    twelve DOFs each, one block. *)
Definition op12 : Leaf :=
  {| leafDomain := space 0 1 12; leafRange := space 0 1 12;
     leafDualToRange := space 0 0 12;
     leafKernel := fun i j => (Z.of_nat i * 12 + Z.of_nat j)%Z |}.

Definition structure1x1 : leafStructure :=
  {| rowCount := 1; columnCount := 1;
     blocks := {[ (0, 0) := op12 ]};
     rowSpaces := [Some (space 0 1 12, space 0 0 12)];
     columnSpaces := [Some (space 0 1 12)] |}.

Example structure1x1_setBlock : leafSetBlock 0 0 op12 emptyStructure = inr structure1x1.
Proof. reflexivity. Qed.


Example structure1x1_shape :
  exists G, leafWeakForm structure1x1 = inr G /\ n_rows G = 12 /\ n_cols G = 12.
Proof. eexists. split; [vm_compute; reflexivity|]. split; reflexivity. Qed.

(** The second test: two meshes, [A] tested against piecewise constants on
    the first (two DOFs), [B] against piecewise linears on the second (three
    DOFs), both acting on piecewise linears on the first (three DOFs). *)
Definition pc0 : Space := space 0 0 2.
Definition pl0 : Space := space 0 1 3.
Definition pc1 : Space := space 1 0 2.
Definition pl1 : Space := space 1 1 3.
Definition pc2 : Space := space 2 0 2.
Definition pl2 : Space := space 2 1 3.

Definition leaf (dom rng dual : Space) (k : Z) : Leaf :=
  {| leafDomain := dom; leafRange := rng; leafDualToRange := dual;
     leafKernel := fun i j => (k + 10 * Z.of_nat i + Z.of_nat j)%Z |}.

Definition zeroLeaf (dom rng dual : Space) : Leaf :=
  {| leafDomain := dom; leafRange := rng; leafDualToRange := dual;
     leafKernel := fun _ _ => 0%Z |}.

Definition structure2x1 : leafStructure :=
  {| rowCount := 2; columnCount := 1;
     blocks := {[ (0, 0) := leaf pl0 pl0 pc0 100; (1, 0) := leaf pl0 pc1 pl1 200 ]};
     rowSpaces := [Some (pl0, pc0); Some (pc1, pl1)];
     columnSpaces := [Some pl0] |}.

Example structure2x1_setBlock :
  (match leafSetBlock 0 0 (leaf pl0 pl0 pc0 100) emptyStructure with
   | inr s => leafSetBlock 1 0 (leaf pl0 pc1 pl1 200) s
   | inl e => inl e
   end) = inr structure2x1.
Proof. vm_compute. reflexivity. Qed.

Lemma stacked_blocks_weakForm_witness :
  leafWeakForm structure2x1 =
  inr (tabulate 2 3 (leafKernel (leaf pl0 pl0 pc0 100)) ++
       tabulate 3 3 (leafKernel (leaf pl0 pc1 pl1 200))).
Proof.
  apply (stacked_blocks_weakForm Leaf (Some ∘ leafDomain) (Some ∘ leafRange)
           (Some ∘ leafDualToRange) (Matrix Z) leafAssemble id leafAssemble_shape
           structure2x1 (leaf pl0 pl0 pc0 100) (leaf pl0 pc1 pl1 200)).
  - by_computation.
  - reflexivity.
  - reflexivity.
  - reflexivity.
  - reflexivity.
  - reflexivity.
  - reflexivity.
Defined.

Example structure2x1_weakForm :
  leafWeakForm structure2x1 =
  inr [[100; 101; 102]; [110; 111; 112];
       [200; 201; 202]; [210; 211; 212]; [220; 221; 222]]%Z.
Proof. vm_compute. reflexivity. Qed.

(** The test with empty blocks: a 2×3 structure with three of six blocks
    set, and the zero-valued operators that fill the other three. *)
Definition structure2x3 : leafStructure :=
  {| rowCount := 2; columnCount := 3;
     blocks := {[ (0, 2) := leaf pl2 pl0 pc0 100;
                  (1, 0) := leaf pl0 pc2 pl2 200;
                  (1, 1) := leaf pc1 pc2 pl2 300 ]};
     rowSpaces := [Some (pl0, pc0); Some (pc2, pl2)];
     columnSpaces := [Some pl0; Some pc1; Some pl2] |}.

Definition zeroBlocks2x3 : gmap (nat * nat) Leaf :=
  {[ (0, 0) := zeroLeaf pl0 pl0 pc0;
     (0, 1) := zeroLeaf pc1 pl0 pc0;
     (1, 2) := zeroLeaf pl2 pc2 pl2 ]}.

(** A declared row that stays empty: the structure is pre-declared with two
    rows and one column, and one block is set. *)
Definition structureEmptyRow : leafStructure :=
  {| rowCount := 2; columnCount := 1;
     blocks := {[ (0, 0) := leaf pl0 pl0 pc0 100 ]};
     rowSpaces := [Some (pl0, pc0); Some (pc1, pl1)];
     columnSpaces := [Some pl0] |}.

Example structureEmptyRow_setBlock :
  leafSetBlock 0 0 (leaf pl0 pl0 pc0 100)
    (preDeclared [Some (pl0, pc0); Some (pc1, pl1)] [Some pl0]) = inr structureEmptyRow.
Proof. vm_compute. reflexivity. Qed.

Lemma structureEmptyRow_built : leafBuilt structureEmptyRow.
Proof.
  apply (built_setBlock _ _ _ _ 0 0 (leaf pl0 pl0 pc0 100)
           (preDeclared [Some (pl0, pc0); Some (pc1, pl1)] [Some pl0]));
    [apply built_preDeclared|apply structureEmptyRow_setBlock].
Qed.

Example structureEmptyRow_weakForm :
  leafWeakForm structureEmptyRow =
  inr [[100; 101; 102]; [110; 111; 112]; [0; 0; 0]; [0; 0; 0]; [0; 0; 0]]%Z.
Proof. vm_compute. reflexivity. Qed.


Example structure2x3_weakForm :
  leafWeakForm structure2x3 =
  inr [[  0;   0;   0;   0;   0; 100; 101; 102];
       [  0;   0;   0;   0;   0; 110; 111; 112];
       [200; 201; 202; 300; 301;   0;   0;   0];
       [210; 211; 212; 310; 311;   0;   0;   0];
       [220; 221; 222; 320; 321;   0;   0;   0]]%Z.
Proof. vm_compute. reflexivity. Qed.

(** The failure modes. *)
Example weakForm_emptyStructure : leafWeakForm emptyStructure = inl InvalidStructure.
Proof. reflexivity. Qed.

Example weakForm_undeclared_row :
  (match leafSetBlock 0 0 (leaf pl0 pl0 pc0 100) emptyStructure with
   | inr s =>
     match leafSetBlock 2 0 (leaf pl0 pc1 pl1 200) s with
     | inr s' => leafWeakForm s'
     | inl e => inl e
     end
   | inl e => inl e
   end) = inl MissingSpace.
Proof. vm_compute. reflexivity. Qed.

Example setBlock_inconsistent_column :
  (match leafSetBlock 0 0 (leaf pl0 pl0 pc0 100) emptyStructure with
   | inr s => leafSetBlock 1 0 (leaf pc1 pc1 pl1 200) s
   | inl e => inl e
   end) = inl InconsistentSpaces.
Proof. vm_compute. reflexivity. Qed.


(** Blocks set at (0,0) and (2,0) on a fresh structure: the second row is
    fully empty and was never given a space, and [weakForm] fails. *)
Definition structureGapRow : leafStructure :=
  {| rowCount := 3; columnCount := 1;
     blocks := {[ (0, 0) := leaf pl0 pl0 pc0 100; (2, 0) := leaf pl0 pc1 pl1 200 ]};
     rowSpaces := [Some (pl0, pc0); None; Some (pc1, pl1)];
     columnSpaces := [Some pl0] |}.

Example structureGapRow_setBlock :
  (match leafSetBlock 0 0 (leaf pl0 pl0 pc0 100) emptyStructure with
   | inr s => leafSetBlock 2 0 (leaf pl0 pc1 pl1 200) s
   | inl e => inl e
   end) = inr structureGapRow.
Proof. vm_compute. reflexivity. Qed.


End Blocked.
